(** * Cryptarithm solver: a shallow embedding of [cryptarithm.js]

    The development follows the source file function by function.

    - JavaScript strings are [string] (characters are [ascii]; the words of a
      puzzle are ASCII text, [toUpperCase] acts on the letters a-z).
    - A JavaScript object used as a hash is an association list in insertion
      order, which is the order [for (k in o)] and [Object.keys] visit keys
      that are not array indices.
    - JavaScript numbers are binary64 values.  The solver adds, multiplies
      and takes remainders of integers, so [number] holds the integers, the
      infinities and [NaN]; a sum or a product is the exact one rounded to
      53 significant bits, to the nearest value with ties to the even one,
      and an infinity from 2^1024 on ([of_integer]).  Below 2^53 nothing is
      rounded.
    - [Number(string)] reads a string of digits in base ten and rounds it
      likewise; what it makes of a string in which a letter is left is a
      parameter of the engine ([other]).  [Math.pow(10, len)] is the exact
      power up to 10^22, the largest power of ten that is a binary64
      value; above, the standard leaves the value to the engine, and it is
      a second parameter ([power]).  Every property is proved for all
      values of the two parameters, or says what it asks of them.
    - [throw] and the calls made to the user's callback are explicit: a
      computation yields the list of callback invocations it made, in order,
      and then either a value or the thrown error.  The user's callback is a
      function of its three arguments.
    - [do_layer] sets [mappings[char]], calls itself and deletes the
      binding again; the embedding passes the extended mapping to the
      recursive call and the caller keeps its own.  An invocation of the
      callback is recorded with the bindings the object has at that
      moment.
    - [do_layer] recurses once per letter it binds; the embedding makes that
      recursion structural with a fuel argument, and [None] means the fuel
      ran out.  More fuel than there are words is enough (see
      [do_layer_counts]).
    - The page ([main]) is followed as far as the calls its click handler
      makes to [set_display] and [display]; the document is not modelled,
      and neither are the lines written to the console when [debug] is
      set. *)

From Stdlib Require Import List String Ascii ZArith Lia Bool Arith PeanoNat.
From Stdlib Require Import DecimalString Sorted Permutation.
Import ListNotations.
Local Open Scope string_scope.
Local Open Scope list_scope.
Local Open Scope nat_scope.

Set Implicit Arguments.

(** ** Objects used as hashes *)

Section Hash.
Variables K V : Type.
Variable eqb : K -> K -> bool.

Definition hash := list (K * V).

(** [key in hash] *)
Definition has_key (key : K) (h : hash) : bool :=
  existsb (fun kv => eqb (fst kv) key) h.

(** [hash[key]], [None] standing for [undefined] *)
Fixpoint get (key : K) (h : hash) : option V :=
  match h with
  | [] => None
  | (k, v) :: rest => if eqb k key then Some v else get key rest
  end.

(** [hash[key] = value]: an existing key keeps its place, a new key goes
    last. *)
Fixpoint set (h : hash) (key : K) (value : V) : hash :=
  match h with
  | [] => [(key, value)]
  | (k, v) :: rest =>
      if eqb k key then (k, value) :: rest else (k, v) :: set rest key value
  end.

(** [delete(hash[key])] *)
Definition delete (h : hash) (key : K) : hash :=
  filter (fun kv => negb (eqb (fst kv) key)) h.

(** [Object.keys(hash)] *)
Definition keys (h : hash) : list K := map fst h.
End Hash.

(** A mapping from letters to the digits they stand for. *)
Definition mapping := hash ascii nat.

(** ** Values, errors and computations *)

(** A JavaScript number, among those the solver can meet: an integer that
    is a binary64 value, an infinity, or [NaN].  The two zeros are one
    [Finite 0]: no operation below tells them apart. *)
Inductive number :=
| NaN
| Infinity (negative : bool)
| Finite (z : Z).

(** An integer that is not negative, rounded to 53 significant bits: to the
    nearest integer that has them, and to the one whose last bit is 0 when
    two are as near. *)
Definition round_nearest_even (z : Z) : Z :=
  let excess := (Z.log2 z - 52)%Z in
  if (excess <=? 0)%Z then z
  else
    let quotient := (z / 2 ^ excess)%Z in
    let remainder := (z mod 2 ^ excess)%Z in
    let half := (2 ^ (excess - 1))%Z in
    let quotient :=
      if (half <? remainder)%Z || ((remainder =? half)%Z && Z.odd quotient)
      then (quotient + 1)%Z
      else quotient in
    (quotient * 2 ^ excess)%Z.

(** The binary64 value of an exact integer: the integer rounded, and an
    infinity when that reaches [2 ^ 1024]. *)
Definition of_integer (z : Z) : number :=
  let rounded := round_nearest_even (Z.abs z) in
  if (2 ^ 1024 <=? rounded)%Z then Infinity (z <? 0)%Z
  else Finite (Z.sgn z * rounded)%Z.

(** The values a callback hands back to the solver, in this development:
    [undefined], [null], a boolean or a number.  A callback that returns a
    string or an object, on which [+=] concatenates, is outside it. *)
Inductive jsval :=
| JUndefined
| JNull
| JBoolean (b : bool)
| JNumber (n : number).

(** Conversion of a value to a number, as [isNaN] and [+=] perform it. *)
Definition ToNumber (v : jsval) : number :=
  match v with
  | JUndefined => NaN
  | JNull => Finite 0%Z
  | JBoolean true => Finite 1%Z
  | JBoolean false => Finite 0%Z
  | JNumber n => n
  end.

Definition isNaN (v : jsval) : bool :=
  match ToNumber v with NaN => true | _ => false end.

(** [a + b] on numbers *)
Definition add (a b : number) : number :=
  match a, b with
  | Finite x, Finite y => of_integer (x + y)
  | Infinity s, Infinity t => if Bool.eqb s t then Infinity s else NaN
  | Infinity s, Finite _ | Finite _, Infinity s => Infinity s
  | _, _ => NaN
  end.

(** [a * b] *)
Definition mul (a b : number) : number :=
  match a, b with
  | Finite x, Finite y => of_integer (x * y)
  | Infinity s, Infinity t => Infinity (xorb s t)
  | Infinity s, Finite y | Finite y, Infinity s =>
      if (y =? 0)%Z then NaN else Infinity (xorb s (y <? 0)%Z)
  | _, _ => NaN
  end.

(** [a % b]: the remainder has the sign of [a] and is exact. *)
Definition rem (a b : number) : number :=
  match a, b with
  | Finite x, Finite y => if (y =? 0)%Z then NaN else Finite (Z.rem x y)
  | Finite x, Infinity _ => Finite x
  | _, _ => NaN
  end.

(** [a == b] on numbers: [NaN] equals nothing. *)
Definition number_eq (a b : number) : bool :=
  match a, b with
  | Finite x, Finite y => (x =? y)%Z
  | Infinity s, Infinity t => Bool.eqb s t
  | _, _ => false
  end.

(** What the engine returns for [Math.pow(10, len)] when [len] is above
    22. *)
Definition powers := nat -> number.

(** [Math.pow(10, len)].  A power of ten up to [10 ^ 22] is a binary64
    value, and the engine returns it.  A larger one is not, and the
    standard leaves to the engine how near the value it returns is; that
    value is the parameter [power]. *)
Definition Math_pow10 (power : powers) (len : nat) : number :=
  if len <=? 22 then Finite (10 ^ Z.of_nat len) else power len.

(** What the source throws.  Each constructor carries what its message
    prints; [message] is the thrown string.  [TypeError] is the engine's own
    error on [undefined.split]. *)
Inductive error :=
| NotEnoughWords (words : list string)
| NoResult
| InvalidCharacters (invalid : list string)
| TooManyLetters (chars : list ascii)
| InvalidOperation (operation : string)
| TypeError.

Definition message (e : error) : string :=
  match e with
  | NotEnoughWords words =>
      "Not enough words specified: " ++ String.concat "," words
  | NoResult => "No result specified"
  | InvalidCharacters invalid =>
      "Words have invalid characters: " ++ String.concat "," invalid
  | TooManyLetters chars =>
      "Too many different letters used: "
      ++ String.concat ", " (map (fun c => String c EmptyString) chars)
  | InvalidOperation operation =>
      "Invalid operation '" ++ operation ++ "' should be either '+' or '*'"
  | TypeError => "TypeError"
  end%string.

(** The two kinds of error the specification names. *)
Definition InvalidPuzzle (e : error) : bool :=
  match e with
  | NotEnoughWords _ | NoResult | InvalidCharacters _ | TooManyLetters _ => true
  | InvalidOperation _ | TypeError => false
  end.

Definition UnsupportedOperator (e : error) : bool :=
  match e with InvalidOperation _ => true | _ => false end.

Inductive outcome (A : Type) :=
| Return (a : A)
| Throw (e : error).
Arguments Throw {A} e.

(** One invocation of the user's callback: the mapping, the expression on
    one line and the formatted expression. *)
Definition call := (mapping * string * string)%type.

Definition call_mapping (c : call) : mapping := fst (fst c).

(** A computation: [None] when the fuel ran out, else the callback
    invocations made and how the computation ended. *)
Definition comp (A : Type) := option (list call * outcome A).

Definition ret {A} (a : A) : comp A := Some ([], Return a).
Definition throw {A} (e : error) : comp A := Some ([], Throw e).

Definition bind {A B} (c : comp A) (f : A -> comp B) : comp B :=
  match c with
  | None => None
  | Some (cs, Throw e) => Some (cs, Throw e)
  | Some (cs, Return a) =>
      match f a with
      | None => None
      | Some (cs', r) => Some (cs ++ cs', r)
      end
  end.

Definition lift {A} (o : outcome A) : comp A := Some ([], o).

(** [array.forEach(body)] where the body updates a local variable [s]. *)
Fixpoint forEach {A S : Type} (array : list A) (body : S -> A -> comp S) (s : S)
  : comp S :=
  match array with
  | [] => ret s
  | x :: rest => bind (body s x) (forEach rest body)
  end.

(** The user's callback is a function of its three arguments; the solver
    records the invocation. *)
Definition sink := mapping -> string -> string -> jsval.

Definition invoke (callback : sink) : mapping -> string -> string -> comp jsval :=
  fun m expression pretty => Some ([(m, expression, pretty)], Return (callback m expression pretty)).

(** ** Strings *)

Definition is_lower (c : ascii) : bool := (Ascii.leb "a" c && Ascii.leb c "z")%char.

Definition char_toUpperCase (c : ascii) : ascii :=
  if is_lower c then ascii_of_nat (nat_of_ascii c - 32) else c.

Fixpoint toUpperCase (s : string) : string :=
  match s with
  | EmptyString => EmptyString
  | String c rest => String (char_toUpperCase c) (toUpperCase rest)
  end.

(** The characters of a string: [split] on the empty string. *)
Definition chars_of (s : string) : list ascii := list_ascii_of_string s.

(** [string.split(sep)] for a one-character separator *)
Fixpoint split (sep : ascii) (s : string) : list string :=
  match s with
  | EmptyString => [EmptyString]
  | String c rest =>
      if Ascii.eqb c sep then EmptyString :: split sep rest
      else match split sep rest with
           | piece :: pieces => String c piece :: pieces
           | [] => [String c EmptyString]
           end
  end.

(** [String(value)] for a number that is a natural number *)
Definition to_string (value : nat) : string :=
  NilEmpty.string_of_uint (Nat.to_uint value).

(** [string.substring(start, string.length)]; a negative [start] counts as 0,
    which the truncated subtraction of the callers gives. *)
Definition substring_from (start : nat) (s : string) : string :=
  substring start (String.length s - start) s.

Definition is_digit (c : ascii) : bool := (Ascii.leb "0" c && Ascii.leb c "9")%char.

Definition digit_of (c : ascii) : option Z :=
  if is_digit c then Some (Z.of_nat (nat_of_ascii c - 48)) else None.

Fixpoint parse_digits (acc : Z) (s : string) : option Z :=
  match s with
  | EmptyString => Some acc
  | String c rest =>
      match digit_of c with
      | Some d => parse_digits (10 * acc + d) rest
      | None => None
      end
  end.

(** The exact value of a string of digits in base ten; the empty string is
    0, and a string that holds another character has no value. *)
Definition decimal (s : string) : option Z := parse_digits 0 s.

(** [Number(string)].  A string of digits is read in base ten, and the
    number is the binary64 value nearest to what it reads, which is what
    the engines return (the standard asks it of the first twenty
    significant digits).  What the engine makes of any other string (it is
    [NaN] for most, and a number for forms such as 1E5 or 0X1F) is the
    parameter [other]. *)
Definition Number (other : string -> number) (s : string) : number :=
  if forallb is_digit (chars_of s)
  then match decimal s with Some value => of_integer value | None => NaN end
  else other s.

(** ** The source, helper functions first *)

Module Cryptarithm.

Definition replace_all (s : string) (old_substring : ascii) (new_substring : string)
  : string :=
  String.concat new_substring (split old_substring s).

Definition substitute (s : string) (m : mapping) : string :=
  fold_left (fun new_string kv => replace_all new_string (fst kv) (to_string (snd kv)))
            m s.

Definition rev_hash (h : mapping) : hash nat ascii :=
  fold_left (fun reverse kv => set Nat.eqb reverse (snd kv) (fst kv)) h [].

Fixpoint any {A} (array : list A) (predicate : A -> bool) : bool :=
  match array with
  | [] => false
  | x :: rest => if predicate x then true else any rest predicate
  end.

Fixpoint all {A} (array : list A) (predicate : A -> bool) : bool :=
  match array with
  | [] => true
  | x :: rest => if predicate x then all rest predicate else false
  end.

Definition maxlen (array : list string) : nat :=
  fold_left (fun a b => if b <? a then a else b) (map String.length array) 0.

(** [word[0] == char]; [word[0]] is [undefined] for the empty word. *)
Definition first_is (char : ascii) (word : string) : bool :=
  match word with
  | EmptyString => false
  | String c _ => Ascii.eqb c char
  end.

Definition get_possible_values (char : ascii) (words : list string) (mappings : mapping)
  : list nat :=
  let rev_mappings := rev_hash mappings in
  let values := [0; 1; 2; 3; 4; 5; 6; 7; 8; 9] in
  let values :=
    if any words (first_is char)
    then filter (fun elt => negb (elt =? 0)) values
    else values in
  filter (fun elt => negb (has_key Nat.eqb elt rev_mappings)) values.

(** [new_words[new_words.length - 1]], [None] for [undefined] *)
Definition last_word (words : list string) : option string :=
  match words with
  | [] => None
  | _ => Some (last words EmptyString)
  end.

Section Engine.
(** The engine's reading of strings that are not all digits, see [Number]. *)
Variable other : string -> number.
(** The engine's powers of ten above [10 ^ 22], see [Math_pow10]. *)
Variable power : powers.

Definition check_equal (words : list string) (operation : string) (len : nat)
           (mappings : mapping) : outcome bool :=
  let new_words :=
    if len =? 0 then words
    else map (fun elt => substring_from (String.length elt - len) elt) words in
  let desired := last_word new_words in
  let operands := removelast new_words in
  let operands := map (fun word => Number other (substitute word mappings)) operands in
  let result :=
    if String.eqb operation "+" then Return (fold_left add operands (Finite 0%Z))
    else if String.eqb operation "*" then Return (fold_left mul operands (Finite 1%Z))
    else Throw (InvalidOperation operation) in
  match result with
  | Throw e => Throw e
  | Return result =>
      let result :=
        if len =? 0 then result else rem result (Math_pow10 power len) in
      match desired with
      | Some desired => Return (number_eq result (Number other (substitute desired mappings)))
      | None =>
          (* substitute(undefined, mappings) *)
          match mappings with
          | [] => Return false
          | _ :: _ => Throw TypeError
          end
      end
  end.

(** [Array(len+1).join(char)]; callers pass a difference of lengths that is
    not negative when the operator is one character long. *)
Fixpoint repeat (char : string) (len : nat) : string :=
  match len with
  | 0 => EmptyString
  | S n => (char ++ repeat char n)%string
  end.

Definition pad (word : string) (width : nat) : string :=
  (repeat " " (width - String.length word) ++ word)%string.

(** [array[index] = value] inside the array *)
Fixpoint assign {A} (array : list A) (index : nat) (value : A) : list A :=
  match array, index with
  | [], _ => []
  | _ :: rest, 0 => value :: rest
  | x :: rest, S i => x :: assign rest i value
  end.

(** [array.splice(index, 0, value)] *)
Definition splice_in {A} (array : list A) (index : nat) (value : A) : list A :=
  firstn index array ++ value :: skipn index array.

Definition pretty_expression (words : list string) (operator : string) (m : mapping)
  : string :=
  let words := map (fun word => substitute word m) words in
  let width := maxlen words + 2 in
  let n := List.length words in
  let words :=
    (* with fewer than two words the index is negative and no element changes *)
    if 2 <=? n
    then assign words (n - 2) (operator ++ " " ++ nth (n - 2) words EmptyString)%string
    else words in
  let words := splice_in words (n - 1) (repeat "-" width) in
  String.concat (String "010" EmptyString) (map (fun word => pad word width) words).

(** [words.slice(0, words.length - 1).join(operation) + "=" + words[words.length - 1]] *)
Definition flat_expression (words : list string) (operation : string) : string :=
  (String.concat operation (removelast words) ++ "="
   ++ match last_word words with Some w => w | None => "undefined" end)%string.

(** ** The column search *)

(** The loop of [do_layer]: the letter of the first word that reaches column
    [len] and whose letter there is not in [mappings]. *)
Fixpoint missing_letter (words : list string) (len : nat) (mappings : mapping)
  : option ascii :=
  match words with
  | [] => None
  | word :: rest =>
      match String.get (String.length word - len) word with
      | Some char =>
          if (len <=? String.length word) && negb (has_key Ascii.eqb char mappings)
          then Some char
          else missing_letter rest len mappings
      | None => missing_letter rest len mappings
      end
  end.

Fixpoint do_layer (fuel : nat) (words : list string) (operation : string) (len : nat)
         (mappings : mapping) (callback : mapping -> string -> string -> comp jsval)
         (check_len : nat) {struct fuel} : comp jsval :=
  match fuel with
  | 0 => None
  | S fuel' =>
      let operation := if String.eqb operation EmptyString then "+" else operation in
      let check_len := if check_len =? 0 then len else check_len in
      match (if len =? 0 then None else missing_letter words len mappings) with
      | Some char =>
          let values := get_possible_values char words mappings in
          bind (forEach values
                  (fun num_hits value =>
                     bind (do_layer fuel' words operation len
                             (set Ascii.eqb mappings char value) callback check_len)
                          (fun hits => ret (add num_hits (ToNumber hits))))
                  (Finite 0%Z))
               (fun num_hits => ret (JNumber num_hits))
      | None =>
          bind (lift (check_equal words operation check_len mappings))
               (fun equal =>
                  if equal then
                    let expression := substitute (flat_expression words operation) mappings in
                    bind (callback mappings expression
                            (pretty_expression words operation mappings))
                         (fun result =>
                            ret (if isNaN result then JNumber (Finite 1%Z) else result))
                  else ret (JNumber (Finite 0%Z)))
      end
  end.

(** The two nested loops of [solve_singleop]: is there [1 <= jj < len] and a
    word longer than [len - jj] whose character at index
    [word.length - len - jj] is not in [mappings]?  A negative index reads
    [undefined], which is never a key. *)
Definition pending_in (len jj : nat) (mappings : mapping) (word : string) : bool :=
  (len - jj <? String.length word)
  && negb (if len + jj <=? String.length word
           then match String.get (String.length word - len - jj) word with
                | Some char => has_key Ascii.eqb char mappings
                | None => false
                end
           else false).

Definition pending (words : list string) (len : nat) (mappings : mapping) : bool :=
  existsb (fun jj => existsb (pending_in len jj mappings) words) (seq 1 (len - 1)).

(** [solve_singleop] called with a [len] (the recursive calls): lines 88 to
    121 of the source.  The loops run only when [len] is at least 2, so the
    recursive call is made with a [len] that is not 0 and skips the
    initialization (see [pending_small]). *)
Fixpoint solve_columns (fuel : nat) (words : list string) (operation : string)
         (callback : mapping -> string -> string -> comp jsval) (len : nat)
         (mappings : mapping) (check_len : nat) {struct len} : comp jsval :=
  let check_len := if check_len =? 0 then len else check_len in
  let operation := if String.eqb operation EmptyString then "+" else operation in
  if pending words len mappings then
    match len with
    | S len' =>
        solve_columns fuel words operation
          (fun submapping _ _ =>
             do_layer fuel words operation len submapping callback check_len)
          len' mappings len'
    | 0 => do_layer fuel words operation len mappings callback check_len
    end
  else do_layer fuel words operation len mappings callback check_len.

Definition is_invalid_char (char : ascii) : bool :=
  (Ascii.ltb char "A" || Ascii.ltb "Z" char)%char.

Definition has_invalid_chars (word : string) : bool :=
  0 <? List.length (filter is_invalid_char (chars_of word)).

(** [chars = {}; ....map((i) => chars[i] = 1); Object.keys(chars)] *)
Definition distinct_chars (words : list string) : list ascii :=
  keys (fold_left (fun chars i => set Ascii.eqb chars i 1)
                  (chars_of (String.concat EmptyString words)) []).

(** [solve_singleop(words, operation, callback)], as users call it: without
    [len], [mappings] and [check_len]. *)
Definition solve_singleop (fuel : nat) (words : list string) (operation : string)
           (callback : sink) : comp jsval :=
  if List.length words <? 3 then throw (NotEnoughWords words)
  else if String.length (last words EmptyString) <? 1 then throw NoResult
  else
    let words := map toUpperCase words in
    let invalid := filter has_invalid_chars words in
    if 0 <? List.length invalid then throw (InvalidCharacters invalid)
    else
      let chars := distinct_chars words in
      if 10 <? List.length chars then throw (TooManyLetters chars)
      else
        let len := maxlen words in
        let check_len := len * List.length words in
        solve_columns fuel words operation (invoke callback) len [] check_len.

End Engine.

(** ** The exhaustive solver *)

(** [swap(array, ii, jj)] on the array threaded through [permutations];
    both indices are inside the array in every call. *)
Definition swap (array : list nat) (ii jj : nat) : list nat :=
  let tmp := nth ii array 0 in
  assign (assign array ii (nth jj array 0)) jj tmp.

Section Permutations.
(** What [func] writes to the console. *)
Variable R : Type.
(** [func(array)]: what it logs and whether it returns a true value. *)
Variable func : list nat -> list R * bool.

(** [permutations(array, ii, kk, func)], by recursion on
    [remaining = array.length - ii]; the result is the array as the call
    leaves it, what was logged, and [should_stop]. *)
Fixpoint permutations_from (remaining : nat) (array : list nat) (ii kk : nat)
  : list nat * list R * bool :=
  match remaining with
  | 0 => let '(log, stop) := func array in (array, log, stop)
  | S remaining' =>
      if ii =? kk then let '(log, stop) := func array in (array, log, stop)
      else
        let '(array, log, should_stop) :=
          permutations_from remaining' array (ii + 1) kk in
        if should_stop then (array, log, should_stop)
        else
          (fix loop (jjs : list nat) (array : list nat) (log : list R) :=
             match jjs with
             | [] => (array, log, false)
             | jj :: rest =>
                 let array := swap array ii jj in
                 let '(array, log', should_stop) :=
                   permutations_from remaining' array (ii + 1) kk in
                 let array := swap array ii jj in
                 if should_stop then (array, log ++ log', should_stop)
                 else loop rest array (log ++ log')
             end)
            (seq (ii + 1) (List.length array - (ii + 1))) array log
  end.

Definition permutations (array : list nat) (ii kk : nat) :=
  permutations_from (List.length array - ii) array ii kk.
End Permutations.

Definition is_letter (char : ascii) : bool :=
  (Ascii.leb "A" char && Ascii.leb char "Z")%char.

Definition make_letters (s : string) : list ascii :=
  keys (fold_left (fun letters char =>
                     if is_letter char then set Ascii.eqb letters char 1 else letters)
                  (chars_of s) []).

(** A mapping as [make_mapping] builds it: the value of a letter is a
    digit, or [undefined], which is [None]. *)
Definition assignment := hash ascii (option nat).

(** [make_mapping(letters, values)]; [values[ii]] is [undefined] from the
    end of [values] on. *)
Definition make_mapping (letters : list ascii) (values : list nat) : assignment :=
  fold_left (fun m ii => set Ascii.eqb m (nth ii letters "000"%char) (nth_error values ii))
            (seq 0 (List.length letters)) [].

(** The separator [join] uses for a value: the numeral of a number, and a
    comma for [undefined]. *)
Definition separator (value : option nat) : string :=
  match value with
  | Some digit => to_string digit
  | None => ","
  end.

(** [substitute(string, mapping)] on the mappings of [make_mapping] *)
Definition substitute_values (s : string) (m : assignment) : string :=
  fold_left (fun new_string kv => replace_all new_string (fst kv) (separator (snd kv)))
            m s.

(** What can be seen of a call of [solve_general]: a mapping announced as
    GOOD on the console with the substituted expression, and the exception
    of [eval] when the call ends with it. *)
Inductive general_event :=
| Good (m : assignment) (text : string)
| Threw.

Section General.
(** [eval] of a text, which is the engine's evaluator and not code of the
    solver: [Some b] when it returns a value, [b] being that value read as
    a condition, and [None] when it throws.  It is a function of the text,
    which it is on a text with no identifier in it. *)
Variable eval : string -> option bool.

Definition check_expression (expression : string) (m : assignment) : option bool :=
  eval (substitute_values expression m).

(** [solve_general(expression)]; the result is what can be seen of the
    call, in order.  The progress line printed every 1000 tries is left
    out.  An exception of [eval] ends [permutations] and [solve_general] at
    once; the callback of the embedding records it and stops the
    iteration, which differs by the swaps back only, on an array nothing
    reads afterwards. *)
Definition solve_general (expression : string) : list general_event :=
  let expression := toUpperCase expression in
  let letters := make_letters expression in
  let '(_, log, _) :=
    permutations
      (fun values =>
         let m := make_mapping letters values in
         match check_expression expression m with
         | Some true => ([Good m (substitute_values expression m)], true)
         | Some false => ([], false)
         | None => ([Threw], true)
         end)
      [0; 1; 2; 3; 4; 5; 6; 7; 8; 9] 0 (List.length letters) in
  log.
End General.

End Cryptarithm.
Import Cryptarithm.


(** An evaluator for the texts [solve_general] builds from the equations
    [solve_singleop] solves: numerals joined by [+] or by [*] on the left of
    [==] and one numeral on the right.  A numeral that starts with 0 and
    has only digits below 8 is read in base eight, as the engine does
    outside strict mode.  On any other text this evaluator throws. *)
Definition octal_digit (c : ascii) : bool := (Ascii.leb "0" c && Ascii.leb c "7")%char.

Fixpoint parse_octal (acc : Z) (s : string) : option Z :=
  match s with
  | EmptyString => Some acc
  | String c rest =>
      match digit_of c with
      | Some d => parse_octal (8 * acc + d) rest
      | None => None
      end
  end.

Definition numeral (s : string) : option number :=
  option_map of_integer
    match s with
    | EmptyString => None
    | String "0" (String _ _ as rest) =>
        if forallb octal_digit (chars_of rest) then parse_octal 0 rest else decimal rest
    | _ => decimal s
    end.

(** The numerals of a list, when each of them is one. *)
Fixpoint numerals (texts : list string) : option (list number) :=
  match texts with
  | [] => Some []
  | text :: rest =>
      match numeral text, numerals rest with
      | Some n, Some ns => Some (n :: ns)
      | _, _ => None
      end
  end.

Definition eval_equation (s : string) : option bool :=
  match split "=" s with
  | [lhs; EmptyString; rhs] =>
      let value :=
        match split "+" lhs with
        | [_] => option_map (fun ns => fold_left mul ns (Finite 1%Z)) (numerals (split "*" lhs))
        | terms => option_map (fun ns => fold_left add ns (Finite 0%Z)) (numerals terms)
        end in
      match value, numeral rhs with
      | Some value, Some result => Some (number_eq value result)
      | _, _ => None
      end
  | _ => None
  end.

Definition send_more_money : list string := ["SEND"; "MORE"; "MONEY"].

(** ** The loop of [permutations] *)

Section Loop.
Variable R : Type.
Variable func : list nat -> list R * bool.
Variables remaining ii kk : nat.

(** The [for] loop of [permutations], as [permutations_from] has it
    inside: for each [jj], swap, recurse, swap back, and leave when the
    recursive call says to stop. *)
Fixpoint permutations_loop (jjs : list nat) (array : list nat) (log : list R)
  : list nat * list R * bool :=
  match jjs with
  | [] => (array, log, false)
  | jj :: rest =>
      let array := swap array ii jj in
      let '(array, log', should_stop) :=
        permutations_from func remaining array (ii + 1) kk in
      let array := swap array ii jj in
      if should_stop then (array, log ++ log', should_stop)
      else permutations_loop rest array (log ++ log')
  end.
End Loop.

(** ** The page *)

(** [hash_string(hash)] for a hash that is given (an object is never
    false, so the first test of the source does not apply). *)
Definition hash_string (h : mapping) : string :=
  String.concat ","
    (map (fun kv => (String (fst kv) EmptyString ++ ":" ++ to_string (snd kv))%string) h).

(** What the page does to the element [answers]: [set_display(output)] and
    [display(output)], in order. *)
Inductive dom_call :=
| SetDisplay (output : string)
| Display (output : string).

(** [String(value)] for an integer below [10 ^ 21], which is written with
    all its digits *)
Definition integer_string (z : Z) : string :=
  if (z <? 0)%Z then ("-" ++ to_string (Z.to_nat (- z)))%string
  else to_string (Z.to_nat z).

(** [value + " results."], the value converted to a string *)
Definition js_string (v : jsval) : string :=
  match v with
  | JUndefined => "undefined"
  | JNull => "null"
  | JBoolean true => "true"
  | JBoolean false => "false"
  | JNumber NaN => "NaN"
  | JNumber (Infinity false) => "Infinity"
  | JNumber (Infinity true) => "-Infinity"
  | JNumber (Finite z) => integer_string z
  end.

(** [value == 0] *)
Definition equals_zero (v : jsval) : bool :=
  match v with
  | JNumber (Finite z) => (z =? 0)%Z
  | JBoolean b => negb b
  | JUndefined | JNull | JNumber _ => false
  end.

(** The words the page gives to the solver: the inputs [a] to [d] that are
    not empty, then the target. *)
Definition page_words (a b c d target : string) : list string :=
  filter (fun value => negb (String.eqb value EmptyString)) [a; b; c; d] ++ [target].

(** What the callback of the page displays for a solution. *)
Definition page_block (c : call) : dom_call :=
  Display (hash_string (call_mapping c) ++ String "010" EmptyString ++ snd c).

(** The handler [main] attaches to the button, as a function of the values
    of the inputs: the calls it makes to [set_display] and [display]. *)
Definition main_click (other : string -> number) (power : powers) (fuel : nat)
           (a b c d target operator : string) : option (list dom_call) :=
  let vals := page_words a b c d target in
  match solve_singleop other power fuel vals operator (fun _ _ _ => JUndefined) with
  | None => None
  | Some (cs, r) =>
      Some (SetDisplay EmptyString
            :: map page_block cs
            ++ [match r with
                | Return results =>
                    if equals_zero results then Display "No results."
                    else Display (js_string results ++ " results.")
                | Throw err => Display (message err)
                end])
  end.

(** * Vocabulary of the properties *)

(** Replacing a character by splitting and joining is a character-wise
    replacement. *)
Fixpoint replace_char (old : ascii) (new : string) (s : string) : string :=
  match s with
  | EmptyString => EmptyString
  | String c rest =>
      if Ascii.eqb c old then (new ++ replace_char old new rest)%string
      else String c (replace_char old new rest)
  end.

(** The keys of a mapping are letters. *)
Definition letter_keys (m : mapping) : Prop :=
  Forall (fun kv => is_letter (fst kv) = true) m.

Definition classical : mapping :=
  [("D"%char, 7); ("E"%char, 5); ("Y"%char, 2); ("N"%char, 6);
   ("R"%char, 8); ("O"%char, 0); ("S"%char, 9); ("M"%char, 1)].

(** What the search maintains about the mapping it builds: no letter twice,
    no digit twice, only digits, and no 0 for a letter that starts a word. *)
Record well_formed (words : list string) (m : mapping) : Prop := {
  wf_keys : NoDup (keys m);
  wf_digits : NoDup (map snd m);
  wf_range : Forall (fun kv => snd kv <= 9) m;
  wf_leading : Forall (fun kv => any words (first_is (fst kv)) = true -> snd kv <> 0) m
}.

Definition calls_satisfy {A} (Q : call -> Prop) (c : comp A) : Prop :=
  forall cs r, c = Some (cs, r) -> Forall Q cs.

Definition default_operation (operation : string) : string :=
  if String.eqb operation EmptyString then "+" else operation.

Definition default_check_len (check_len len : nat) : nat :=
  if check_len =? 0 then len else check_len.

(** The letters of column [len]: for each word that reaches the column, its
    character there. *)
Definition column (words : list string) (len : nat) : list ascii :=
  flat_map (fun word =>
              if len <=? String.length word
              then match String.get (String.length word - len) word with
                   | Some char => [char]
                   | None => []
                   end
              else []) words.

(** The mappings the search can build: it starts from the empty mapping
    and, in [do_layer], binds the missing letter of a column to one of its
    possible values. *)
Inductive search_state (words : list string) : mapping -> Prop :=
| search_start : search_state words []
| search_bind (m : mapping) (len : nat) (char : ascii) (value : nat) :
    search_state words m ->
    missing_letter words len m = Some char ->
    In value (get_possible_values char words m) ->
    search_state words (set Ascii.eqb m char value).

(** The four tests [solve_singleop] makes before it searches. *)
Definition valid_puzzle (words : list string) : bool :=
  negb (List.length words <? 3)
  && negb (String.length (last words EmptyString) <? 1)
  && negb (0 <? List.length (filter has_invalid_chars (map toUpperCase words)))
  && negb (10 <? List.length (distinct_chars (map toUpperCase words))).

(** Every letter of the columns 1 to [len] is bound. *)
Definition bound_upto (words : list string) (len : nat) (m : mapping) : Prop :=
  forall k c, 1 <= k <= len -> In c (column words k) ->
              has_key Ascii.eqb c m = true.

(** What [solve_singleop] has established when it invokes the callback. *)
Definition accepted (other : string -> number) (power : powers)
           (words : list string) (operation : string) (c : call) : Prop :=
  search_state words (call_mapping c)
  /\ bound_upto words (maxlen words) (call_mapping c)
  /\ check_equal other power words (default_operation operation)
                 (maxlen words * List.length words) (call_mapping c) = Return true.

(** No two letters of the mapping have the same digit. *)
Definition injective (m : mapping) : Prop :=
  NoDup (map snd m)
  /\ forall c1 c2 d,
       get Ascii.eqb c1 m = Some d -> get Ascii.eqb c2 m = Some d -> c1 = c2.

Definition sum (vs : list Z) : Z := fold_right Z.add 0%Z vs.
Definition product (vs : list Z) : Z := fold_right Z.mul 1%Z vs.

(** The equation read with exact integers: every operand and the result
    substitute to a string of digits, and the sum (for [+]) or the product
    (for [*]) of the operands' values is the result's. *)
Definition equation_holds (words : list string) (operation : string) (m : mapping)
  : Prop :=
  exists vs r,
    map (fun word => decimal (substitute word m)) (removelast words) = map Some vs
    /\ decimal (substitute (last words EmptyString) m) = Some r
    /\ ((operation = "+" /\ sum vs = r) \/ (operation = "*" /\ product vs = r)).

(** Every letter of every word is a key of the mapping. *)
Definition total_on (words : list string) (m : mapping) : Prop :=
  forall word char, In word words -> In char (chars_of word) -> In char (keys m).

(** A word whose letter in column [len] is not bound yet. *)
Definition word_missing (len : nat) (m : mapping) (word : string) : bool :=
  match String.get (String.length word - len) word with
  | Some char => (len <=? String.length word) && negb (has_key Ascii.eqb char m)
  | None => false
  end.

(** The number of such words bounds the depth of [do_layer]'s recursion. *)
Definition missing_count (words : list string) (len : nat) (m : mapping) : nat :=
  List.length (filter (word_missing len m) words).

(** What one invocation of the callback adds to the count: the value it
    returns read as a number, and 1 when that is not a number.  An infinity
    has no place in an exact sum; [exact_hits] rules it out. *)
Definition hit (v : jsval) : Z :=
  match ToNumber v with
  | Finite n => n
  | NaN => 1%Z
  | Infinity _ => 0%Z
  end.

Definition hits (callback : sink) (cs : list call) : Z :=
  sum (map (fun c => hit (callback (fst (fst c)) (snd (fst c)) (snd c))) cs).

(** The value [do_layer] returns for what the callback returned. *)
Definition counted (v : jsval) : number :=
  if isNaN v then Finite 1%Z else ToNumber v.

(** The size of what the invocations add to the count. *)
Definition weight (callback : sink) (cs : list call) : Z :=
  sum (map (fun c => Z.abs (hit (callback (fst (fst c)) (snd (fst c)) (snd c)))) cs).

(** The values the callback returned add up with no rounding: none is an
    infinity, and their sizes add up to less than [2 ^ 53]. *)
Definition exact_hits (callback : sink) (cs : list call) : Prop :=
  Forall (fun c => forall negative,
              ToNumber (callback (fst (fst c)) (snd (fst c)) (snd c))
              <> Infinity negative) cs
  /\ (weight callback cs < 2 ^ 53)%Z.

(** [m] with further bindings after it. *)
Definition extends (m m' : mapping) : Prop := exists rest, m' = m ++ rest.

(** The invocations a computation makes are on different mappings, each an
    extension of [m]. *)
Definition distinct_calls {A} (m : mapping) (c : comp A) : Prop :=
  forall cs r, c = Some (cs, r) ->
               NoDup (map call_mapping cs)
               /\ Forall (fun call => extends m (call_mapping call)) cs.

(** A callback that always returns, and whose value counts what the user's
    callback reported in the invocations made, when these add up with no
    rounding. *)
Definition counting (callback : sink) (k : mapping -> string -> string -> comp jsval)
  : Prop :=
  forall m e p, exists cs v,
      k m e p = Some (cs, Return v)
      /\ (exact_hits callback cs -> counted v = Finite (hits callback cs)).

(** The letters of the words that a mapping leaves unbound. *)
Definition unbound (words : list string) (m : mapping) : list ascii :=
  filter (fun c => negb (has_key Ascii.eqb c m)) (distinct_chars words).

(** A computation that starts from [m] invokes the callback at most once
    for each way to give digits to the unbound letters. *)
Definition few_calls {A} (words : list string) (m : mapping) (c : comp A) : Prop :=
  forall cs r, c = Some (cs, r) ->
               (Z.of_nat (List.length cs) <= 10 ^ Z.of_nat (List.length (unbound words m)))%Z.

Definition unsupported (operation : string) : Prop :=
  operation <> EmptyString /\ operation <> "+" /\ operation <> "*".

(** The two ways [do_layer] ends under an unsupported operation; the
    callback is not invoked in either. *)
Definition thrown (operation : string) (c : comp jsval) : Prop :=
  c = Some ([], Throw (InvalidOperation operation)).

Definition thrown_or_zero (operation : string) (c : comp jsval) : Prop :=
  thrown operation c \/ c = Some ([], Return (JNumber (Finite 0%Z))).

(** The callback [solve_general] gives to [permutations]: it reports the
    values and stops when they satisfy [P]. *)
Definition stop_at_first {R} (P : list nat -> bool) (rep : list nat -> R)
           (values : list nat) : list R * bool :=
  if P values then ([rep values], true) else ([], false).

(** The characters of the equations the exhaustive solver is given here:
    letters, [+], [*] and [=]. *)
Definition equation_char (c : ascii) : bool :=
  is_letter (char_toUpperCase c)
  || Ascii.eqb c "+" || Ascii.eqb c "*" || Ascii.eqb c "=".

(** The characters of the texts it then evaluates: digits, the comma
    written for [undefined], [+], [*] and [=]. *)
Definition text_char (c : ascii) : bool :=
  is_digit c
  || Ascii.eqb c "," || Ascii.eqb c "+" || Ascii.eqb c "*" || Ascii.eqb c "=".

(** The text [solve_general] evaluates for the values of a permutation,
    and what it announces when the text is found true. *)
Definition general_text (expression : string) (values : list nat) : string :=
  substitute_values (toUpperCase expression)
                    (make_mapping (make_letters (toUpperCase expression)) values).

Definition general_report (expression : string) (values : list nat) : general_event :=
  Good (make_mapping (make_letters (toUpperCase expression)) values)
       (general_text expression values).

(** The callback of [solve_general] on the outcome [P] of the evaluation:
    it goes on when the text is found false, and stops otherwise, with a
    report when the text is found true and with the exception when the
    evaluator throws. *)
Definition general_stops (P : list nat -> option bool) (values : list nat) : bool :=
  match P values with
  | Some false => false
  | _ => true
  end.

Definition general_event_of (P : list nat -> option bool)
           (rep : list nat -> general_event) (values : list nat) : general_event :=
  match P values with
  | Some true => rep values
  | _ => Threw
  end.

(** A callback that records the values and never stops. *)
Definition visit (values : list nat) : list (list nat) * bool := ([values], false).

(** The arrays [permutations] hands to a callback that never stops, in
    order, for [kk] letters. *)
Definition tried (kk : nat) : list (list nat) :=
  snd (fst (permutations visit [0; 1; 2; 3; 4; 5; 6; 7; 8; 9] 0 kk)).

(** The report for the first of the values that satisfies [P]. *)
Definition first_report {R} (P : list nat -> bool) (rep : list nat -> R)
           (values : list (list nat)) : list R :=
  match find P values with
  | Some v => [rep v]
  | None => []
  end.

Definition found (P : list nat -> bool) (values : list (list nat)) : bool :=
  match find P values with
  | Some _ => true
  | None => false
  end.

Definition send_more_money_call : call :=
  (classical, "9567+1085=10652",
   String.concat (String "010" EmptyString)
                 ["   9567"; " + 1085"; "-------"; "  10652"]).

(** The engine's reading used in the instances below: [NaN] for every
    string that is not all digits. *)
Definition no_other : string -> number := fun _ => NaN.

(** The powers of ten used in the instances below: the binary64 value
    nearest to the exact power. *)
Definition nearest_power : powers := fun len => of_integer (10 ^ Z.of_nat len).

(** The engine's powers of ten above [10 ^ 22] are at least [2 ^ 53]. *)
Definition large_powers (power : powers) : Prop :=
  forall len, 22 < len ->
    power len = Infinity false \/ exists z, power len = Finite z /\ (2 ^ 53 <= z)%Z.

(** The largest sum, or product, the operands can have: each is below
    [10 ^ maxlen]. *)
Definition largest (words : list string) (operation : string) : Z :=
  let operands := Z.of_nat (List.length words - 1) in
  let bound := (10 ^ Z.of_nat (maxlen words))%Z in
  if String.eqb operation "*" then (bound ^ operands)%Z else (operands * bound)%Z.

(** The numbers of the puzzle are in the range in which binary64
    arithmetic is exact. *)
Definition exact_range (words : list string) (operation : string) : Prop :=
  (largest words operation <= 2 ^ 53)%Z.

Definition ten_words : list string :=
  ["A"; "B"; "C"; "D"; "E"; "F"; "G"; "H"; "I"; "J"].



(** ** Vocabulary of the further properties *)

(** A product beyond the exact range with a solution:
    111111111 * 111111111 = 12345678987654321. *)
Definition ones_squared : list string :=
  ["AAAAAAAAA"; "AAAAAAAAA"; "ABCDEFGHIHGFEDCBA"].

Definition one_to_nine : mapping :=
  [("A"%char, 1); ("B"%char, 2); ("C"%char, 3); ("D"%char, 4); ("E"%char, 5);
   ("F"%char, 6); ("G"%char, 7); ("H"%char, 8); ("I"%char, 9)].

(** What a mapping writes for one character: the numeral of its digit when
    the character is a key, the character itself when it is not. *)
Definition render (m : mapping) (c : ascii) : string :=
  match get Ascii.eqb c m with
  | Some value => to_string value
  | None => String c EmptyString
  end.

(** A string with each of its characters replaced by a string. *)
Fixpoint expand (f : ascii -> string) (s : string) : string :=
  match s with
  | EmptyString => EmptyString
  | String c rest => (f c ++ expand f rest)%string
  end.

(** The last binding of a value in a mapping. *)
Definition last_binding (value : nat) (m : mapping) : option ascii :=
  option_map fst (find (fun kv => snd kv =? value) (rev m)).

(** Every binding of [m] is the one [s] has for the letter. *)
Definition within (s m : mapping) : Prop :=
  forall c v, In (c, v) m -> get Ascii.eqb c s = Some v.

(** A computation that returns, and one of whose invocations satisfies [P]. *)
Definition finds {A} (P : call -> Prop) (c : comp A) : Prop :=
  exists cs v call, c = Some (cs, Return v) /\ In call cs /\ P call.

(** A solution of the puzzle: letters bound to digits, distinct letters to
    distinct digits, no leading 0, every letter of the words bound, and the
    equation exact. *)
Definition solution (words : list string) (operation : string) (s : mapping) : Prop :=
  letter_keys s
  /\ well_formed words s
  /\ total_on words s
  /\ equation_holds words operation s.

(** The letters of the words. *)
Definition letter_of (words : list string) (c : ascii) : Prop :=
  exists word, In word words /\ In c (chars_of word).


(** The arguments [do_layer] gives to the callback with a mapping. *)
Definition call_of (words : list string) (operation : string) (m : mapping) : call :=
  (m, substitute (flat_expression words operation) m,
   pretty_expression words operation m).

(** The letters of the words cut to their last [check_len] characters are
    letters of the columns 1 to [len]. *)
Definition window_within (words : list string) (check_len len : nat) : Prop :=
  forall word c,
    In word words ->
    In c (chars_of (substring_from (String.length word - check_len) word)) ->
    exists k, 1 <= k <= len /\ In c (column words k).

(** The order of the search: two mappings start with the same bindings
    and then bind the same letter, the first to the smaller digit. *)
Definition before (m1 m2 : mapping) : Prop :=
  exists m0 c v1 v2,
    v1 < v2 /\ extends (m0 ++ [(c, v1)]) m1 /\ extends (m0 ++ [(c, v2)]) m2.

(** The invocations a computation makes are in the order of the search,
    each on an extension of [m]. *)
Definition ordered_calls {A} (m : mapping) (c : comp A) : Prop :=
  forall cs r, c = Some (cs, r) ->
               ForallOrdPairs before (map call_mapping cs)
               /\ Forall (fun call => extends m (call_mapping call)) cs.

(** The arrays [permutations] hands, in order, to a callback that never
    stops. *)
Definition visited_from (remaining : nat) (array : list nat) (ii kk : nat)
  : list (list nat) :=
  snd (fst (permutations_from visit remaining array ii kk)).

Definition visited (array : list nat) (ii kk : nat) : list (list nat) :=
  visited_from (List.length array - ii) array ii kk.

(** A callback applied to arrays in turn until it asks to stop: what it
    logged, and whether it asked to stop. *)
Fixpoint until_stop {R} (func : list nat -> list R * bool) (arrays : list (list nat))
  : list R * bool :=
  match arrays with
  | [] => ([], false)
  | array :: rest =>
      let '(log, stop) := func array in
      if stop then (log, true)
      else let '(log', stop') := until_stop func rest in (log ++ log', stop')
  end.

(** The number of ways to fill [places] places in order with different
    entries out of [remaining]; all the entries are placed when there are
    fewer than [places]. *)
Fixpoint arrangements (remaining places : nat) : nat :=
  match remaining, places with
  | 0, _ => 1
  | _, 0 => 1
  | S remaining', S places' => S remaining' * arrangements remaining' places'
  end.

Definition digits : list nat := [0; 1; 2; 3; 4; 5; 6; 7; 8; 9].

(** The last line the page displays after a search that found [n]
    solutions. *)
Definition page_summary (n : nat) : string :=
  if n =? 0 then "No results." else (to_string n ++ " results.")%string.

(** * Properties *)

Section Properties.

(** The engine's reading of the strings that are not all digits and its
    powers of ten above [10 ^ 22]: any. *)
Variable other : string -> number.
Variable power : powers.

(** ** Strings and substitution *)

Lemma split_not_nil (sep : ascii) (s : string) : split sep s <> [].
Proof.
  destruct s as [|c rest]; simpl; [discriminate|].
  destruct (Ascii.eqb c sep); [discriminate|].
  destruct (split sep rest); discriminate.
Qed.

Lemma replace_all_char (s : string) (old : ascii) (new : string) :
  replace_all s old new = replace_char old new s.
Proof.
  unfold replace_all.
  induction s as [|c rest IH]; simpl; [reflexivity|].
  pose proof (split_not_nil old rest) as Hne.
  destruct (Ascii.eqb c old).
  - destruct (split old rest) as [|p ps] eqn:E; [congruence|].
    rewrite <- IH. reflexivity.
  - destruct (split old rest) as [|p ps] eqn:E; [congruence|].
    rewrite <- IH. destruct ps; reflexivity.
Qed.

Lemma chars_of_app (a b : string) :
  chars_of (a ++ b)%string = chars_of a ++ chars_of b.
Proof.
  induction a as [|c a IH]; simpl; [reflexivity|].
  unfold chars_of in *. simpl. now rewrite IH.
Qed.

Lemma replace_char_absent (old : ascii) (new s : string) :
  ~ In old (chars_of s) -> replace_char old new s = s.
Proof.
  induction s as [|c rest IH]; simpl; intros Hn; [reflexivity|].
  destruct (Ascii.eqb_spec c old) as [->|Hne].
  - exfalso. apply Hn. now left.
  - rewrite IH; [reflexivity|]. intros Hin. apply Hn. now right.
Qed.

Lemma replace_char_chars (old : ascii) (new s : string) (x : ascii) :
  In x (chars_of (replace_char old new s)) ->
  (In x (chars_of s) /\ x <> old) \/ In x (chars_of new).
Proof.
  induction s as [|c rest IH]; simpl; intros Hin; [contradiction|].
  destruct (Ascii.eqb_spec c old) as [->|Hne].
  - rewrite chars_of_app in Hin. apply in_app_or in Hin.
    destruct Hin as [Hin|Hin]; [now right|].
    destruct (IH Hin) as [[H1 H2]|H]; [left; split; [now right|assumption]|now right].
  - destruct Hin as [->|Hin].
    + left. split; [now left|assumption].
    + destruct (IH Hin) as [[H1 H2]|H]; [left; split; [now right|assumption]|now right].
Qed.

Lemma string_of_uint_digits (d : Decimal.uint) :
  Forall (fun c => is_digit c = true) (chars_of (NilEmpty.string_of_uint d)).
Proof.
  induction d; simpl; constructor; auto.
Qed.

Lemma to_string_digits (value : nat) :
  Forall (fun c => is_digit c = true) (chars_of (to_string value)).
Proof. apply string_of_uint_digits. Qed.

Lemma letter_not_digit (c : ascii) : is_letter c = true -> is_digit c = false.
Proof.
  destruct c as [[] [] [] [] [] [] [] []]; vm_compute; intros; congruence.
Qed.

Lemma substitute_cons (s : string) (kv : ascii * nat) (m : mapping) :
  substitute s (kv :: m)
  = substitute (replace_char (fst kv) (to_string (snd kv)) s) m.
Proof. unfold substitute. simpl. now rewrite replace_all_char. Qed.

(** A letter that is a key of the mapping, or that the string does not
    hold, is absent from the substituted string. *)
Lemma substitute_removes (m : mapping) (s : string) (c : ascii) :
  is_digit c = false ->
  In c (keys m) \/ ~ In c (chars_of s) ->
  ~ In c (chars_of (substitute s m)).
Proof.
  intros Hc. revert s.
  induction m as [|[k v] m IH]; intros s Hor.
  - destruct Hor as [[]|H]. exact H.
  - rewrite substitute_cons. simpl fst; simpl snd.
    apply IH.
    assert (Hdig : ~ In c (chars_of (to_string v))).
    { intros Hin. pose proof (to_string_digits v) as F.
      rewrite Forall_forall in F. apply F in Hin. congruence. }
    destruct (ascii_dec k c) as [->|Hne].
    + right. intros Hin. apply replace_char_chars in Hin.
      destruct Hin as [[_ Hn]|Hin]; [now apply Hn|now apply Hdig].
    + destruct Hor as [[Hk|Hin]|Hn]; [contradiction|now left|].
      right. intros Hin. apply replace_char_chars in Hin.
      destruct Hin as [[Hin _]|Hin]; [now apply Hn|now apply Hdig].
Qed.

Lemma substitute_absent (m : mapping) (s : string) :
  (forall k, In k (keys m) -> ~ In k (chars_of s)) -> substitute s m = s.
Proof.
  induction m as [|[k v] m IH]; intros Hk; [reflexivity|].
  rewrite substitute_cons. simpl fst; simpl snd.
  rewrite replace_char_absent by (apply Hk; now left).
  apply IH. intros k' Hin. apply Hk. now right.
Qed.

(** C9: substituting twice with a mapping from letters to digits gives what
    substituting once gives, and a string that holds none of the mapping's
    letters is returned as it is. *)
Theorem substitute_idempotent (s : string) (m : mapping) :
  letter_keys m ->
  substitute (substitute s m) m = substitute s m
  /\ ((forall k, In k (keys m) -> ~ In k (chars_of s)) -> substitute s m = s).
Proof.
  intros Hm. split; [|apply substitute_absent].
  apply substitute_absent. intros k Hk.
  apply substitute_removes; [|now left].
  apply letter_not_digit.
  unfold keys in Hk. apply in_map_iff in Hk. destruct Hk as [kv [<- Hin]].
  unfold letter_keys in Hm. rewrite Forall_forall in Hm. now apply Hm.
Qed.

(** ** Validation of the word list *)

Lemma is_invalid_char_letter (c : ascii) : is_invalid_char c = negb (is_letter c).
Proof. destruct c as [[] [] [] [] [] [] [] []]; reflexivity. Qed.

Lemma char_toUpperCase_idem (c : ascii) :
  char_toUpperCase (char_toUpperCase c) = char_toUpperCase c.
Proof. destruct c as [[] [] [] [] [] [] [] []]; reflexivity. Qed.

Lemma toUpperCase_idem (s : string) : toUpperCase (toUpperCase s) = toUpperCase s.
Proof.
  induction s as [|c s IH]; simpl; [reflexivity|].
  now rewrite char_toUpperCase_idem, IH.
Qed.

Lemma toUpperCase_length (s : string) : String.length (toUpperCase s) = String.length s.
Proof. induction s; simpl; auto. Qed.

Lemma map_toUpperCase_idem (ws : list string) :
  map toUpperCase (map toUpperCase ws) = map toUpperCase ws.
Proof.
  rewrite map_map. apply map_ext. intros; apply toUpperCase_idem.
Qed.

Lemma last_map_toUpperCase (ws : list string) :
  last (map toUpperCase ws) EmptyString = toUpperCase (last ws EmptyString).
Proof.
  induction ws as [|w ws IH]; [reflexivity|].
  destruct ws; [reflexivity|]. exact IH.
Qed.

Lemma has_key_set_same (m : hash ascii nat) (c : ascii) (v : nat) :
  has_key Ascii.eqb c (set Ascii.eqb m c v) = true.
Proof.
  induction m as [|[k x] m IH]; simpl.
  - now rewrite Ascii.eqb_refl.
  - destruct (Ascii.eqb k c) eqn:E; simpl; rewrite E; simpl; auto.
Qed.

Lemma has_key_set_other (m : hash ascii nat) (c d : ascii) (v : nat) :
  has_key Ascii.eqb d m = true -> has_key Ascii.eqb d (set Ascii.eqb m c v) = true.
Proof.
  induction m as [|[k x] m IH]; simpl; [discriminate|].
  intros H. destruct (Ascii.eqb k c) eqn:E; simpl;
    destruct (Ascii.eqb k d); simpl in *; auto.
Qed.

Lemma has_key_keys {V : Type} (m : hash ascii V) (c : ascii) :
  has_key Ascii.eqb c m = true <-> In c (keys m).
Proof.
  unfold has_key, keys. rewrite existsb_exists, in_map_iff.
  split; intros [kv [H1 H2]].
  - exists kv. apply Ascii.eqb_eq in H2. auto.
  - exists kv. split; [assumption|]. now apply Ascii.eqb_eq.
Qed.

(** Every character of the words is among the keys collected by the
    validator. *)
Lemma fold_set_keeps (l : list ascii) (h : hash ascii nat) (c : ascii) :
  has_key Ascii.eqb c h = true \/ In c l ->
  has_key Ascii.eqb c (fold_left (fun chars i => set Ascii.eqb chars i 1) l h) = true.
Proof.
  revert h. induction l as [|x l IH]; simpl; intros h H.
  - destruct H as [H|[]]. exact H.
  - apply IH. destruct H as [H|[->|H]].
    + left. now apply has_key_set_other.
    + left. apply has_key_set_same.
    + now right.
Qed.

Lemma distinct_chars_complete (words : list string) (c : ascii) :
  In c (chars_of (String.concat EmptyString words)) -> In c (distinct_chars words).
Proof.
  intros H. unfold distinct_chars. apply has_key_keys.
  apply fold_set_keeps. now right.
Qed.

Lemma chars_of_concat (words : list string) (w : string) (c : ascii) :
  In w words -> In c (chars_of w) -> In c (chars_of (String.concat EmptyString words)).
Proof.
  induction words as [|x words IH]; simpl; [contradiction|].
  intros [->|Hin] Hc.
  - destruct words; [assumption|].
    rewrite chars_of_app. apply in_or_app. now left.
  - destruct words as [|y words]; [contradiction|].
    rewrite chars_of_app. apply in_or_app. right.
    simpl. apply IH; assumption.
Qed.

(** C6: a word list with fewer than three words, an empty last word, a
    character that is not a letter after uppercasing, or more than ten
    distinct letters makes [solve_singleop] throw one of the validation
    errors; the callback is not invoked and nothing is returned. *)
Theorem invalid_puzzle_rejected
        (fuel : nat) (words : list string) (operation : string) (callback : sink) :
  List.length words < 3
  \/ last words EmptyString = EmptyString
  \/ (exists word char, In word words /\ In char (chars_of (toUpperCase word))
                        /\ is_letter char = false)
  \/ (exists letters, NoDup letters /\ 10 < List.length letters
                      /\ forall char, In char letters ->
                           exists word, In word words
                                        /\ In char (chars_of (toUpperCase word))) ->
  exists e, solve_singleop other power fuel words operation callback = Some ([], Throw e)
            /\ InvalidPuzzle e = true.
Proof.
  intros H. unfold solve_singleop.
  destruct (List.length words <? 3) eqn:E1; [eexists; split; reflexivity|].
  destruct (String.length (last words EmptyString) <? 1) eqn:E2;
    [eexists; split; reflexivity|].
  destruct (0 <? List.length (filter has_invalid_chars (map toUpperCase words))) eqn:E3;
    [eexists; split; reflexivity|].
  destruct (10 <? List.length (distinct_chars (map toUpperCase words))) eqn:E4;
    [eexists; split; reflexivity|].
  exfalso.
  apply Nat.ltb_ge in E1, E2, E3, E4.
  destruct H as [H|[H|[H|H]]].
  - lia.
  - rewrite H in E2. simpl in E2. lia.
  - destruct H as [word [char [Hw [Hc Hl]]]].
    assert (Hin : In (toUpperCase word)
                     (filter has_invalid_chars (map toUpperCase words))).
    { apply filter_In. split; [now apply in_map|].
      unfold has_invalid_chars. apply Nat.ltb_lt.
      assert (Hf : In char (filter is_invalid_char (chars_of (toUpperCase word)))).
      { apply filter_In. split; [assumption|].
        now rewrite is_invalid_char_letter, Hl. }
      destruct (filter is_invalid_char (chars_of (toUpperCase word)));
        [contradiction|simpl; lia]. }
    destruct (filter has_invalid_chars (map toUpperCase words));
      [contradiction|simpl in E3; lia].
  - destruct H as [letters [Hnd [Hlen Hall]]].
    assert (Hincl : incl letters (distinct_chars (map toUpperCase words))).
    { intros c Hc. destruct (Hall c Hc) as [word [Hw Hcw]].
      apply distinct_chars_complete.
      apply chars_of_concat with (w := toUpperCase word); [now apply in_map|assumption]. }
    pose proof (NoDup_incl_length Hnd Hincl). lia.
Qed.

(** ** Case of the words *)

(** C10, as the code has it: the words are uppercased after the two length
    tests.  With three words or more, a list of words and its uppercased
    copy run the same way to the same outcome; with fewer, both stop at the
    first test, each with an error that lists the words as they were
    given. *)
Theorem case_insensitive
        (fuel : nat) (words : list string) (operation : string) (callback : sink) :
  (3 <= List.length words
   /\ solve_singleop other power fuel words operation callback
      = solve_singleop other power fuel (map toUpperCase words) operation callback)
  \/ (List.length words < 3
      /\ solve_singleop other power fuel words operation callback
         = throw (NotEnoughWords words)
      /\ solve_singleop other power fuel (map toUpperCase words) operation callback
         = throw (NotEnoughWords (map toUpperCase words))).
Proof.
  unfold solve_singleop.
  rewrite map_toUpperCase_idem, !length_map, last_map_toUpperCase, toUpperCase_length.
  destruct (Nat.ltb_spec (List.length words) 3) as [H|H].
  - right. split; [assumption|]. split; reflexivity.
  - left. split; [assumption|reflexivity].
Qed.

(** ** Candidate digits *)

Lemma has_key_nat_set (h : hash nat ascii) (k k' : nat) (c : ascii) :
  has_key Nat.eqb k' (set Nat.eqb h k c) = has_key Nat.eqb k' h || (k =? k').
Proof.
  induction h as [|[x y] h IH]; simpl.
  - now rewrite orb_false_r.
  - destruct (x =? k) eqn:E; simpl.
    + apply Nat.eqb_eq in E. subst x.
      destruct (k =? k'); simpl; [reflexivity|now rewrite orb_false_r].
    + rewrite IH. now rewrite orb_assoc.
Qed.

Lemma rev_hash_has_key_gen (m : mapping) (h : hash nat ascii) (v : nat) :
  has_key Nat.eqb v
    (fold_left (fun reverse kv => set Nat.eqb reverse (snd kv) (fst kv)) m h) = true
  <-> has_key Nat.eqb v h = true \/ In v (map snd m).
Proof.
  revert h. induction m as [|[k x] m IH]; intros h; simpl.
  - tauto.
  - rewrite IH, has_key_nat_set, orb_true_iff, Nat.eqb_eq. tauto.
Qed.

(** [elt in rev_mappings] says that some letter already has the digit. *)
Lemma rev_hash_has_key (m : mapping) (v : nat) :
  has_key Nat.eqb v (rev_hash m) = true <-> In v (map snd m).
Proof.
  unfold rev_hash. rewrite rev_hash_has_key_gen. simpl.
  split; [intros [H|H]; [discriminate|assumption]|now right].
Qed.

Lemma get_possible_values_spec (char : ascii) (words : list string) (m : mapping)
      (v : nat) :
  In v (get_possible_values char words m) <->
  v <= 9 /\ ~ In v (map snd m) /\ (any words (first_is char) = true -> v <> 0).
Proof.
  unfold get_possible_values.
  rewrite filter_In, negb_true_iff, <- not_true_iff_false, rev_hash_has_key.
  destruct (any words (first_is char)).
  - rewrite filter_In, negb_true_iff, Nat.eqb_neq. simpl.
    split.
    + intros [[H1 H2] H3]. repeat split; auto. lia.
    + intros [H1 [H2 H3]]. specialize (H3 eq_refl). repeat split; auto. lia.
  - simpl. split.
    + intros [H1 H2]. repeat split; auto; [lia|discriminate].
    + intros [H1 [H2 _]]. split; auto. lia.
Qed.

(** [delete(mappings[char])] undoes [mappings[char] = value] for a letter
    that was not bound. *)
Lemma delete_set_fresh (m : mapping) (c : ascii) (v : nat) :
  has_key Ascii.eqb c m = false -> delete Ascii.eqb (set Ascii.eqb m c v) c = m.
Proof.
  unfold delete. induction m as [|[k x] m IH]; simpl.
  - now rewrite Ascii.eqb_refl.
  - intros H. apply orb_false_iff in H. destruct H as [H1 H2].
    rewrite H1. simpl. rewrite H1. simpl. now rewrite IH.
Qed.

Lemma has_key_false_keys {V : Type} (m : hash ascii V) (c : ascii) :
  has_key Ascii.eqb c m = false <-> ~ In c (keys m).
Proof. rewrite <- has_key_keys. now rewrite not_true_iff_false. Qed.

(** Binding a letter that is not a key appends the binding. *)
Lemma set_fresh {V : Type} (m : hash ascii V) (c : ascii) (v : V) :
  has_key Ascii.eqb c m = false -> set Ascii.eqb m c v = m ++ [(c, v)].
Proof.
  induction m as [|[k x] m IH]; simpl; [reflexivity|].
  intros H. apply orb_false_iff in H. destruct H as [H1 H2].
  rewrite H1. now rewrite IH.
Qed.

Lemma well_formed_nil (words : list string) : well_formed words [].
Proof. split; simpl; constructor. Qed.

Lemma NoDup_snoc {A} (l : list A) (x : A) : NoDup l -> ~ In x l -> NoDup (l ++ [x]).
Proof.
  intros Hnd Hx. apply NoDup_app; [assumption|repeat constructor; auto|].
  intros a Ha [<-|[]]. auto.
Qed.

Lemma well_formed_set (words : list string) (m : mapping) (c : ascii) (v : nat) :
  well_formed words m ->
  has_key Ascii.eqb c m = false ->
  In v (get_possible_values c words m) ->
  well_formed words (set Ascii.eqb m c v).
Proof.
  intros [H1 H2 H3 H4] Hc Hv.
  rewrite set_fresh by assumption.
  apply get_possible_values_spec in Hv. destruct Hv as [Hr [Hn Hz]].
  apply has_key_false_keys in Hc.
  split.
  - unfold keys in *. rewrite map_app. simpl. now apply NoDup_snoc.
  - rewrite map_app. simpl. now apply NoDup_snoc.
  - apply Forall_app. split; [assumption|]. constructor; [exact Hr|constructor].
  - apply Forall_app. split; [assumption|]. constructor; [exact Hz|constructor].
Qed.

(** ** Computations and the callback invocations they make *)

Lemma bind_inv {A B} (c : comp A) (f : A -> comp B) (cs : list call) (r : outcome B) :
  bind c f = Some (cs, r) ->
  (exists e, c = Some (cs, Throw e) /\ r = Throw e)
  \/ (exists a cs1 cs2, c = Some (cs1, Return a) /\ f a = Some (cs2, r)
                        /\ cs = cs1 ++ cs2).
Proof.
  unfold bind. destruct c as [[cs1 [a|e]]|]; [| |discriminate].
  - destruct (f a) as [[cs2 r2]|] eqn:E; [|discriminate].
    intros H. injection H as <- <-. right. exists a, cs1, cs2. auto.
  - intros H. injection H as <- <-. left. exists e. auto.
Qed.

Lemma calls_bind {A B} (Q : call -> Prop) (c : comp A) (f : A -> comp B) :
  calls_satisfy Q c ->
  (forall a cs, c = Some (cs, Return a) -> calls_satisfy Q (f a)) ->
  calls_satisfy Q (bind c f).
Proof.
  intros Hc Hf cs r H. apply bind_inv in H.
  destruct H as [[e [H1 H2]]|[a [cs1 [cs2 [H1 [H2 ->]]]]]].
  - eapply Hc; eauto.
  - apply Forall_app. split; [eapply Hc; eauto|eapply Hf; eauto].
Qed.

Lemma calls_ret {A} (Q : call -> Prop) (a : A) : calls_satisfy Q (ret a).
Proof. intros cs r H. injection H as <- <-. constructor. Qed.

Lemma calls_lift {A} (Q : call -> Prop) (o : outcome A) : calls_satisfy Q (lift o).
Proof. intros cs r H. injection H as <- <-. constructor. Qed.

Lemma lift_inv {A} (o : outcome A) (cs : list call) (a : A) :
  lift o = Some (cs, Return a) -> o = Return a.
Proof. intros H. now injection H as <- <-. Qed.

Lemma calls_forEach {A S} (Q : call -> Prop) (array : list A)
      (body : S -> A -> comp S) :
  (forall s x, In x array -> calls_satisfy Q (body s x)) ->
  forall s, calls_satisfy Q (forEach array body s).
Proof.
  induction array as [|x array IH]; intros Hb s; simpl.
  - apply calls_ret.
  - apply calls_bind; [apply Hb; now left|].
    intros s' cs _. apply IH. intros s'' y Hy. apply Hb. now right.
Qed.

(** ** One column *)

Lemma default_operation_idem (operation : string) :
  default_operation (default_operation operation) = default_operation operation.
Proof.
  unfold default_operation. destruct (String.eqb operation EmptyString) eqn:E; [reflexivity|].
  now rewrite E.
Qed.

Lemma default_check_len_idem (check_len len : nat) :
  default_check_len (default_check_len check_len len) len = default_check_len check_len len.
Proof.
  unfold default_check_len. destruct (check_len =? 0) eqn:E; [|now rewrite E].
  destruct (len =? 0); reflexivity.
Qed.

Lemma do_layer_eq (fuel : nat) (words : list string) (operation : string) (len : nat)
      (m : mapping) (callback : mapping -> string -> string -> comp jsval)
      (check_len : nat) :
  do_layer other power (S fuel) words operation len m callback check_len =
  match (if len =? 0 then None else missing_letter words len m) with
  | Some char =>
      bind (forEach (get_possible_values char words m)
              (fun num_hits value =>
                 bind (do_layer other power fuel words (default_operation operation) len
                         (set Ascii.eqb m char value) callback
                         (default_check_len check_len len))
                      (fun hits => ret (add num_hits (ToNumber hits))))
              (Finite 0%Z))
           (fun num_hits => ret (JNumber num_hits))
  | None =>
      bind (lift (check_equal other power words (default_operation operation)
                    (default_check_len check_len len) m))
           (fun equal =>
              if equal then
                bind (callback m
                        (substitute (flat_expression words (default_operation operation)) m)
                        (pretty_expression words (default_operation operation) m))
                     (fun result =>
                        ret (if isNaN result then JNumber (Finite 1%Z) else result))
              else ret (JNumber (Finite 0%Z)))
  end.
Proof. reflexivity. Qed.

Lemma column_cons (word : string) (words : list string) (len : nat) :
  column (word :: words) len
  = (if len <=? String.length word
     then match String.get (String.length word - len) word with
          | Some char => [char]
          | None => []
          end
     else []) ++ column words len.
Proof. reflexivity. Qed.

Lemma missing_letter_some (words : list string) (len : nat) (m : mapping) (c : ascii) :
  missing_letter words len m = Some c ->
  has_key Ascii.eqb c m = false /\ In c (column words len).
Proof.
  induction words as [|word words IH]; cbn [missing_letter]; [discriminate|].
  rewrite column_cons, in_app_iff.
  destruct (String.get (String.length word - len) word) as [char|] eqn:G.
  - destruct (len <=? String.length word) eqn:L; cbn [andb].
    + destruct (has_key Ascii.eqb char m) eqn:K; cbn [negb].
      * intros H. destruct (IH H). auto.
      * intros H. injection H as <-. split; [assumption|]. left. now left.
    + intros H. destruct (IH H). auto.
  - intros H. destruct (IH H). auto.
Qed.

Lemma missing_letter_none (words : list string) (len : nat) (m : mapping) (c : ascii) :
  missing_letter words len m = None ->
  In c (column words len) -> has_key Ascii.eqb c m = true.
Proof.
  induction words as [|word words IH]; cbn [missing_letter]; [contradiction|].
  rewrite column_cons, in_app_iff.
  destruct (String.get (String.length word - len) word) as [char|] eqn:G.
  - destruct (len <=? String.length word) eqn:L; cbn [andb].
    + destruct (has_key Ascii.eqb char m) eqn:K; cbn [negb]; [|discriminate].
      intros H [[<-|[]]|Hin]; auto.
    + intros H [[]|Hin]. auto.
  - intros H [Hin|Hin]; [|auto].
    destruct (len <=? String.length word); destruct Hin.
Qed.

Lemma solve_columns_eq (fuel : nat) (words : list string) (operation : string)
      (callback : mapping -> string -> string -> comp jsval) (len : nat)
      (m : mapping) (check_len : nat) :
  solve_columns other power fuel words operation callback len m check_len =
  if pending words len m then
    match len with
    | S len' =>
        solve_columns other power fuel words (default_operation operation)
          (fun submapping _ _ =>
             do_layer other power fuel words (default_operation operation) len submapping callback
                      (default_check_len check_len len))
          len' m len'
    | 0 => do_layer other power fuel words (default_operation operation) len m callback
                    (default_check_len check_len len)
    end
  else do_layer other power fuel words (default_operation operation) len m callback
                (default_check_len check_len len).
Proof. destruct len; reflexivity. Qed.

Lemma search_state_well_formed (words : list string) (m : mapping) :
  search_state words m -> well_formed words m.
Proof.
  induction 1 as [|m len char value Hs IH Hm Hv].
  - apply well_formed_nil.
  - apply well_formed_set; [assumption| |assumption].
    now apply missing_letter_some in Hm.
Qed.

(** ** Descending through the columns *)

Lemma maxlen_fold_ge (l : list nat) :
  forall a, a <= fold_left (fun a b => if b <? a then a else b) l a
            /\ forall x, In x l -> x <= fold_left (fun a b => if b <? a then a else b) l a.
Proof.
  induction l as [|y l IH]; intros a; simpl.
  - split; [lia|contradiction].
  - destruct (IH (if y <? a then a else y)) as [H1 H2].
    destruct (y <? a) eqn:E;
      [apply Nat.ltb_lt in E|apply Nat.ltb_ge in E];
      (split; [lia|intros x [<-|Hx]; [lia|auto]]).
Qed.

Lemma maxlen_ge (words : list string) (word : string) :
  In word words -> String.length word <= maxlen words.
Proof.
  intros H. unfold maxlen. apply maxlen_fold_ge. now apply in_map.
Qed.

Lemma maxlen_fold_attained (l : list nat) :
  forall a, fold_left (fun a b => if b <? a then a else b) l a = a
            \/ In (fold_left (fun a b => if b <? a then a else b) l a) l.
Proof.
  induction l as [|y l IH]; intros a; simpl; [now left|].
  destruct (IH (if y <? a then a else y)) as [H|H]; [|now right; right].
  rewrite H. destruct (y <? a); [now left|right; now left].
Qed.

Lemma maxlen_attained (words : list string) :
  maxlen words <> 0 -> exists word, In word words /\ String.length word = maxlen words.
Proof.
  unfold maxlen. intros H.
  destruct (maxlen_fold_attained (map String.length words) 0) as [E|E]; [congruence|].
  apply in_map_iff in E. destruct E as [w [E Hin]]. eauto.
Qed.

Lemma get_in_range (s : string) : forall n, n < String.length s -> exists c, String.get n s = Some c.
Proof.
  induction s as [|c s IH]; simpl; intros n H; [lia|].
  destruct n as [|n]; [eauto|]. apply IH. lia.
Qed.

Lemma column_In (words : list string) (word : string) (k : nat) (c : ascii) :
  In word words -> k <= String.length word ->
  String.get (String.length word - k) word = Some c ->
  In c (column words k).
Proof.
  intros Hin Hk Hg. unfold column. apply in_flat_map. exists word.
  split; [assumption|].
  destruct (Nat.leb_spec k (String.length word)); [|lia].
  rewrite Hg. now left.
Qed.

Lemma column_reached (words : list string) (word : string) (len : nat) :
  In word words -> 1 <= len <= String.length word ->
  exists c, In c (column words len).
Proof.
  intros Hin Hlen.
  destruct (@get_in_range word (String.length word - len)) as [c Hc]; [lia|].
  exists c. unfold column. apply in_flat_map. exists word. split; [assumption|].
  destruct (Nat.leb_spec len (String.length word)); [|lia].
  rewrite Hc. now left.
Qed.

Lemma missing_letter_start (words : list string) (word : string) (len : nat) :
  In word words -> 1 <= len <= String.length word ->
  exists c, missing_letter words len [] = Some c.
Proof.
  intros Hin Hlen.
  destruct (missing_letter words len []) as [c|] eqn:M; [eauto|exfalso].
  destruct (@column_reached words word len Hin Hlen) as [c Hc].
  pose proof (@missing_letter_none words len [] c M Hc). discriminate.
Qed.

Lemma pending_small (words : list string) (len : nat) (m : mapping) :
  len <= 1 -> pending words len m = false.
Proof.
  intros H. unfold pending. replace (len - 1) with 0 by lia. reflexivity.
Qed.

Lemma pending_start (words : list string) (len : nat) :
  2 <= len <= maxlen words -> pending words len [] = true.
Proof.
  intros H. destruct (@maxlen_attained words) as [w [Hin Hw]]; [lia|].
  unfold pending. apply existsb_exists. exists 1. split; [apply in_seq; lia|].
  apply existsb_exists. exists w. split; [assumption|].
  unfold pending_in. apply andb_true_intro. split; [apply Nat.ltb_lt; lia|].
  destruct (len + 1 <=? String.length w); [|reflexivity].
  destruct (String.get (String.length w - len - 1) w); reflexivity.
Qed.

(** From [len = maxlen] and the empty mapping, [solve_singleop] calls itself
    down to the units column, where [do_layer] starts. *)
Lemma solve_columns_descends (fuel : nat) (words : list string) :
  forall len operation callback check_len,
    1 <= len <= maxlen words ->
    exists callback' check_len',
      solve_columns other power fuel words operation callback len [] check_len
      = do_layer other power fuel words (default_operation operation) 1 [] callback' check_len'.
Proof.
  induction len as [|len IH]; intros operation callback check_len H; [lia|].
  rewrite solve_columns_eq.
  destruct len as [|len].
  - rewrite pending_small by lia. eauto.
  - rewrite pending_start by lia.
    destruct (IH (default_operation operation)
                 (fun submapping (_ _ : string) =>
                    do_layer other power fuel words (default_operation operation) (S (S len))
                             submapping callback
                             (default_check_len check_len (S (S len))))
                 (S len)) as [k [cl E]]; [lia|].
    rewrite default_operation_idem in E. eauto.
Qed.

Section Calls.
Variable words : list string.
Variable Q : call -> Prop.

(** [do_layer] hands to its callback only mappings the search built, that
    extend the one it was given, that bind the letters of the column and
    that pass the check of the column; so what holds of the callback's
    invocations on those holds of [do_layer]'s. *)
Lemma do_layer_calls (fuel : nat) :
  forall operation len m callback check_len,
    search_state words m ->
    (forall m' e p,
        search_state words m' ->
        (forall c, has_key Ascii.eqb c m = true -> has_key Ascii.eqb c m' = true) ->
        (len <> 0 -> missing_letter words len m' = None) ->
        check_equal other power words (default_operation operation)
                    (default_check_len check_len len) m' = Return true ->
        calls_satisfy Q (callback m' e p)) ->
    calls_satisfy Q (do_layer other power fuel words operation len m callback check_len).
Proof.
  induction fuel as [|fuel IH]; intros operation len m callback check_len Hwf Hcb.
  - intros cs r H. discriminate.
  - rewrite do_layer_eq.
    destruct (if len =? 0 then None else missing_letter words len m) as [char|] eqn:M.
    + assert (Hm : missing_letter words len m = Some char)
        by (destruct (len =? 0); [discriminate|assumption]).
      apply calls_bind; [|intros; apply calls_ret].
      apply calls_forEach. intros s v Hv.
      apply calls_bind; [|intros; apply calls_ret].
      apply IH.
      * now apply search_bind with (len := len).
      * rewrite default_operation_idem, default_check_len_idem.
        intros m' e p Hs Hext Hnone Hc. apply Hcb; auto.
        intros c Hk. apply Hext. now apply has_key_set_other.
    + apply calls_bind; [apply calls_lift|].
      intros [|] cs Hc; [|apply calls_ret].
      apply lift_inv in Hc.
      apply calls_bind; [|intros; apply calls_ret].
      apply Hcb; auto.
      intros Hlen. apply Nat.eqb_neq in Hlen. now rewrite Hlen in M.
Qed.

(** From the empty mapping and a column within the longest word, the
    callback of [solve_singleop] is invoked only on mappings that bind
    every letter of the columns up to [len]. *)
Lemma solve_columns_calls (fuel : nat) :
  forall len operation callback check_len,
    1 <= len <= maxlen words ->
    (forall m' e p,
        search_state words m' ->
        bound_upto words len m' ->
        check_equal other power words (default_operation operation)
                    (default_check_len check_len len) m' = Return true ->
        calls_satisfy Q (callback m' e p)) ->
    calls_satisfy Q (solve_columns other power fuel words operation callback len [] check_len).
Proof.
  induction len as [|len IH]; intros operation callback check_len Hlen Hcb; [lia|].
  rewrite solve_columns_eq.
  destruct len as [|len].
  - rewrite pending_small by lia.
    apply do_layer_calls; [constructor|].
    rewrite default_operation_idem, default_check_len_idem.
    intros m' e p Hs _ Hnone Hc. apply Hcb; auto.
    intros k c Hk Hin. replace k with 1 in Hin by lia.
    apply (@missing_letter_none words 1 m' c); auto.
  - rewrite pending_start by lia.
    apply IH; [lia|].
    intros m' e p Hs Hb _.
    apply do_layer_calls; [assumption|].
    rewrite default_operation_idem, default_check_len_idem.
    intros m'' e' p' Hs' Hext Hnone Hc. apply Hcb; auto.
    intros k c Hk Hin.
    destruct (Nat.eq_dec k (S (S len))) as [->|Hne].
    + apply (@missing_letter_none words (S (S len)) m'' c); auto.
    + apply Hext, (Hb k c); [lia|assumption].
Qed.

End Calls.

(** ** The whole search *)

Lemma solve_singleop_valid (fuel : nat) (words : list string) (operation : string)
      (callback : sink) :
  valid_puzzle words = true ->
  solve_singleop other power fuel words operation callback
  = solve_columns other power fuel (map toUpperCase words) operation (invoke callback)
      (maxlen (map toUpperCase words)) []
      (maxlen (map toUpperCase words) * List.length (map toUpperCase words)).
Proof.
  unfold valid_puzzle, solve_singleop. intros H.
  repeat (apply andb_prop in H; destruct H as [H ?]).
  repeat match goal with
         | H : negb ?b = true |- _ => apply negb_true_iff in H; rewrite H
         end.
  reflexivity.
Qed.

Lemma solve_singleop_invalid (fuel : nat) (words : list string) (operation : string)
      (callback : sink) :
  valid_puzzle words = false ->
  exists e, solve_singleop other power fuel words operation callback = throw e
            /\ InvalidPuzzle e = true.
Proof.
  unfold valid_puzzle, solve_singleop. intros H.
  destruct (List.length words <? 3); [eexists; split; reflexivity|].
  destruct (String.length (last words EmptyString) <? 1); [eexists; split; reflexivity|].
  destruct (0 <? List.length (filter has_invalid_chars (map toUpperCase words)));
    [eexists; split; reflexivity|].
  destruct (10 <? List.length (distinct_chars (map toUpperCase words)));
    [eexists; split; reflexivity|].
  discriminate.
Qed.

Lemma default_check_len_product (len n : nat) :
  3 <= n -> default_check_len (len * n) len = len * n.
Proof.
  unfold default_check_len. intros Hn.
  destruct (len * n =? 0) eqn:E; [|reflexivity].
  apply Nat.eqb_eq in E. nia.
Qed.

Lemma valid_puzzle_length (words : list string) :
  valid_puzzle words = true -> 3 <= List.length (map toUpperCase words).
Proof.
  unfold valid_puzzle. intros H.
  repeat (apply andb_prop in H; destruct H as [H ?]).
  apply negb_true_iff, Nat.ltb_ge in H. now rewrite length_map.
Qed.

Lemma valid_puzzle_letters (words : list string) :
  valid_puzzle words = true ->
  forall word char, In word (map toUpperCase words) -> In char (chars_of word) ->
                    is_letter char = true.
Proof.
  unfold valid_puzzle. intros H word char Hw Hc.
  repeat (apply andb_prop in H; destruct H as [H ?]).
  match goal with
  | H : negb (0 <? List.length (filter has_invalid_chars _)) = true |- _ =>
      apply negb_true_iff, Nat.ltb_ge in H; rename H into Hf
  end.
  destruct (has_invalid_chars word) eqn:E.
  - assert (Hin : In word (filter has_invalid_chars (map toUpperCase words)))
      by (apply filter_In; auto).
    destruct (filter has_invalid_chars (map toUpperCase words));
      [contradiction|simpl in Hf; lia].
  - unfold has_invalid_chars in E. apply Nat.ltb_ge in E.
    destruct (is_letter char) eqn:L; [reflexivity|exfalso].
    assert (Hin : In char (filter is_invalid_char (chars_of word))).
    { apply filter_In. split; [assumption|]. now rewrite is_invalid_char_letter, L. }
    destruct (filter is_invalid_char (chars_of word));
      [contradiction|simpl in E; lia].
Qed.

Lemma valid_puzzle_not_nil (words : list string) :
  valid_puzzle words = true -> map toUpperCase words <> [].
Proof.
  intros H. apply valid_puzzle_length in H.
  destruct (map toUpperCase words); simpl in H; [lia|discriminate].
Qed.

Lemma valid_puzzle_maxlen (words : list string) :
  valid_puzzle words = true -> 1 <= maxlen (map toUpperCase words).
Proof.
  intros H. pose proof (@valid_puzzle_not_nil words H) as Hne. unfold valid_puzzle in H.
  repeat (apply andb_prop in H; destruct H as [H ?]).
  match goal with
  | H : negb (String.length _ <? 1) = true |- _ =>
      apply negb_true_iff, Nat.ltb_ge in H; rename H into Hl
  end.
  rewrite <- toUpperCase_length, <- last_map_toUpperCase in Hl.
  assert (Hin : In (last (map toUpperCase words) EmptyString) (map toUpperCase words)).
  { destruct (@exists_last _ (map toUpperCase words) Hne) as [l [x E]].
    rewrite E, last_last. apply in_or_app. right. now left. }
  pose proof (maxlen_ge _ _ Hin). lia.
Qed.

Lemma solve_singleop_accepts (fuel : nat) (words : list string) (operation : string)
      (callback : sink) (cs : list call) (r : outcome jsval) :
  solve_singleop other power fuel words operation callback = Some (cs, r) ->
  Forall (accepted other power (map toUpperCase words) operation) cs
  /\ (cs <> [] -> valid_puzzle words = true).
Proof.
  intros H. destruct (valid_puzzle words) eqn:V.
  - split; [|reflexivity].
    rewrite solve_singleop_valid in H by assumption.
    revert cs r H. apply solve_columns_calls.
    + pose proof (@valid_puzzle_maxlen words V). lia.
    + rewrite default_check_len_product by now apply valid_puzzle_length.
      intros m' e p Hs Hb Hc cs r H. injection H as <- <-.
      constructor; [|constructor]. repeat split; assumption.
  - destruct (solve_singleop_invalid fuel words operation callback V) as [e [He _]].
    rewrite He in H. injection H as <- <-. split; [constructor|congruence].
Qed.

(** ** Distinct digits *)

Lemma get_In (m : mapping) (c : ascii) (d : nat) : get Ascii.eqb c m = Some d -> In (c, d) m.
Proof.
  induction m as [|[k v] m IH]; simpl; [discriminate|].
  destruct (Ascii.eqb_spec k c) as [->|Hne].
  - intros H. injection H as ->. now left.
  - intros H. right. auto.
Qed.

Lemma NoDup_snd_injective (m : mapping) (c1 c2 : ascii) (d : nat) :
  NoDup (map snd m) -> In (c1, d) m -> In (c2, d) m -> c1 = c2.
Proof.
  induction m as [|[k v] m IH]; simpl; [contradiction|].
  intros Hnd H1 H2. inversion Hnd as [|x l Hx Hl]; subst.
  destruct H1 as [H1|H1], H2 as [H2|H2].
  - congruence.
  - injection H1 as -> ->. exfalso. apply Hx.
    change d with (snd (c2, d)). now apply in_map.
  - injection H2 as -> ->. exfalso. apply Hx.
    change d with (snd (c1, d)). now apply in_map.
  - auto.
Qed.

Lemma well_formed_injective (words : list string) (m : mapping) :
  well_formed words m -> injective m.
Proof.
  intros [_ Hd _ _]. split; [assumption|].
  intros c1 c2 d H1 H2. apply get_In in H1, H2.
  eapply NoDup_snd_injective; eauto.
Qed.

(** What holds of the mappings handed to the callback: distinct digits. *)
Lemma calls_injective
        (fuel : nat) (words : list string) (operation : string) (callback : sink)
        (cs : list call) (r : outcome jsval) :
  solve_singleop other power fuel words operation callback = Some (cs, r) ->
  (forall c, In c cs ->
             search_state (map toUpperCase words) (call_mapping c)
             /\ injective (call_mapping c))
  /\ (forall m, search_state (map toUpperCase words) m -> injective m).
Proof.
  intros H. apply solve_singleop_accepts in H. destruct H as [H _].
  rewrite Forall_forall in H.
  assert (G : forall m, search_state (map toUpperCase words) m -> injective m).
  { intros m Hs. eapply well_formed_injective, search_state_well_formed, Hs. }
  split; [|exact G].
  intros c Hc. destruct (H c Hc) as [Hs _]. split; [assumption|now apply G].
Qed.

(** ** Rounding *)

(** Below [2 ^ 53] nothing is rounded. *)
Lemma round_nearest_even_small (z : Z) :
  (0 <= z < 2 ^ 53)%Z -> round_nearest_even z = z.
Proof.
  intros H. unfold round_nearest_even.
  assert (L : (Z.log2 z < 53)%Z).
  { destruct (Z.eq_dec z 0) as [->|N]; [reflexivity|].
    apply Z.log2_lt_pow2; lia. }
  replace (Z.log2 z - 52 <=? 0)%Z with true; [reflexivity|].
  symmetry. apply Z.leb_le. lia.
Qed.

Lemma pow2_53_1024 : (2 ^ 53 < 2 ^ 1024)%Z.
Proof. apply Z.pow_lt_mono_r; lia. Qed.

Lemma of_integer_exact (z : Z) : (Z.abs z < 2 ^ 53)%Z -> of_integer z = Finite z.
Proof.
  intros H. unfold of_integer.
  rewrite round_nearest_even_small by lia.
  pose proof pow2_53_1024 as P.
  replace (2 ^ 1024 <=? Z.abs z)%Z with false by (symmetry; apply Z.leb_gt; lia).
  f_equal. rewrite Z.mul_comm. apply Z.abs_sgn.
Qed.

Lemma add_exact (x y : Z) :
  (Z.abs (x + y) < 2 ^ 53)%Z -> add (Finite x) (Finite y) = Finite (x + y).
Proof. apply of_integer_exact. Qed.

Lemma add_zero : add (Finite 0%Z) (Finite 0%Z) = Finite 0%Z.
Proof. reflexivity. Qed.

Lemma mul_exact (x y : Z) :
  (Z.abs (x * y) < 2 ^ 53)%Z -> mul (Finite x) (Finite y) = Finite (x * y).
Proof. apply of_integer_exact. Qed.

(** Rounding does not take a number below [2 ^ 53]. *)
Lemma round_nearest_even_large (z : Z) :
  (2 ^ 53 <= z)%Z -> (2 ^ 53 <= round_nearest_even z)%Z.
Proof.
  intros H. unfold round_nearest_even.
  assert (L : (53 <= Z.log2 z)%Z).
  { change 53%Z with (Z.log2 (2 ^ 53)). now apply Z.log2_le_mono. }
  destruct (Z.leb_spec (Z.log2 z - 52) 0) as [E|E]; [lia|].
  set (excess := (Z.log2 z - 52)%Z) in *.
  assert (P : (0 < 2 ^ excess)%Z) by (apply Z.pow_pos_nonneg; lia).
  assert (Q : (2 ^ 52 <= z / 2 ^ excess)%Z).
  { apply Z.div_le_lower_bound; [assumption|].
    rewrite Z.mul_comm, <- Z.pow_add_r by lia.
    replace (52 + excess)%Z with (Z.log2 z) by (unfold excess; lia).
    apply Z.log2_spec. lia. }
  assert (R : (2 ^ 53 <= 2 ^ 52 * 2 ^ excess)%Z).
  { rewrite <- Z.pow_add_r by lia. apply Z.pow_le_mono_r; lia. }
  destruct ((2 ^ (excess - 1) <? z mod 2 ^ excess)%Z
            || ((z mod 2 ^ excess =? 2 ^ (excess - 1))%Z && Z.odd (z / 2 ^ excess))); nia.
Qed.

Lemma of_integer_large (z : Z) :
  (2 ^ 53 <= z)%Z ->
  of_integer z = Infinity false
  \/ exists r, of_integer z = Finite r /\ (2 ^ 53 <= r)%Z.
Proof.
  intros H. unfold of_integer.
  assert (P : (0 < 2 ^ 53)%Z) by (apply Z.pow_pos_nonneg; lia).
  rewrite Z.abs_eq by lia.
  pose proof (round_nearest_even_large H) as R.
  destruct (2 ^ 1024 <=? round_nearest_even z)%Z.
  - left. f_equal. apply Z.ltb_ge. lia.
  - right. exists (round_nearest_even z). split; [|assumption].
    f_equal. rewrite Z.sgn_pos by lia. lia.
Qed.

(** The nearest binary64 values of the powers of ten are large powers. *)
Lemma nearest_power_large : large_powers nearest_power.
Proof.
  intros len H. apply of_integer_large.
  apply Z.le_trans with (10 ^ 23)%Z; [vm_compute; discriminate|].
  apply Z.pow_le_mono_r; lia.
Qed.

(** The remainder of a number below [2 ^ 53] by the engine's power of ten
    is the exact one. *)
Lemma rem_pow10 (len : nat) (x : Z) :
  large_powers power ->
  (0 <= x < 2 ^ 53)%Z ->
  rem (Finite x) (Math_pow10 power len) = Finite (x mod 10 ^ Z.of_nat len).
Proof.
  intros Hp Hx. unfold Math_pow10.
  assert (P : (0 < 10 ^ Z.of_nat len)%Z) by (apply Z.pow_pos_nonneg; lia).
  destruct (Nat.leb_spec len 22) as [L|L].
  - cbn [rem].
    replace (10 ^ Z.of_nat len =? 0)%Z with false by (symmetry; apply Z.eqb_neq; lia).
    now rewrite Z.rem_mod_nonneg by lia.
  - assert (B : (2 ^ 53 <= 10 ^ Z.of_nat len)%Z).
    { apply Z.le_trans with (10 ^ 23)%Z; [vm_compute; discriminate|].
      apply Z.pow_le_mono_r; lia. }
    rewrite Z.mod_small by lia.
    destruct (Hp len L) as [->|[z [-> Hz]]]; [reflexivity|].
    cbn [rem].
    replace (z =? 0)%Z with false by (symmetry; apply Z.eqb_neq; lia).
    now rewrite Z.rem_small by lia.
Qed.

(** ** Numbers written with digits *)

Lemma digit_of_is_digit (c : ascii) :
  (exists d, digit_of c = Some d) <-> is_digit c = true.
Proof.
  unfold digit_of. destruct (is_digit c).
  - split; [reflexivity|eauto].
  - split; [intros [d H]; discriminate|discriminate].
Qed.

Lemma digit_of_range (c : ascii) (d : Z) : digit_of c = Some d -> (0 <= d <= 9)%Z.
Proof.
  destruct c as [[] [] [] [] [] [] [] []]; vm_compute; intros H;
    try discriminate; injection H as <-; split; discriminate.
Qed.

Lemma parse_digits_bounds (s : string) :
  forall acc v, (0 <= acc)%Z -> parse_digits acc s = Some v ->
    (acc * 10 ^ Z.of_nat (String.length s) <= v
     < (acc + 1) * 10 ^ Z.of_nat (String.length s))%Z.
Proof.
  induction s as [|c s IH]; intros acc v Hacc; simpl String.length.
  - simpl. intros H. injection H as <-. lia.
  - cbn [parse_digits]. destruct (digit_of c) as [d|] eqn:D; [|discriminate].
    intros H. apply digit_of_range in D.
    apply IH in H; [|lia].
    rewrite Nat2Z.inj_succ, Z.pow_succ_r by lia.
    assert (0 < 10 ^ Z.of_nat (String.length s))%Z by (apply Z.pow_pos_nonneg; lia).
    nia.
Qed.

Lemma decimal_bounds (s : string) (v : Z) :
  decimal s = Some v -> (0 <= v < 10 ^ Z.of_nat (String.length s))%Z.
Proof.
  intros H. apply parse_digits_bounds in H; lia.
Qed.

Lemma parse_digits_digits (s : string) :
  Forall (fun c => is_digit c = true) (chars_of s) ->
  forall acc, exists v, parse_digits acc s = Some v.
Proof.
  induction s as [|c s IH]; intros H acc; simpl; [eauto|].
  inversion H as [|x l Hc Hs]; subst.
  apply digit_of_is_digit in Hc. destruct Hc as [d ->]. now apply IH.
Qed.

(** On a string of digits [Number] is the decimal value, rounded, whatever
    the engine makes of other strings. *)
Lemma Number_digits (s : string) :
  Forall (fun c => is_digit c = true) (chars_of s) ->
  exists v, Number other s = of_integer v /\ decimal s = Some v.
Proof.
  intros H. unfold Number.
  assert (E : forallb is_digit (chars_of s) = true).
  { apply forallb_forall. now apply Forall_forall. }
  rewrite E. destruct (@parse_digits_digits s H 0%Z) as [v Hv].
  exists v. unfold decimal. rewrite Hv. split; reflexivity.
Qed.

(** A string whose characters are digits or keys of the mapping
    substitutes to a string of digits. *)
Lemma substitute_digits (m : mapping) :
  forall s,
    (forall c, In c (chars_of s) -> In c (keys m) \/ is_digit c = true) ->
    Forall (fun c => is_digit c = true) (chars_of (substitute s m)).
Proof.
  induction m as [|[k v] m IH]; intros s H.
  - apply Forall_forall. intros c Hc. destruct (H c Hc) as [[]|Hd]. exact Hd.
  - rewrite substitute_cons. apply IH. intros c Hc.
    cbn [fst snd] in Hc. apply replace_char_chars in Hc.
    destruct Hc as [[Hc Hne]|Hc].
    + destruct (H c Hc) as [[Hk|Hk]|Hd]; [simpl in Hk; congruence|now left|now right].
    + right. pose proof (to_string_digits v) as F.
      rewrite Forall_forall in F. now apply F.
Qed.

Lemma to_string_length (v : nat) : v <= 9 -> String.length (to_string v) = 1.
Proof.
  intros H. do 10 (destruct v as [|v]; [reflexivity|]). lia.
Qed.

Lemma length_append (a b : string) :
  String.length (a ++ b)%string = String.length a + String.length b.
Proof. induction a as [|c a IH]; simpl; auto. Qed.

Lemma replace_char_length (old : ascii) (new s : string) :
  String.length new = 1 -> String.length (replace_char old new s) = String.length s.
Proof.
  intros Hn. induction s as [|c s IH]; simpl; [reflexivity|].
  destruct (Ascii.eqb c old); simpl.
  - rewrite length_append. lia.
  - now rewrite IH.
Qed.

Lemma substitute_length (m : mapping) (s : string) :
  Forall (fun kv => snd kv <= 9) m ->
  String.length (substitute s m) = String.length s.
Proof.
  revert s. induction m as [|[k v] m IH]; intros s Hm; [reflexivity|].
  inversion Hm; subst. rewrite substitute_cons, IH by assumption.
  apply replace_char_length. now apply to_string_length.
Qed.

(** ** The check of the columns *)

Lemma sum_nonneg (vs : list Z) : Forall (fun v => 0 <= v)%Z vs -> (0 <= sum vs)%Z.
Proof.
  induction 1 as [|v vs Hv Hvs IH]; [now simpl|].
  cbn [sum fold_right]. fold (sum vs). lia.
Qed.

(** A sum that stays below [2 ^ 53] is computed with no rounding. *)
Lemma fold_add_values (vs : list Z) :
  forall a, (0 <= a)%Z -> Forall (fun v => 0 <= v)%Z vs -> (a + sum vs < 2 ^ 53)%Z ->
    fold_left add (map Finite vs) (Finite a) = Finite (a + sum vs)%Z.
Proof.
  induction vs as [|v vs IH]; intros a Ha Hvs Hb.
  - simpl. now rewrite Z.add_0_r.
  - inversion Hvs as [|x l Hv Hvs']; subst.
    pose proof (sum_nonneg Hvs') as Hs.
    cbn [sum fold_right] in Hb. fold (sum vs) in Hb.
    cbn [map fold_left]. rewrite add_exact by lia.
    rewrite IH by (try assumption; lia).
    cbn [sum fold_right]. fold (sum vs). f_equal. lia.
Qed.

(** So is a product of numbers below [B] while the powers of [B] stay
    below [2 ^ 53]. *)
Lemma fold_mul_values (B : Z) (vs : list Z) :
  forall a, (0 <= a)%Z -> Forall (fun v => 0 <= v < B)%Z vs ->
            (a * B ^ Z.of_nat (List.length vs) <= 2 ^ 53)%Z ->
    fold_left mul (map Finite vs) (Finite a) = Finite (a * product vs)%Z.
Proof.
  induction vs as [|v vs IH]; intros a Ha Hvs Hb.
  - simpl. now rewrite Z.mul_1_r.
  - inversion Hvs as [|x l Hv Hvs']; subst.
    cbn [List.length] in Hb. rewrite Nat2Z.inj_succ, Z.pow_succ_r in Hb by lia.
    assert (P : (0 < B ^ Z.of_nat (List.length vs))%Z) by (apply Z.pow_pos_nonneg; lia).
    assert (M : (0 <= a * v < 2 ^ 53)%Z).
    { split; [nia|]. destruct (Z.eq_dec a 0) as [->|Na].
      - rewrite Z.mul_0_l. apply Z.pow_pos_nonneg; lia.
      - remember (2 ^ 53)%Z as T. remember (B ^ Z.of_nat (List.length vs))%Z as Q.
        assert (a * v < a * B)%Z by nia.
        assert (a * B * 1 <= a * B * Q)%Z by (apply Z.mul_le_mono_nonneg_l; nia).
        lia. }
    cbn [map fold_left]. rewrite mul_exact by lia.
    rewrite IH; [| nia | assumption |].
    + cbn [product fold_right]. fold (product vs). f_equal. lia.
    + remember (2 ^ 53)%Z as T. remember (B ^ Z.of_nat (List.length vs))%Z as Q.
      assert (a * v <= a * B)%Z by nia.
      assert (a * v * Q <= a * B * Q)%Z by (apply Z.mul_le_mono_nonneg_r; lia).
      lia.
Qed.

Lemma sum_bound (B : Z) (vs : list Z) :
  (1 <= B)%Z -> Forall (fun v => 0 <= v < B)%Z vs ->
  (0 <= sum vs < B ^ Z.of_nat (S (List.length vs)))%Z.
Proof.
  intros HB. induction 1 as [|v vs Hv Hvs IH].
  - simpl. lia.
  - cbn [sum fold_right List.length]. fold (sum vs).
    rewrite Nat2Z.inj_succ, Z.pow_succ_r by lia.
    assert (0 < B ^ Z.of_nat (S (List.length vs)))%Z by (apply Z.pow_pos_nonneg; lia).
    nia.
Qed.

Lemma product_le (B : Z) (vs : list Z) :
  Forall (fun v => 0 <= v < B)%Z vs ->
  (0 <= product vs <= B ^ Z.of_nat (List.length vs))%Z.
Proof.
  induction 1 as [|v vs Hv Hvs IH].
  - simpl. lia.
  - cbn [product fold_right List.length]. fold (product vs).
    rewrite Nat2Z.inj_succ, Z.pow_succ_r by lia. nia.
Qed.

Lemma product_bound (B : Z) (vs : list Z) :
  (2 <= B)%Z -> Forall (fun v => 0 <= v < B)%Z vs ->
  (0 <= product vs < B ^ Z.of_nat (S (List.length vs)))%Z.
Proof.
  intros HB Hvs. pose proof (product_le Hvs) as G.
  rewrite Nat2Z.inj_succ, Z.pow_succ_r by lia.
  assert (0 < B ^ Z.of_nat (List.length vs))%Z by (apply Z.pow_pos_nonneg; lia).
  nia.
Qed.

(** The sum of numbers below [B] is below their number times [B]. *)
Lemma sum_linear (B : Z) (vs : list Z) :
  Forall (fun v => 0 <= v < B)%Z vs ->
  (0 <= sum vs /\ (vs <> [] -> sum vs < Z.of_nat (List.length vs) * B))%Z.
Proof.
  induction 1 as [|v vs Hv Hvs IH].
  - split; [now simpl|congruence].
  - cbn [sum fold_right List.length]. fold (sum vs).
    rewrite Nat2Z.inj_succ. destruct IH as [I1 I2].
    split; [lia|]. intros _. destruct vs as [|w vs].
    + change (sum []) with 0%Z. change (Z.of_nat (List.length (@nil Z))) with 0%Z. lia.
    + specialize (I2 ltac:(discriminate)). lia.
Qed.

Lemma product_range (B : Z) (vs : list Z) :
  Forall (fun v => 0 <= v < B)%Z vs ->
  (B ^ Z.of_nat (List.length vs) <= 2 ^ 53)%Z ->
  (0 <= product vs < 2 ^ 53)%Z.
Proof.
  intros Hvs Hb. destruct Hvs as [|v vs Hv Hvs].
  - simpl. split; [lia|reflexivity].
  - pose proof (product_le Hvs) as G.
    cbn [product fold_right List.length] in *. fold (product vs).
    rewrite Nat2Z.inj_succ, Z.pow_succ_r in Hb by lia.
    assert (0 < B ^ Z.of_nat (List.length vs))%Z by (apply Z.pow_pos_nonneg; lia).
    remember (2 ^ 53)%Z as T. remember (B ^ Z.of_nat (List.length vs))%Z as Q.
    split; [nia|].
    assert (v * product vs <= v * Q)%Z by (apply Z.mul_le_mono_nonneg_l; lia).
    assert (v * Q < B * Q)%Z by (apply Z.mul_lt_mono_pos_r; lia).
    lia.
Qed.

Lemma substring_all (s : string) : substring 0 (String.length s) s = s.
Proof. induction s as [|c s IH]; simpl; [reflexivity|now rewrite IH]. Qed.

Lemma substring_from_whole (len : nat) (s : string) :
  String.length s <= len -> substring_from (String.length s - len) s = s.
Proof.
  intros H. unfold substring_from.
  replace (String.length s - len) with 0 by lia.
  rewrite Nat.sub_0_r. apply substring_all.
Qed.

Lemma truncate_whole (words : list string) (len : nat) :
  maxlen words <= len ->
  map (fun elt => substring_from (String.length elt - len) elt) words = words.
Proof.
  intros H. rewrite <- (map_id words) at 2. apply map_ext_in.
  intros w Hw. apply substring_from_whole.
  pose proof (maxlen_ge _ _ Hw). lia.
Qed.

Lemma removelast_length {A} (l : list A) : List.length (removelast l) = List.length l - 1.
Proof.
  induction l as [|x l IH]; [reflexivity|].
  destruct l; [reflexivity|]. cbn [removelast List.length] in *. lia.
Qed.

Lemma In_removelast {A} (l : list A) (x : A) : In x (removelast l) -> In x l.
Proof.
  induction l as [|y l IH]; [contradiction|].
  destruct l; [contradiction|]. cbn [removelast].
  intros [->|H]; [now left|right; auto].
Qed.

Lemma In_chars_get (s : string) (c : ascii) :
  In c (chars_of s) -> exists i, i < String.length s /\ String.get i s = Some c.
Proof.
  induction s as [|x s IH]; simpl; [contradiction|].
  intros [->|H].
  - exists 0. split; [lia|reflexivity].
  - destruct (IH H) as [i [Hi Hg]]. exists (S i). split; [lia|exact Hg].
Qed.

(** When the columns up to the longest word's are bound, every letter is. *)
Lemma bound_upto_total (words : list string) (m : mapping) :
  bound_upto words (maxlen words) m -> total_on words m.
Proof.
  intros Hb word char Hw Hc.
  destruct (@In_chars_get word char Hc) as [i [Hi Hg]].
  apply has_key_keys.
  apply (Hb (String.length word - i) char).
  - pose proof (@maxlen_ge words word Hw). lia.
  - apply column_In with (word := word); [assumption|lia|].
    replace (String.length word - (String.length word - i)) with i by lia.
    exact Hg.
Qed.

(** Under a mapping that binds every letter, a word reads as a number: the
    decimal value of its digits, rounded. *)
Lemma word_value (words : list string) (m : mapping) (word : string) :
  total_on words m -> In word words ->
  exists v, Number other (substitute word m) = of_integer v
            /\ decimal (substitute word m) = Some v.
Proof.
  intros Ht Hw. apply Number_digits, substitute_digits.
  intros c Hc. left. now apply (Ht word c).
Qed.

(** The words of the puzzle, read under a mapping of digits that binds
    every letter, are numbers below [10 ^ maxlen]. *)
Lemma operands_values (words : list string) (m : mapping) :
  total_on words m ->
  Forall (fun kv => snd kv <= 9) m ->
  forall l, incl l words ->
    exists vs,
      map (fun word => Number other (substitute word m)) l = map of_integer vs
      /\ map (fun word => decimal (substitute word m)) l = map Some vs
      /\ Forall (fun v => 0 <= v < 10 ^ Z.of_nat (maxlen words))%Z vs
      /\ List.length vs = List.length l.
Proof.
  intros Ht Hm. induction l as [|w l IH]; intros Hincl.
  - exists []. repeat split; constructor.
  - destruct IH as [vs [H1 [H2 [H3 H4]]]]; [intros x Hx; apply Hincl; now right|].
    assert (Hw : In w words) by (apply Hincl; now left).
    destruct (@word_value words m w Ht Hw) as [v [Hv Hd]].
    exists (v :: vs). cbn [map List.length]. rewrite Hv, Hd, H1, H2, H4.
    repeat split; try reflexivity.
    constructor; [|assumption].
    apply decimal_bounds in Hd. rewrite substitute_length in Hd by assumption.
    pose proof (@maxlen_ge words w Hw).
    assert (10 ^ Z.of_nat (String.length w) <= 10 ^ Z.of_nat (maxlen words))%Z
      by (apply Z.pow_le_mono_r; lia).
    lia.
Qed.

(** In the exact range a word's value is below [2 ^ 53]. *)
Lemma exact_range_word (words : list string) (operation : string) :
  2 <= List.length words -> exact_range words operation ->
  (10 ^ Z.of_nat (maxlen words) <= 2 ^ 53)%Z.
Proof.
  unfold exact_range, largest. intros Hn H.
  assert (P : (0 < 10 ^ Z.of_nat (maxlen words))%Z) by (apply Z.pow_pos_nonneg; lia).
  destruct (String.eqb operation "*").
  - eapply Z.le_trans; [|exact H].
    rewrite <- (Z.pow_1_r (10 ^ Z.of_nat (maxlen words))) at 1.
    apply Z.pow_le_mono_r; lia.
  - nia.
Qed.

Lemma map_of_integer (B : Z) (vs : list Z) :
  (B <= 2 ^ 53)%Z -> Forall (fun v => 0 <= v < B)%Z vs ->
  map of_integer vs = map Finite vs.
Proof.
  intros HB. induction 1 as [|v vs Hv Hvs IH]; [reflexivity|].
  cbn [map]. rewrite IH, of_integer_exact by lia. reflexivity.
Qed.

Lemma last_word_map (f : string -> string) (words : list string) :
  words <> [] -> last_word (map f words) = Some (f (last words EmptyString)).
Proof.
  intros Hne. destruct (@exists_last _ words Hne) as [l [x E]]. rewrite E.
  rewrite map_app, last_last. cbn [map].
  unfold last_word. destruct (map f l ++ [f x]) eqn:E'.
  - destruct (map f l); discriminate.
  - rewrite <- E'. now rewrite last_last.
Qed.

Lemma removelast_map {A B} (f : A -> B) (l : list A) :
  removelast (map f l) = map f (removelast l).
Proof.
  induction l as [|x l IH]; [reflexivity|].
  destruct l; [reflexivity|]. cbn [map removelast] in *. now rewrite IH.
Qed.

(** In the exact range the check of a window computes with no rounding:
    when the operands cut to the window read as [ts] and the result cut to
    it as [t], it tells whether the sum, or the product, of [ts] is [t]
    modulo [10 ^ len]. *)
Lemma check_equal_values (words : list string) (operation : string) (len : nat)
      (m : mapping) (ts : list Z) (t : Z) :
  2 <= List.length words -> len <> 0 ->
  large_powers power ->
  exact_range words operation ->
  map (fun word => Number other (substitute word m))
      (map (fun elt => substring_from (String.length elt - len) elt) (removelast words))
  = map of_integer ts ->
  Number other (substitute (substring_from (String.length (last words EmptyString) - len)
                                           (last words EmptyString)) m)
  = of_integer t ->
  Forall (fun v => 0 <= v < 10 ^ Z.of_nat (maxlen words))%Z (t :: ts) ->
  check_equal other power words operation len m
  = if String.eqb operation "+"
    then Return (sum ts mod 10 ^ Z.of_nat len =? t)%Z
    else if String.eqb operation "*"
         then Return (product ts mod 10 ^ Z.of_nat len =? t)%Z
         else Throw (InvalidOperation operation).
Proof.
  intros Hn Hlen Hp Hr Hts Ht Hb.
  assert (Hne : words <> []) by (destruct words; [simpl in Hn; lia|discriminate]).
  pose proof (exact_range_word Hn Hr) as HB.
  inversion Hb as [|x l Hbt Hbts]; subst.
  assert (Hl : List.length ts = List.length words - 1).
  { apply (f_equal (@List.length _)) in Hts.
    rewrite !length_map, removelast_length in Hts. lia. }
  unfold check_equal. apply Nat.eqb_neq in Hlen. rewrite Hlen.
  rewrite last_word_map by assumption. rewrite removelast_map, Hts, Ht.
  rewrite (map_of_integer HB Hbts), of_integer_exact by lia.
  assert (P : (0 < 10 ^ Z.of_nat len)%Z) by (apply Z.pow_pos_nonneg; lia).
  unfold exact_range, largest in Hr.
  destruct (String.eqb operation "+") eqn:Eplus.
  - assert (Hstar : String.eqb operation "*" = false).
    { apply String.eqb_eq in Eplus. now subst. }
    rewrite Hstar in Hr.
    assert (S : (0 <= sum ts < 2 ^ 53)%Z).
    { destruct (sum_linear Hbts) as [S1 S2]. split; [assumption|].
      destruct ts as [|v ts]; [simpl in Hl; lia|].
      specialize (S2 ltac:(discriminate)). rewrite Hl in S2.
      rewrite Nat2Z.inj_sub in S2 by lia. rewrite Nat2Z.inj_sub in Hr by lia. lia. }
    rewrite fold_add_values; [|lia| |lia].
    + rewrite Z.add_0_l, rem_pow10 by assumption. reflexivity.
    + eapply Forall_impl; [|exact Hbts]. simpl. intros; lia.
  - destruct (String.eqb operation "*") eqn:Estar; [|reflexivity].
    assert (Q : ((10 ^ Z.of_nat (maxlen words)) ^ Z.of_nat (List.length ts) <= 2 ^ 53)%Z).
    { rewrite Hl. exact Hr. }
    pose proof (product_range Hbts Q) as S.
    rewrite (@fold_mul_values (10 ^ Z.of_nat (maxlen words))%Z) by (try assumption; lia).
    rewrite Z.mul_1_l, rem_pow10 by assumption. reflexivity.
Qed.

Lemma map_Some_inj {A} (l l' : list A) : map Some l = map Some l' -> l = l'.
Proof.
  revert l'. induction l as [|x l IH]; intros [|y l'] H; try discriminate; [reflexivity|].
  injection H as -> H. f_equal. now apply IH.
Qed.

(** With the window [maxlen * number of words] no word is cut and the
    reduction modulo [10 ^ window] changes nothing: in the exact range the
    final check answers true exactly when the equation holds of the exact
    values. *)
Lemma check_equal_final (words : list string) (operation : string) (m : mapping) :
  2 <= List.length words -> 1 <= maxlen words ->
  large_powers power ->
  exact_range words operation ->
  total_on words m ->
  Forall (fun kv => snd kv <= 9) m ->
  check_equal other power words operation (maxlen words * List.length words) m = Return true
  <-> equation_holds words operation m.
Proof.
  intros Hn HL Hp Hr Ht Hm.
  assert (Hne : words <> []) by (destruct words; [simpl in Hn; lia|discriminate]).
  assert (Hwin : maxlen words <= maxlen words * List.length words) by nia.
  destruct (@operands_values words m Ht Hm (removelast words))
    as [vs [Hvs [Hdec [Hb Hl]]]]; [intros x Hx; now apply In_removelast|].
  assert (Hlast : In (last words EmptyString) words).
  { destruct (@exists_last _ words Hne) as [l [x E]].
    rewrite E, last_last. apply in_or_app. right. now left. }
  destruct (@word_value words m (last words EmptyString) Ht Hlast) as [r [Hr1 Hr2]].
  assert (Hbr : (0 <= r < 10 ^ Z.of_nat (maxlen words))%Z).
  { apply decimal_bounds in Hr2. rewrite substitute_length in Hr2 by assumption.
    pose proof (@maxlen_ge words _ Hlast).
    assert (10 ^ Z.of_nat (String.length (last words EmptyString))
            <= 10 ^ Z.of_nat (maxlen words))%Z by (apply Z.pow_le_mono_r; lia).
    lia. }
  rewrite (@check_equal_values words operation (maxlen words * List.length words) m vs r);
    try assumption.
  2: nia.
  2: { rewrite <- Hvs, map_map. apply map_ext_in. intros w Hw.
       rewrite substring_from_whole; [reflexivity|].
       apply In_removelast in Hw. pose proof (@maxlen_ge words w Hw). lia. }
  2: { rewrite substring_from_whole; [exact Hr1|].
       pose proof (@maxlen_ge words _ Hlast). lia. }
  2: now constructor.
  rewrite removelast_length in Hl.
  assert (HB : (10 <= 10 ^ Z.of_nat (maxlen words))%Z).
  { change 10%Z with (10 ^ 1)%Z at 1. apply Z.pow_le_mono_r; lia. }
  assert (Hpow : forall x : Z,
             (0 <= x < (10 ^ Z.of_nat (maxlen words)) ^ Z.of_nat (S (List.length vs)))%Z ->
             (x mod 10 ^ Z.of_nat (maxlen words * List.length words) = x)%Z).
  { intros x Hx. replace (S (List.length vs)) with (List.length words) in Hx by lia.
    rewrite <- Z.pow_mul_r, <- Nat2Z.inj_mul in Hx by lia.
    now apply Z.mod_small. }
  unfold equation_holds.
  destruct (String.eqb_spec operation "+") as [->|Hplus].
  - rewrite Hpow by (apply sum_bound; [lia|assumption]). split.
    + intros H. injection H as H. apply Z.eqb_eq in H.
      exists vs, r. split; [assumption|]. split; [assumption|]. left. now split.
    + intros [vs' [r' [H1 [H2 [[_ H3]|[H3 _]]]]]]; [|discriminate].
      rewrite Hdec in H1. rewrite Hr2 in H2. injection H2 as <-.
      assert (vs = vs') by now apply map_Some_inj.
      subst vs'. f_equal. now apply Z.eqb_eq.
  - destruct (String.eqb_spec operation "*") as [->|Hstar].
    + rewrite Hpow by (apply product_bound; [lia|assumption]). split.
      * intros H. injection H as H. apply Z.eqb_eq in H.
        exists vs, r. split; [assumption|]. split; [assumption|]. right. now split.
      * intros [vs' [r' [H1 [H2 [[H3 _]|[_ H3]]]]]]; [discriminate|].
        rewrite Hdec in H1. rewrite Hr2 in H2. injection H2 as <-.
        assert (vs = vs') by now apply map_Some_inj.
        subst vs'. f_equal. now apply Z.eqb_eq.
    + split; [discriminate|].
      intros [vs' [r' [_ [_ [[H _]|[H _]]]]]]; contradiction.
Qed.

Lemma accepted_total (words : list string) (operation : string) (c : call) :
  accepted other power words operation c ->
  well_formed words (call_mapping c) /\ total_on words (call_mapping c).
Proof.
  intros [Hs [Hb _]]. split.
  - now apply search_state_well_formed.
  - now apply bound_upto_total.
Qed.

Lemma accepted_exact (words : list string) (operation : string) (c : call) :
  2 <= List.length words -> 1 <= maxlen words ->
  large_powers power ->
  exact_range words (default_operation operation) ->
  accepted other power words operation c ->
  equation_holds words (default_operation operation) (call_mapping c).
Proof.
  intros Hn HL Hp Hr Ha. destruct (accepted_total Ha) as [Hwf Ht].
  destruct Ha as [_ [_ Hc]].
  apply check_equal_final; try assumption. apply Hwf.
Qed.


(** ** Leading letters *)

Lemma any_true {A} (l : list A) (predicate : A -> bool) (x : A) :
  In x l -> predicate x = true -> any l predicate = true.
Proof.
  induction l as [|y l IH]; simpl; [contradiction|].
  intros [->|H] Hx.
  - now rewrite Hx.
  - destruct (predicate y); auto.
Qed.

Lemma keys_get (m : mapping) (c : ascii) :
  In c (keys m) -> exists d, get Ascii.eqb c m = Some d.
Proof.
  induction m as [|[k v] m IH]; simpl; [contradiction|].
  intros [->|H].
  - rewrite Ascii.eqb_refl. eauto.
  - destruct (Ascii.eqb k c); eauto.
Qed.

(** What holds of the mappings handed to the callback: no leading 0. *)
Lemma calls_no_leading_zero
        (fuel : nat) (words : list string) (operation : string) (callback : sink)
        (cs : list call) (r : outcome jsval) :
  solve_singleop other power fuel words operation callback = Some (cs, r) ->
  forall c, In c cs ->
    forall word char rest,
      In word (map toUpperCase words) -> word = String char rest ->
      exists d, get Ascii.eqb char (call_mapping c) = Some d /\ d <> 0.
Proof.
  intros H c Hc word char rest Hw ->.
  apply solve_singleop_accepts in H. destruct H as [H V].
  rewrite Forall_forall in H. specialize (H c Hc).
  assert (Hv : valid_puzzle words = true) by (apply V; intros ->; destruct Hc).
  destruct (@accepted_total _ operation c H) as [Hwf Ht].
  assert (Hk : In char (keys (call_mapping c))).
  { apply (Ht (String char rest)); [assumption|now left]. }
  destruct (@keys_get (call_mapping c) char Hk) as [d Hd]. exists d. split; [assumption|].
  apply get_In in Hd. destruct Hwf as [_ _ _ Hlead].
  rewrite Forall_forall in Hlead. apply (Hlead (char, d) Hd). simpl.
  apply any_true with (x := String char rest); [assumption|].
  simpl. apply Ascii.eqb_refl.
Qed.

(** ** Termination of the column search *)

Lemma missing_count_le (words : list string) (len : nat) (m : mapping) :
  missing_count words len m <= List.length words.
Proof. apply filter_length_le. Qed.

Lemma word_missing_set (len : nat) (m : mapping) (c : ascii) (v : nat) (word : string) :
  word_missing len (set Ascii.eqb m c v) word = true -> word_missing len m word = true.
Proof.
  unfold word_missing.
  destruct (String.get (String.length word - len) word) as [char|]; [|auto].
  destruct (len <=? String.length word); [|auto]. cbn [andb].
  destruct (has_key Ascii.eqb char m) eqn:K; [|auto].
  now rewrite has_key_set_other.
Qed.

Lemma missing_count_set_le (words : list string) (len : nat) (m : mapping)
      (c : ascii) (v : nat) :
  missing_count words len (set Ascii.eqb m c v) <= missing_count words len m.
Proof.
  unfold missing_count. induction words as [|w words IH]; simpl; [lia|].
  destruct (word_missing len (set Ascii.eqb m c v) w) eqn:E.
  - rewrite (word_missing_set _ _ _ _ _ E). simpl. lia.
  - destruct (word_missing len m w); simpl; lia.
Qed.

Lemma filter_length_lt {A} (f g : A -> bool) (l : list A) (x : A) :
  (forall y, g y = true -> f y = true) ->
  In x l -> f x = true -> g x = false ->
  List.length (filter g l) < List.length (filter f l).
Proof.
  intros Hgf. induction l as [|y l IH]; simpl; [contradiction|].
  assert (Hle : List.length (filter g l) <= List.length (filter f l)).
  { clear IH. induction l as [|z l IHl]; simpl; [lia|].
    destruct (g z) eqn:G; [rewrite (Hgf z G); simpl; lia|].
    destruct (f z); simpl; lia. }
  intros [->|Hin] Hf Hg.
  - rewrite Hf, Hg. simpl. lia.
  - specialize (IH Hin Hf Hg).
    destruct (g y) eqn:G; [rewrite (Hgf y G); simpl; lia|].
    destruct (f y); simpl; lia.
Qed.

Lemma missing_letter_word (words : list string) (len : nat) (m : mapping) (c : ascii) :
  missing_letter words len m = Some c ->
  exists word, In word words /\ word_missing len m word = true
               /\ String.get (String.length word - len) word = Some c.
Proof.
  induction words as [|w words IH]; cbn [missing_letter]; [discriminate|].
  destruct (String.get (String.length w - len) w) as [char|] eqn:G.
  - destruct ((len <=? String.length w) && negb (has_key Ascii.eqb char m)) eqn:E.
    + intros H. injection H as <-. exists w. split; [now left|].
      unfold word_missing. rewrite G. auto.
    + intros H. destruct (IH H) as [word [H1 H2]]. exists word. split; [now right|auto].
  - intros H. destruct (IH H) as [word [H1 H2]]. exists word. split; [now right|auto].
Qed.

Lemma missing_count_set_lt (words : list string) (len : nat) (m : mapping)
      (c : ascii) (v : nat) :
  missing_letter words len m = Some c ->
  missing_count words len (set Ascii.eqb m c v) < missing_count words len m.
Proof.
  intros H. apply missing_letter_word in H. destruct H as [word [Hin [Hw Hg]]].
  unfold missing_count. apply filter_length_lt with (x := word); auto.
  - intros y. apply word_missing_set.
  - unfold word_missing. rewrite Hg, has_key_set_same.
    now rewrite andb_false_r.
Qed.

(** ** What is returned *)

Lemma sum_app (a b : list Z) : sum (a ++ b) = (sum a + sum b)%Z.
Proof.
  unfold sum. induction a as [|x a IH]; simpl; [reflexivity|].
  rewrite IH. apply Z.add_assoc.
Qed.

Lemma hits_app (callback : sink) (cs1 cs2 : list call) :
  hits callback (cs1 ++ cs2) = (hits callback cs1 + hits callback cs2)%Z.
Proof. unfold hits. now rewrite map_app, sum_app. Qed.

Lemma weight_app (callback : sink) (cs1 cs2 : list call) :
  weight callback (cs1 ++ cs2) = (weight callback cs1 + weight callback cs2)%Z.
Proof. unfold weight. now rewrite map_app, sum_app. Qed.

Lemma weight_nonneg (callback : sink) (cs : list call) : (0 <= weight callback cs)%Z.
Proof.
  unfold weight. apply sum_nonneg. apply Forall_forall. intros x Hx.
  apply in_map_iff in Hx. destruct Hx as [c [<- _]]. apply Z.abs_nonneg.
Qed.

Lemma hits_weight (callback : sink) (cs : list call) :
  (Z.abs (hits callback cs) <= weight callback cs)%Z.
Proof.
  unfold hits, weight, sum. induction cs as [|c cs IH]; cbn [map fold_right]; [simpl; lia|].
  lia.
Qed.

Lemma exact_hits_app (callback : sink) (cs1 cs2 : list call) :
  exact_hits callback (cs1 ++ cs2) ->
  exact_hits callback cs1 /\ exact_hits callback cs2.
Proof.
  intros [F W]. apply Forall_app in F. destruct F as [F1 F2].
  rewrite weight_app in W.
  pose proof (weight_nonneg callback cs1). pose proof (weight_nonneg callback cs2).
  split; (split; [assumption|lia]).
Qed.

Lemma check_equal_returns (words : list string) (operation : string) (len : nat)
      (m : mapping) :
  words <> [] -> operation = "+" \/ operation = "*" ->
  exists b, check_equal other power words operation len m = Return b.
Proof.
  intros Hne Hop. unfold check_equal.
  assert (Hl : exists d, last_word (if len =? 0 then words
                                      else map (fun elt => substring_from (String.length elt - len) elt) words)
                         = Some d).
  { destruct (len =? 0); destruct words; try congruence; simpl; eauto. }
  destruct Hl as [d ->].
  destruct Hop as [-> | ->]; cbn [String.eqb Ascii.eqb Bool.eqb]; eauto.
Qed.

Section Count.
Variable words : list string.
Variable callback : sink.
Hypothesis words_not_nil : words <> [].

Lemma counting_invoke : counting callback (invoke callback).
Proof.
  intros m e p. exists [(m, e, p)], (callback m e p).
  split; [reflexivity|].
  intros [F _]. inversion F as [|x l Hx _]; subst. cbn [fst snd] in Hx.
  unfold counted, isNaN, hits, hit, sum. cbn [map fold_right fst snd].
  destruct (ToNumber (callback m e p)) as [|s|z];
    [reflexivity|exfalso; now apply (Hx s)|f_equal; lia].
Qed.

(** The sum [forEach] accumulates is the exact one when the values add up
    with no rounding. *)
Lemma forEach_sum {A} (array : list A) (f : A -> comp jsval) :
  (forall x, In x array ->
             exists cs v, f x = Some (cs, Return v)
                          /\ (exact_hits callback cs ->
                              ToNumber v = Finite (hits callback cs))) ->
  forall a, exists cs n,
      forEach array
              (fun num_hits x => bind (f x) (fun h => ret (add num_hits (ToNumber h))))
              a
      = Some (cs, Return n)
      /\ (forall z, a = Finite z ->
                    exact_hits callback cs ->
                    (Z.abs z + weight callback cs < 2 ^ 53)%Z ->
                    n = Finite (z + hits callback cs)%Z).
Proof.
  induction array as [|x array IH]; intros Hf a.
  - exists [], a. split; [reflexivity|].
    intros z -> _ _. unfold hits. simpl. now rewrite Z.add_0_r.
  - destruct (Hf x (or_introl eq_refl)) as [cs1 [v [H1 H2]]].
    destruct (IH (fun y Hy => Hf y (or_intror Hy)) (add a (ToNumber v)))
      as [cs2 [n [H3 H4]]].
    exists (cs1 ++ cs2), n. split.
    + cbn [forEach]. rewrite H1. cbn [bind ret]. rewrite app_nil_r, H3. reflexivity.
    + intros z -> Hex Hw. apply exact_hits_app in Hex. destruct Hex as [E1 E2].
      rewrite weight_app in Hw.
      pose proof (hits_weight callback cs1). pose proof (weight_nonneg callback cs2).
      rewrite (H2 E1) in H4.
      rewrite add_exact in H4 by lia.
      rewrite (H4 _ eq_refl E2) by lia.
      rewrite hits_app. f_equal. lia.
Qed.

(** With enough fuel, a supported operation and a counting callback,
    [do_layer] returns, and it returns the count. *)
Lemma do_layer_counts (fuel : nat) :
  forall operation len m k check_len,
    default_operation operation = "+" \/ default_operation operation = "*" ->
    counting callback k ->
    missing_count words len m < fuel ->
    exists cs v,
      do_layer other power fuel words operation len m k check_len = Some (cs, Return v)
      /\ (exact_hits callback cs -> ToNumber v = Finite (hits callback cs)).
Proof.
  induction fuel as [|fuel IH]; intros operation len m k check_len Hop Hk Hf; [lia|].
  rewrite do_layer_eq.
  destruct (if len =? 0 then None else missing_letter words len m) as [char|] eqn:M.
  - assert (Hm : missing_letter words len m = Some char)
      by (destruct (len =? 0); [discriminate|assumption]).
    destruct (@forEach_sum nat (get_possible_values char words m)
                (fun value => do_layer other power fuel words (default_operation operation) len
                                (set Ascii.eqb m char value) k
                                (default_check_len check_len len))) with (a := Finite 0%Z)
      as [cs [n [Hcs Hn]]].
    { intros v _. apply IH; [now rewrite default_operation_idem|assumption|].
      pose proof (missing_count_set_lt words len m v Hm). lia. }
    exists cs, (JNumber n).
    rewrite Hcs. cbn [bind ret]. rewrite app_nil_r. split; [reflexivity|].
    intros Hex. cbn [ToNumber]. rewrite (Hn 0%Z eq_refl Hex); [reflexivity|].
    destruct Hex as [_ W]. simpl Z.abs. lia.
  - destruct (@check_equal_returns words (default_operation operation)
                (default_check_len check_len len) m words_not_nil Hop) as [b ->].
    destruct b.
    + destruct (Hk m (substitute (flat_expression words (default_operation operation)) m)
                  (pretty_expression words (default_operation operation) m))
        as [cs [v [H1 H2]]].
      exists cs, (if isNaN v then JNumber (Finite 1%Z) else v).
      cbn [lift bind]. rewrite H1. cbn [bind ret app]. rewrite app_nil_r.
      split; [reflexivity|]. intros Hex. rewrite <- (H2 Hex). unfold counted.
      destruct (isNaN v); reflexivity.
    + exists [], (JNumber (Finite 0%Z)). split; reflexivity.
Qed.
End Count.

Lemma do_layer_number (fuel : nat) (words : list string) (operation : string)
      (len : nat) (m : mapping) (callback : mapping -> string -> string -> comp jsval)
      (check_len : nat) (c : ascii) (cs : list call) (v : jsval) :
  len <> 0 -> missing_letter words len m = Some c ->
  do_layer other power fuel words operation len m callback check_len = Some (cs, Return v) ->
  exists n, v = JNumber n.
Proof.
  intros Hlen Hm. destruct fuel as [|fuel]; [discriminate|].
  rewrite do_layer_eq. apply Nat.eqb_neq in Hlen. rewrite Hlen, Hm.
  intros H. apply bind_inv in H.
  destruct H as [[e [_ H]]|[n [cs1 [cs2 [_ [H _]]]]]]; [discriminate|].
  injection H as _ <-. eauto.
Qed.

(** ** The invocations are on different mappings *)

Lemma extends_refl (m : mapping) : extends m m.
Proof. exists []. now rewrite app_nil_r. Qed.

Lemma extends_snoc (m m' : mapping) (kv : ascii * nat) :
  extends (m ++ [kv]) m' -> extends m m'.
Proof. intros [rest ->]. exists (kv :: rest). now rewrite <- app_assoc. Qed.

Lemma extends_snoc_value (m m' : mapping) (c : ascii) (v v' : nat) :
  extends (m ++ [(c, v)]) m' -> extends (m ++ [(c, v')]) m' -> v = v'.
Proof.
  intros [r1 ->] [r2 H]. rewrite <- !app_assoc in H.
  apply app_inv_head in H. simpl in H. now injection H.
Qed.

Lemma get_possible_values_NoDup (char : ascii) (words : list string) (m : mapping) :
  NoDup (get_possible_values char words m).
Proof.
  unfold get_possible_values. apply NoDup_filter.
  assert (H : NoDup [0; 1; 2; 3; 4; 5; 6; 7; 8; 9]).
  { repeat constructor; simpl; intuition lia. }
  destruct (any words (first_is char)); [now apply NoDup_filter|assumption].
Qed.

Lemma distinct_calls_forEach {S} (m : mapping) (c : ascii) (values : list nat)
      (body : S -> nat -> comp S) :
  NoDup values ->
  (forall s v, In v values -> distinct_calls (m ++ [(c, v)]) (body s v)) ->
  forall s cs r,
    forEach values body s = Some (cs, r) ->
    NoDup (map call_mapping cs)
    /\ Forall (fun call => exists v, In v values
                                    /\ extends (m ++ [(c, v)]) (call_mapping call)) cs.
Proof.
  induction values as [|v values IH]; intros Hnd Hb s cs r; cbn [forEach].
  - intros H. injection H as <- <-. split; constructor.
  - inversion Hnd as [|x l Hv Hnd']; subst.
    assert (Hfirst : forall cs1 r1, body s v = Some (cs1, r1) ->
                NoDup (map call_mapping cs1)
                /\ Forall (fun call => exists v', In v' (v :: values)
                                /\ extends (m ++ [(c, v')]) (call_mapping call)) cs1).
    { intros cs1 r1 H1. destruct (Hb s v (or_introl eq_refl) cs1 r1 H1) as [N F].
      split; [assumption|]. rewrite Forall_forall in *. intros call Hc.
      exists v. split; [now left|auto]. }
    intros H. apply bind_inv in H.
    destruct H as [[e [H1 _]]|[s' [cs1 [cs2 [H1 [H2 ->]]]]]].
    + eapply Hfirst; eauto.
    + destruct (Hb s v (or_introl eq_refl) cs1 _ H1) as [N1 F1].
      destruct (IH Hnd' (fun s0 v0 Hin => Hb s0 v0 (or_intror Hin)) s' cs2 r H2)
        as [N2 F2].
      rewrite Forall_forall in F1, F2. split.
      * rewrite map_app. apply NoDup_app; [assumption|assumption|].
        intros x Hx1 Hx2. apply in_map_iff in Hx1, Hx2.
        destruct Hx1 as [c1 [<- Hc1]]. destruct Hx2 as [c2 [E Hc2]].
        destruct (F2 c2 Hc2) as [v' [Hv' Hext]]. rewrite E in Hext.
        pose proof (@extends_snoc_value m (call_mapping c1) c v v' (F1 c1 Hc1) Hext).
        subst v'. contradiction.
      * apply Forall_app. split; rewrite Forall_forall; intros call Hc.
        -- exists v. split; [now left|auto].
        -- destruct (F2 call Hc) as [v' [Hv' Hext]]. exists v'. split; [now right|auto].
Qed.

Lemma bind_ret_calls {A B} (c : comp A) (g : A -> B) (cs : list call) (r : outcome B) :
  bind c (fun a => ret (g a)) = Some (cs, r) -> exists r', c = Some (cs, r').
Proof.
  intros H. apply bind_inv in H.
  destruct H as [[e [H _]]|[a [cs1 [cs2 [H1 [H2 ->]]]]]]; [eauto|].
  injection H2 as <- _. rewrite app_nil_r. eauto.
Qed.

Lemma do_layer_distinct (words : list string) (fuel : nat) :
  forall operation len m callback check_len,
    (forall m' e p, distinct_calls m' (callback m' e p)) ->
    distinct_calls m (do_layer other power fuel words operation len m callback check_len).
Proof.
  induction fuel as [|fuel IH]; intros operation len m callback check_len Hcb cs r.
  - discriminate.
  - rewrite do_layer_eq.
    destruct (if len =? 0 then None else missing_letter words len m) as [char|] eqn:M.
    + assert (Hm : missing_letter words len m = Some char)
        by (destruct (len =? 0); [discriminate|assumption]).
      destruct (@missing_letter_some words len m char Hm) as [Hk _].
      intros H. apply bind_ret_calls in H. destruct H as [r' H].
      apply (@distinct_calls_forEach number m char) in H.
      * destruct H as [N F]. split; [assumption|].
        rewrite Forall_forall in *. intros call Hc.
        destruct (F call Hc) as [v [_ Hext]]. now apply extends_snoc in Hext.
      * apply get_possible_values_NoDup.
      * intros s v Hv cs' r'' H'. apply bind_ret_calls in H'. destruct H' as [r3 H'].
        rewrite set_fresh in H' by assumption.
        exact (IH (default_operation operation) len (m ++ [(char, v)]) callback
                  (default_check_len check_len len) Hcb cs' r3 H').
    + intros H. apply bind_inv in H.
      destruct H as [[e [H _]]|[b [cs1 [cs2 [H1 [H2 ->]]]]]].
      * injection H as <- _. split; constructor.
      * injection H1 as <- _. cbn [app]. destruct b.
        -- apply bind_ret_calls in H2. destruct H2 as [r' H2].
           exact (Hcb _ _ _ cs2 r' H2).
        -- injection H2 as <- _. split; constructor.
Qed.

Lemma solve_columns_distinct (words : list string) (fuel : nat) :
  forall len operation callback m check_len,
    (forall m' e p, distinct_calls m' (callback m' e p)) ->
    distinct_calls m (solve_columns other power fuel words operation callback len m check_len).
Proof.
  induction len as [|len IH]; intros operation callback m check_len Hcb;
    rewrite solve_columns_eq.
  - destruct (pending words 0 m); now apply do_layer_distinct.
  - destruct (pending words (S len) m); [|now apply do_layer_distinct].
    apply IH. intros m' e p. now apply do_layer_distinct.
Qed.

Lemma invoke_distinct (callback : sink) (m : mapping) (e p : string) :
  distinct_calls m (invoke callback m e p).
Proof.
  intros cs r H. injection H as <- _. split.
  - repeat constructor. intros [].
  - repeat constructor. apply extends_refl.
Qed.

(** ** The number of invocations *)

Lemma column_chars (words : list string) (len : nat) (c : ascii) :
  In c (column words len) -> letter_of words c.
Proof.
  unfold column. intros H. apply in_flat_map in H. destruct H as [w [Hw Hc]].
  exists w. split; [assumption|].
  destruct (len <=? String.length w); [|contradiction].
  destruct (String.get (String.length w - len) w) as [c'|] eqn:G; [|contradiction].
  destruct Hc as [->|[]].
  revert G. generalize (String.length w - len). clear.
  induction w as [|y w IH]; intros n G; [discriminate|].
  destruct n as [|n]; simpl in G.
  - injection G as ->. now left.
  - right. exact (IH n G).
Qed.

Lemma get_possible_values_length (char : ascii) (words : list string) (m : mapping) :
  List.length (get_possible_values char words m) <= 10.
Proof.
  unfold get_possible_values.
  eapply Nat.le_trans; [apply filter_length_le|].
  destruct (any words (first_is char)); [|simpl; lia].
  eapply Nat.le_trans; [apply filter_length_le|]. simpl. lia.
Qed.

(** Binding the missing letter of a column leaves one letter fewer
    unbound. *)
Lemma unbound_set_lt (words : list string) (len : nat) (m : mapping) (c : ascii) (v : nat) :
  missing_letter words len m = Some c ->
  List.length (unbound words (set Ascii.eqb m c v)) < List.length (unbound words m).
Proof.
  intros H. destruct (missing_letter_some _ _ _ H) as [Hk Hc].
  apply column_chars in Hc. destruct Hc as [w [Hw Hc]].
  unfold unbound. apply filter_length_lt with (x := c).
  - intros y Hy. apply negb_true_iff in Hy. apply negb_true_iff.
    destruct (has_key Ascii.eqb y m) eqn:K; [|reflexivity].
    now rewrite has_key_set_other in Hy.
  - apply distinct_chars_complete. now apply chars_of_concat with (w := w).
  - now rewrite Hk.
  - now rewrite has_key_set_same.
Qed.

Lemma forEach_few {S} (P : Z) (values : list nat) (body : S -> nat -> comp S) :
  (0 <= P)%Z ->
  (forall s v cs r, In v values -> body s v = Some (cs, r) ->
                    (Z.of_nat (List.length cs) <= P)%Z) ->
  forall s cs r,
    forEach values body s = Some (cs, r) ->
    (Z.of_nat (List.length cs) <= Z.of_nat (List.length values) * P)%Z.
Proof.
  intros HP. induction values as [|v values IH]; intros Hb s cs r; cbn [forEach].
  - intros H. injection H as <- <-. simpl. lia.
  - intros H. apply bind_inv in H. cbn [List.length]. rewrite Nat2Z.inj_succ.
    destruct H as [[e [H1 _]]|[s' [cs1 [cs2 [H1 [H2 ->]]]]]].
    + pose proof (Hb s v cs _ (or_introl eq_refl) H1). nia.
    + pose proof (Hb s v cs1 _ (or_introl eq_refl) H1).
      pose proof (IH (fun s0 v0 cs0 r0 Hin => Hb s0 v0 cs0 r0 (or_intror Hin)) s' cs2 r H2).
      rewrite length_app, Nat2Z.inj_add. lia.
Qed.

Lemma do_layer_few (words : list string) (fuel : nat) :
  forall operation len m callback check_len,
    (forall m' e p, few_calls words m' (callback m' e p)) ->
    few_calls words m (do_layer other power fuel words operation len m callback check_len).
Proof.
  induction fuel as [|fuel IH]; intros operation len m callback check_len Hcb cs r.
  - discriminate.
  - rewrite do_layer_eq.
    assert (P0 : forall n, (0 < 10 ^ Z.of_nat n)%Z) by (intros; apply Z.pow_pos_nonneg; lia).
    destruct (if len =? 0 then None else missing_letter words len m) as [char|] eqn:M.
    + assert (Hm : missing_letter words len m = Some char)
        by (destruct (len =? 0); [discriminate|assumption]).
      intros H. apply bind_ret_calls in H. destruct H as [r' H].
      pose proof (fun v => @unbound_set_lt words len m char v Hm) as Hlt.
      apply (@forEach_few number (10 ^ Z.of_nat (List.length (unbound words m) - 1))) in H.
      * pose proof (get_possible_values_length char words m) as Hv.
        pose proof (Hlt 0) as Hu.
        assert (E : (10 ^ Z.of_nat (List.length (unbound words m))
                     = 10 * 10 ^ Z.of_nat (List.length (unbound words m) - 1))%Z).
        { replace (Z.of_nat (List.length (unbound words m)))
            with (Z.succ (Z.of_nat (List.length (unbound words m) - 1))) by lia.
          apply Z.pow_succ_r. lia. }
        rewrite E.
        pose proof (P0 (List.length (unbound words m) - 1)). nia.
      * pose proof (P0 (List.length (unbound words m) - 1)). lia.
      * intros s v cs' r'' _ H'. apply bind_ret_calls in H'. destruct H' as [r3 H'].
        pose proof (IH (default_operation operation) len (set Ascii.eqb m char v) callback
                       (default_check_len check_len len) Hcb cs' r3 H') as G.
        eapply Z.le_trans; [exact G|].
        apply Z.pow_le_mono_r; [lia|]. pose proof (Hlt v). lia.
    + intros H. apply bind_inv in H.
      destruct H as [[e [H _]]|[b [cs1 [cs2 [H1 [H2 ->]]]]]].
      * injection H as <- _. simpl. pose proof (P0 (List.length (unbound words m))). lia.
      * injection H1 as <- _. cbn [app]. destruct b.
        -- apply bind_ret_calls in H2. destruct H2 as [r' H2].
           exact (Hcb _ _ _ cs2 r' H2).
        -- injection H2 as <- _. simpl.
           pose proof (P0 (List.length (unbound words m))). lia.
Qed.

Lemma solve_columns_few (words : list string) (fuel : nat) :
  forall len operation callback m check_len,
    (forall m' e p, few_calls words m' (callback m' e p)) ->
    few_calls words m (solve_columns other power fuel words operation callback len m check_len).
Proof.
  induction len as [|len IH]; intros operation callback m check_len Hcb;
    rewrite solve_columns_eq.
  - destruct (pending words 0 m); now apply do_layer_few.
  - destruct (pending words (S len) m); [|now apply do_layer_few].
    apply IH. intros m' e p. now apply do_layer_few.
Qed.

Lemma invoke_few (words : list string) (callback : sink) (m : mapping) (e p : string) :
  few_calls words m (invoke callback m e p).
Proof.
  intros cs r H. injection H as <- _. simpl.
  assert (0 < 10 ^ Z.of_nat (List.length (unbound words m)))%Z
    by (apply Z.pow_pos_nonneg; lia).
  lia.
Qed.

(** [solve_singleop] invokes the callback at most [10 ^ 10] times. *)
Lemma solve_singleop_few
      (fuel : nat) (words : list string) (operation : string) (callback : sink)
      (cs : list call) (r : outcome jsval) :
  solve_singleop other power fuel words operation callback = Some (cs, r) ->
  (Z.of_nat (List.length cs) <= 10 ^ 10)%Z.
Proof.
  intros H. destruct (valid_puzzle words) eqn:V.
  - rewrite solve_singleop_valid in H by assumption.
    apply (@solve_columns_few (map toUpperCase words)) in H;
      [|intros m' e p; apply invoke_few].
    eapply Z.le_trans; [exact H|]. apply Z.pow_le_mono_r; [lia|].
    unfold unbound.
    pose proof (filter_length_le (fun c => negb (has_key Ascii.eqb c ([] : mapping)))
                                 (distinct_chars (map toUpperCase words))) as L.
    unfold valid_puzzle in V.
    repeat (apply andb_prop in V; destruct V as [V ?]).
    match goal with
    | H : negb (10 <? _) = true |- _ => apply negb_true_iff, Nat.ltb_ge in H
    end.
    lia.
  - destruct (solve_singleop_invalid fuel words operation callback V) as [e [He _]].
    rewrite He in H. injection H as <- _. simpl. lia.
Qed.

Section Returned.
Variable words : list string.
Variable callback : sink.
Hypothesis words_not_nil : words <> [].

Lemma solve_columns_counts (fuel : nat) :
  forall len operation k m check_len,
    default_operation operation = "+" \/ default_operation operation = "*" ->
    counting callback k ->
    List.length words < fuel ->
    exists cs v,
      solve_columns other power fuel words operation k len m check_len = Some (cs, Return v)
      /\ (exact_hits callback cs -> ToNumber v = Finite (hits callback cs)).
Proof.
  assert (L : forall len m, List.length words < fuel -> missing_count words len m < fuel).
  { intros len m H. pose proof (missing_count_le words len m). lia. }
  induction len as [|len IH]; intros operation k m check_len Hop Hk Hf;
    rewrite solve_columns_eq.
  - assert (G : exists cs v,
               do_layer other power fuel words (default_operation operation) 0 m k
                        (default_check_len check_len 0) = Some (cs, Return v)
               /\ (exact_hits callback cs -> ToNumber v = Finite (hits callback cs))).
    { apply do_layer_counts; auto. now rewrite default_operation_idem. }
    destruct (pending words 0 m); exact G.
  - destruct (pending words (S len) m).
    + apply IH; [now rewrite default_operation_idem| |assumption].
      intros m' e p.
      destruct (@do_layer_counts words callback words_not_nil fuel
                  (default_operation operation) (S len) m' k
                  (default_check_len check_len (S len)))
        as [cs [v [H1 H2]]]; auto.
      { now rewrite default_operation_idem. }
      exists cs, v. split; [assumption|]. intros Hex. unfold counted, isNaN.
      now rewrite (H2 Hex).
    + apply do_layer_counts; auto. now rewrite default_operation_idem.
Qed.
End Returned.

Lemma default_operation_supported (operation : string) :
  operation = EmptyString \/ operation = "+" \/ operation = "*" ->
  default_operation operation = "+" \/ default_operation operation = "*".
Proof. intros [-> | [-> | ->]]; auto. Qed.

(** Invocations that each count for one weigh their number, and so does
    their count. *)
Lemma hits_ones (callback : sink) (cs : list call) :
  (forall m e p, In (m, e, p) cs ->
                 isNaN (callback m e p) = true \/ callback m e p = JBoolean true) ->
  hits callback cs = Z.of_nat (List.length cs)
  /\ weight callback cs = Z.of_nat (List.length cs)
  /\ Forall (fun c => forall negative,
                 ToNumber (callback (fst (fst c)) (snd (fst c)) (snd c))
                 <> Infinity negative) cs.
Proof.
  intros Hall. unfold hits, weight, sum.
  induction cs as [|[[m e] p] cs IH]; [repeat split; constructor|].
  destruct IH as [I1 [I2 I3]]; [intros; apply Hall; now right|].
  cbn [map fold_right List.length fst snd]. rewrite I1, I2, Nat2Z.inj_succ.
  assert (Hh : hit (callback m e p) = 1%Z
               /\ forall negative, ToNumber (callback m e p) <> Infinity negative).
  { destruct (Hall m e p (or_introl eq_refl)) as [H|H].
    - unfold hit. unfold isNaN in H.
      destruct (ToNumber (callback m e p)); try discriminate. split; [reflexivity|discriminate].
    - rewrite H. split; [reflexivity|discriminate]. }
  destruct Hh as [Hh Hi]. rewrite Hh. change (Z.abs 1) with 1%Z.
  split; [lia|]. split; [lia|]. constructor; assumption.
Qed.

(** The value returned on a valid puzzle with a supported operation. *)
Lemma solve_singleop_counts
        (fuel : nat) (words : list string) (operation : string) (callback : sink) :
  valid_puzzle words = true ->
  operation = EmptyString \/ operation = "+" \/ operation = "*" ->
  List.length words < fuel ->
  exists cs n,
    solve_singleop other power fuel words operation callback
    = Some (cs, Return (JNumber n))
    /\ NoDup (map call_mapping cs)
    /\ (Z.of_nat (List.length cs) <= 10 ^ 10)%Z
    /\ (exact_hits callback cs -> n = Finite (hits callback cs))
    /\ ((forall m e p, In (m, e, p) cs ->
                       isNaN (callback m e p) = true \/ callback m e p = JBoolean true) ->
        n = Finite (Z.of_nat (List.length cs))).
Proof.
  intros Hv Hop Hf.
  pose proof (@valid_puzzle_not_nil words Hv) as Hne.
  pose proof (@valid_puzzle_maxlen words Hv) as Hmax.
  destruct (@solve_columns_counts (map toUpperCase words) callback Hne fuel
              (maxlen (map toUpperCase words)) operation (invoke callback) []
              (maxlen (map toUpperCase words) * List.length (map toUpperCase words)))
    as [cs [v [H1 H2]]].
  { now apply default_operation_supported. }
  { apply counting_invoke. }
  { now rewrite length_map. }
  assert (Hn : exists n, v = JNumber n).
  { destruct (@solve_columns_descends fuel (map toUpperCase words)
                (maxlen (map toUpperCase words)) operation (invoke callback)
                (maxlen (map toUpperCase words) * List.length (map toUpperCase words)))
      as [k [cl E]]; [lia|].
    rewrite E in H1.
    destruct (@maxlen_attained (map toUpperCase words)) as [w [Hin Hw]]; [lia|].
    destruct (@missing_letter_start (map toUpperCase words) w 1 Hin) as [c Hc]; [lia|].
    apply (@do_layer_number fuel (map toUpperCase words)
             (default_operation operation) 1 [] k cl c cs v); auto. }
  destruct Hn as [n ->]. cbn [ToNumber] in H2.
  rewrite <- solve_singleop_valid in H1 by assumption.
  pose proof (solve_singleop_few _ _ _ _ H1) as Hfew.
  exists cs, n. split; [exact H1|]. split; [|split; [exact Hfew|split; [exact H2|]]].
  - rewrite solve_singleop_valid in H1 by assumption.
    eapply solve_columns_distinct; [|exact H1].
    apply invoke_distinct.
  - intros Hall. destruct (hits_ones callback cs Hall) as [Hh [Hw Hi]].
    rewrite <- Hh. apply H2. split; [exact Hi|]. rewrite Hw.
    eapply Z.le_lt_trans; [exact Hfew|]. reflexivity.
Qed.

(** ** Operations other than [+] and [*] *)

Lemma unsupported_default (operation : string) :
  unsupported operation -> default_operation operation = operation.
Proof.
  intros [H _]. unfold default_operation.
  destruct (String.eqb_spec operation EmptyString); [contradiction|reflexivity].
Qed.

Lemma check_equal_unsupported (words : list string) (operation : string) (len : nat)
      (m : mapping) :
  unsupported operation ->
  check_equal other power words operation len m = Throw (InvalidOperation operation).
Proof.
  intros [_ [H1 H2]]. unfold check_equal.
  destruct (String.eqb_spec operation "+"); [contradiction|].
  destruct (String.eqb_spec operation "*"); [contradiction|reflexivity].
Qed.

Lemma forEach_thrown_or_zero {A} (operation : string) (array : list A)
      (f : A -> comp jsval) :
  (forall x, In x array -> thrown_or_zero operation (f x)) ->
  forEach array (fun num_hits x => bind (f x) (fun h => ret (add num_hits (ToNumber h))))
          (Finite 0%Z) = Some ([], Throw (InvalidOperation operation))
  \/ forEach array (fun num_hits x => bind (f x) (fun h => ret (add num_hits (ToNumber h))))
             (Finite 0%Z) = Some ([], Return (Finite 0%Z)).
Proof.
  induction array as [|x array IH]; intros Hf; [now right|].
  cbn [forEach].
  destruct (Hf x (or_introl eq_refl)) as [H|H]; rewrite H.
  - now left.
  - cbn [bind ret ToNumber app]. rewrite add_zero.
    destruct (IH (fun y Hy => Hf y (or_intror Hy))) as [E|E]; rewrite E; auto.
Qed.

Lemma forEach_thrown {A} (operation : string) (array : list A) (f : A -> comp jsval)
      (s : number) :
  array <> [] ->
  (forall x, In x array -> thrown operation (f x)) ->
  forEach array (fun num_hits x => bind (f x) (fun h => ret (add num_hits (ToNumber h)))) s
  = Some ([], Throw (InvalidOperation operation)).
Proof.
  destruct array as [|x array]; [congruence|]. intros _ Hf.
  cbn [forEach]. now rewrite (Hf x (or_introl eq_refl)).
Qed.

Lemma do_layer_unsupported (fuel : nat) (words : list string) (operation : string) :
  unsupported operation ->
  forall len m callback check_len,
    missing_count words len m < fuel ->
    thrown_or_zero operation
      (do_layer other power fuel words operation len m callback check_len).
Proof.
  intros Hop. pose proof (unsupported_default Hop) as Hd.
  induction fuel as [|fuel IH]; intros len m callback check_len Hf; [lia|].
  rewrite do_layer_eq, Hd.
  destruct (if len =? 0 then None else missing_letter words len m) as [char|] eqn:M.
  - assert (Hm : missing_letter words len m = Some char)
      by (destruct (len =? 0); [discriminate|assumption]).
    destruct (@forEach_thrown_or_zero nat operation (get_possible_values char words m)
                (fun value => do_layer other power fuel words operation len
                                (set Ascii.eqb m char value) callback
                                (default_check_len check_len len))) as [E|E].
    { intros v _. apply IH.
      pose proof (missing_count_set_lt words len m v Hm). lia. }
    + left. unfold thrown. now rewrite E.
    + right. now rewrite E.
  - left. unfold thrown. now rewrite check_equal_unsupported.
Qed.

(** When the letters the column can bind are at most nine, a digit is left
    for each of them in turn, the column is completed and the check
    throws. *)
Lemma get_possible_values_not_nil (char : ascii) (words : list string) (m : mapping) :
  List.length m <= 8 -> get_possible_values char words m <> [].
Proof.
  intros Hlen Hnil.
  assert (Hincl : incl [1; 2; 3; 4; 5; 6; 7; 8; 9] (map snd m)).
  { intros v Hv.
    destruct (in_dec Nat.eq_dec v (map snd m)) as [Hin|Hn]; [assumption|exfalso].
    assert (G : In v (get_possible_values char words m)).
    { apply get_possible_values_spec. simpl in Hv. repeat split; [lia|assumption|lia]. }
    rewrite Hnil in G. destruct G. }
  assert (Hnd : NoDup [1; 2; 3; 4; 5; 6; 7; 8; 9]).
  { repeat constructor; simpl; intuition lia. }
  pose proof (NoDup_incl_length Hnd Hincl) as H. rewrite length_map in H.
  simpl in H. lia.
Qed.

Lemma do_layer_unsupported_throws (fuel : nat) (words : list string)
      (operation : string) (len : nat) :
  unsupported operation ->
  (forall l, NoDup l -> incl l (column words len) -> List.length l <= 9) ->
  forall m callback check_len,
    NoDup (keys m) -> incl (keys m) (column words len) ->
    missing_count words len m < fuel ->
    thrown operation (do_layer other power fuel words operation len m callback check_len).
Proof.
  intros Hop Hnine. pose proof (unsupported_default Hop) as Hd.
  induction fuel as [|fuel IH]; intros m callback check_len Hnd Hincl Hf; [lia|].
  unfold thrown. rewrite do_layer_eq, Hd.
  destruct (if len =? 0 then None else missing_letter words len m) as [char|] eqn:M.
  - assert (Hm : missing_letter words len m = Some char)
      by (destruct (len =? 0); [discriminate|assumption]).
    destruct (@missing_letter_some words len m char Hm) as [Hk Hc].
    assert (Hnd' : forall v, NoDup (keys (set Ascii.eqb m char v))).
    { intros v. rewrite set_fresh by assumption. unfold keys. rewrite map_app.
      apply NoDup_snoc; [assumption|]. now apply has_key_false_keys. }
    assert (Hincl' : forall v, incl (keys (set Ascii.eqb m char v)) (column words len)).
    { intros v. rewrite set_fresh by assumption. unfold keys. rewrite map_app.
      apply incl_app; [assumption|]. intros x [<-|[]]. assumption. }
    assert (Hlen : List.length m <= 8).
    { pose proof (Hnine _ (Hnd' 0) (Hincl' 0)) as H.
      rewrite set_fresh in H by assumption.
      unfold keys in H. rewrite length_map, length_app in H. simpl in H. lia. }
    rewrite (@forEach_thrown nat operation (get_possible_values char words m)
               (fun value => do_layer other power fuel words operation len
                               (set Ascii.eqb m char value) callback
                               (default_check_len check_len len))).
    + reflexivity.
    + now apply get_possible_values_not_nil.
    + intros v _. apply IH.
      * apply Hnd'.
      * apply Hincl'.
      * pose proof (missing_count_set_lt words len m v Hm). lia.
  - now rewrite check_equal_unsupported.
Qed.

(** The outcome on a valid puzzle with an unsupported operation. *)
Lemma solve_singleop_unsupported
        (fuel : nat) (words : list string) (operation : string) (callback : sink) :
  valid_puzzle words = true ->
  unsupported operation ->
  List.length words < fuel ->
  (solve_singleop other power fuel words operation callback
   = Some ([], Throw (InvalidOperation operation))
   \/ solve_singleop other power fuel words operation callback
      = Some ([], Return (JNumber (Finite 0%Z))))
  /\ ((forall l, NoDup l -> incl l (column (map toUpperCase words) 1) ->
                 List.length l <= 9) ->
      solve_singleop other power fuel words operation callback
      = Some ([], Throw (InvalidOperation operation))).
Proof.
  intros Hv Hop Hf.
  pose proof (@valid_puzzle_maxlen words Hv) as Hmax.
  rewrite solve_singleop_valid by assumption.
  destruct (@solve_columns_descends fuel (map toUpperCase words)
              (maxlen (map toUpperCase words)) operation (invoke callback)
              (maxlen (map toUpperCase words) * List.length (map toUpperCase words)))
    as [k [cl E]]; [lia|].
  rewrite E, (unsupported_default Hop).
  assert (Hc : missing_count (map toUpperCase words) 1 [] < fuel).
  { pose proof (missing_count_le (map toUpperCase words) 1 []) as H.
    rewrite length_map in H. lia. }
  split.
  - now apply do_layer_unsupported.
  - intros Hnine. apply do_layer_unsupported_throws; auto.
    + constructor.
    + intros x [].
Qed.

(** ** The exhaustive solver stops at its first solution *)

Lemma assign_length {A} (array : list A) (i : nat) (v : A) :
  List.length (assign array i v) = List.length array.
Proof.
  revert i. induction array as [|x array IH]; intros [|i]; simpl; auto.
Qed.

Lemma nth_assign {A} (array : list A) (i k : nat) (v d : A) :
  i < List.length array ->
  nth k (assign array i v) d = if k =? i then v else nth k array d.
Proof.
  revert i k. induction array as [|x array IH]; intros i k Hi; simpl in Hi; [lia|].
  destruct i as [|i], k as [|k]; simpl; auto.
  apply IH. lia.
Qed.

Lemma swap_length (array : list nat) (ii jj : nat) :
  List.length (swap array ii jj) = List.length array.
Proof. unfold swap. now rewrite !assign_length. Qed.

Lemma swap_swap (array : list nat) (ii jj : nat) :
  ii < List.length array -> jj < List.length array ->
  swap (swap array ii jj) ii jj = array.
Proof.
  intros Hi Hj.
  apply nth_ext with (d := 0) (d' := 0); [now rewrite !swap_length|].
  intros k _. unfold swap.
  repeat (rewrite nth_assign by (rewrite ?assign_length; assumption)).
  rewrite !Nat.eqb_refl.
  destruct (Nat.eqb_spec k jj) as [E1|E1]; destruct (Nat.eqb_spec jj ii) as [E2|E2];
    destruct (Nat.eqb_spec ii jj) as [E3|E3]; destruct (Nat.eqb_spec k ii) as [E4|E4];
    subst; try reflexivity; try congruence.
Qed.

Lemma find_app_none {A} (P : A -> bool) (l1 l2 : list A) :
  find P l1 = None -> find P (l1 ++ l2) = find P l2.
Proof.
  induction l1 as [|x l1 IH]; simpl; [reflexivity|].
  destruct (P x); [discriminate|assumption].
Qed.

Lemma find_app_some {A} (P : A -> bool) (l1 l2 : list A) (x : A) :
  find P l1 = Some x -> find P (l1 ++ l2) = Some x.
Proof.
  induction l1 as [|y l1 IH]; simpl; [discriminate|].
  destruct (P y); auto.
Qed.

Section First.
Variable R : Type.
Variable P : list nat -> bool.
Variable rep : list nat -> R.

(** A run of [permutations] that stops at the first values satisfying [P]
    reports them and nothing else; it leaves the array as it found it. *)
Lemma permutations_from_first (remaining : nat) :
  forall array ii kk,
    ii + remaining = List.length array ->
    fst (fst (permutations_from (stop_at_first P rep) remaining array ii kk)) = array
    /\ fst (fst (permutations_from visit remaining array ii kk)) = array
    /\ snd (permutations_from visit remaining array ii kk) = false
    /\ snd (fst (permutations_from (stop_at_first P rep) remaining array ii kk))
       = first_report P rep (snd (fst (permutations_from visit remaining array ii kk)))
    /\ snd (permutations_from (stop_at_first P rep) remaining array ii kk)
       = found P (snd (fst (permutations_from visit remaining array ii kk))).
Proof.
  assert (Base : forall array,
             fst (fst (let '(log, stop) := stop_at_first P rep array in (array, log, stop))) = array
             /\ fst (fst (let '(log, stop) := visit array in (array, log, stop))) = array
             /\ snd (let '(log, stop) := visit array in (array, log, stop)) = false
             /\ snd (fst (let '(log, stop) := stop_at_first P rep array in (array, log, stop)))
                = first_report P rep
                    (snd (fst (let '(log, stop) := visit array in (array, log, stop))))
             /\ snd (let '(log, stop) := stop_at_first P rep array in (array, log, stop))
                = found P (snd (fst (let '(log, stop) := visit array in (array, log, stop))))).
  { intros array. unfold stop_at_first, visit, first_report, found. simpl.
    destruct (P array); repeat split; reflexivity. }
  induction remaining as [|remaining IH]; intros array ii kk Hlen;
    cbn [permutations_from]; [apply Base|].
  destruct (ii =? kk); [apply Base|].
  destruct (IH array (ii + 1) kk) as [A1 [A2 [S2 [L1 S1]]]]; [lia|].
  destruct (permutations_from (stop_at_first P rep) remaining array (ii + 1) kk)
    as [[array1 log1] stop1].
  destruct (permutations_from visit remaining array (ii + 1) kk)
    as [[array2 log2] stop2].
  cbn [fst snd] in A1, A2, S2, L1, S1. subst array1 array2 stop2.
  assert (Hii : ii < List.length array) by lia.
  assert (Hjjs : Forall (fun jj => jj < List.length array)
                        (seq (ii + 1) (List.length array - (ii + 1)))).
  { apply Forall_forall. intros jj Hjj. apply in_seq in Hjj. lia. }
  revert Hjjs. generalize (seq (ii + 1) (List.length array - (ii + 1))) as jjs.
  unfold found, first_report in *.
  destruct (find P log2) as [hit|] eqn:F; subst stop1 log1.
  - (* the first call stopped *)
    intros jjs. revert log2 F.
    induction jjs as [|jj jjs IHj]; intros log2 F Hjjs.
    + cbn [fst snd]. rewrite F. repeat split; reflexivity.
    + inversion Hjjs as [|x l Hjj Hrest]; subst.
      destruct (IH (swap array ii jj) (ii + 1) kk) as [_ [B2 [T2 _]]];
        [rewrite swap_length; lia|].
      destruct (permutations_from visit remaining (swap array ii jj) (ii + 1) kk)
        as [[array3 log3] stop3].
      cbn [fst snd] in B2, T2. subst array3 stop3.
      rewrite swap_swap by assumption.
      specialize (IHj (log2 ++ log3) (find_app_some _ _ log3 F) Hrest).
      cbn [fst snd] in IHj |- *. exact IHj.
  - (* the first call found nothing *)
    intros jjs. revert log2 F.
    induction jjs as [|jj jjs IHj]; intros log2 F Hjjs.
    + cbn [fst snd]. rewrite F. repeat split; reflexivity.
    + inversion Hjjs as [|x l Hjj Hrest]; subst.
      destruct (IH (swap array ii jj) (ii + 1) kk) as [B1 [B2 [T2 [M1 T1]]]];
        [rewrite swap_length; lia|].
      destruct (permutations_from (stop_at_first P rep) remaining (swap array ii jj) (ii + 1) kk)
        as [[array3 log3] stop3].
      destruct (permutations_from visit remaining (swap array ii jj) (ii + 1) kk)
        as [[array4 log4] stop4].
      cbn [fst snd] in B1, B2, T2, M1, T1. subst array3 array4 stop4.
      rewrite swap_swap by assumption.
      destruct (find P log4) as [hit|] eqn:F4; subst stop3 log3.
      * cbn [app].
        assert (F' : find P (log2 ++ log4) = Some hit)
          by (rewrite find_app_none by assumption; exact F4).
        clear IHj F F4 Hjjs. revert F' Hrest. generalize (log2 ++ log4) as tried.
        induction jjs as [|jj' jjs IHj]; intros tried F' Hrest.
        -- cbn [fst snd]. rewrite F'. repeat split; reflexivity.
        -- inversion Hrest as [|x l Hjj' Hrest']; subst.
           destruct (IH (swap array ii jj') (ii + 1) kk) as [_ [B2 [T2 _]]];
             [rewrite swap_length; lia|].
           destruct (permutations_from visit remaining (swap array ii jj') (ii + 1) kk)
             as [[array3 log3] stop3].
           cbn [fst snd] in B2, T2. subst array3 stop3.
           rewrite swap_swap by assumption.
           exact (IHj (tried ++ log3) (find_app_some _ _ log3 F') Hrest').
      * cbn [app]. apply (IHj (log2 ++ log4)); [|assumption].
        rewrite find_app_none by assumption. exact F4.
Qed.

End First.

Lemma keys_set {V : Type} (h : hash ascii V) (c : ascii) (v : V) :
  keys (set Ascii.eqb h c v)
  = if has_key Ascii.eqb c h then keys h else keys h ++ [c].
Proof.
  induction h as [|[k v0] h IH]; [reflexivity|].
  cbn [set has_key existsb fst]. fold (has_key Ascii.eqb c h).
  destruct (Ascii.eqb k c) eqn:E; [reflexivity|].
  cbn [keys map fst orb]. fold (keys (set Ascii.eqb h c v)). fold (keys h).
  rewrite IH. now destruct (has_key Ascii.eqb c h).
Qed.

Lemma make_letters_fold (l : list ascii) :
  forall h,
    NoDup (keys h) ->
    NoDup (keys (fold_left (fun letters char =>
                              if is_letter char then set Ascii.eqb letters char 1
                              else letters) l h))
    /\ forall c,
         In c (keys (fold_left (fun letters char =>
                                  if is_letter char then set Ascii.eqb letters char 1
                                  else letters) l h))
         <-> In c (keys h) \/ (In c l /\ is_letter c = true).
Proof.
  induction l as [|x l IH]; intros h Hh.
  - split; [assumption|]. intros c. simpl. tauto.
  - cbn [fold_left].
    destruct (is_letter x) eqn:L.
    + assert (Hn : NoDup (keys (set Ascii.eqb h x 1))).
      { rewrite keys_set. destruct (has_key Ascii.eqb x h) eqn:K; [assumption|].
        apply NoDup_snoc; [assumption|]. now apply has_key_false_keys. }
      destruct (IH _ Hn) as [N I]. split; [assumption|].
      intros c. rewrite I, keys_set.
      destruct (has_key Ascii.eqb x h) eqn:K.
      * apply has_key_keys in K. simpl. split.
        -- intros [H|[H1 H2]]; auto.
        -- intros [H|[[->|H1] H2]]; auto.
      * rewrite in_app_iff. simpl. split.
        -- intros [[H|[->|[]]]|[H1 H2]]; auto.
        -- intros [H|[[->|H1] H2]]; auto.
    + destruct (IH _ Hh) as [N I]. split; [assumption|].
      intros c. rewrite I. simpl. split.
      * intros [H|[H1 H2]]; auto.
      * intros [H|[[->|H1] H2]]; auto. congruence.
Qed.

Lemma permutations_from_ext {R} (f g : list nat -> list R * bool) :
  (forall array, f array = g array) ->
  forall remaining array ii kk,
    permutations_from f remaining array ii kk = permutations_from g remaining array ii kk.
Proof.
  intros H. induction remaining as [|remaining IH]; intros array ii kk;
    cbn [permutations_from]; [now rewrite H|].
  destruct (ii =? kk); [now rewrite H|].
  rewrite IH.
  destruct (permutations_from g remaining array (ii + 1) kk) as [[array1 log1] stop1].
  destruct stop1; [reflexivity|].
  generalize (seq (ii + 1) (List.length array1 - (ii + 1))) as jjs.
  intros jjs. revert array1 log1.
  induction jjs as [|jj jjs IHj]; intros array1 log1; [reflexivity|].
  rewrite IH.
  destruct (permutations_from g remaining (swap array1 ii jj) (ii + 1) kk)
    as [[array2 log2] stop2].
  destruct stop2; [reflexivity|]. apply IHj.
Qed.

(** What [solve_general] is, by the permutations it tries. *)
Lemma solve_general_first_event (eval : string -> option bool) (expression : string) :
  solve_general eval expression
  = first_report
      (general_stops (fun values => eval (general_text expression values)))
      (general_event_of (fun values => eval (general_text expression values))
                        (general_report expression))
      (tried (List.length (make_letters (toUpperCase expression)))).
Proof.
  set (P := general_stops (fun values => eval (general_text expression values))).
  set (rep := general_event_of (fun values => eval (general_text expression values))
                               (general_report expression)).
  unfold solve_general, tried, permutations.
  destruct (@permutations_from_first _ P rep
              (List.length [0; 1; 2; 3; 4; 5; 6; 7; 8; 9] - 0)
              [0; 1; 2; 3; 4; 5; 6; 7; 8; 9] 0
              (List.length (make_letters (toUpperCase expression))))
    as [_ [_ [_ [L _]]]]; [reflexivity|].
  rewrite <- L.
  rewrite (@permutations_from_ext _ _ (stop_at_first P rep)).
  - match goal with
    | |- context [permutations_from ?f ?n ?a ?i ?k] =>
        destruct (permutations_from f n a i k) as [[array log] stop]
    end.
    reflexivity.
  - intros values.
    unfold stop_at_first, P, rep, general_stops, general_event_of, general_report,
      general_text, check_expression.
    destruct (eval (substitute_values (toUpperCase expression)
                      (make_mapping (make_letters (toUpperCase expression)) values)))
      as [[|]|]; reflexivity.
Qed.

Lemma make_mapping_keys (letters : list ascii) (values : list nat) (c : ascii) :
  In c letters -> In c (keys (make_mapping letters values)).
Proof.
  intros Hc. unfold make_mapping.
  assert (G : forall l (acc : assignment),
             In c (keys acc) \/ (exists i, In i l /\ nth i letters "000"%char = c) ->
             In c (keys (fold_left
                           (fun m ii => set Ascii.eqb m (nth ii letters "000"%char)
                                            (nth_error values ii)) l acc))).
  { induction l as [|i l IH]; intros acc H; cbn [fold_left].
    - destruct H as [H|[i [[] _]]]. exact H.
    - apply IH. rewrite keys_set.
      destruct H as [H|[j [[<-|Hj] E]]].
      + left. destruct (has_key Ascii.eqb (nth i letters "000"%char) acc);
          [assumption|apply in_or_app; now left].
      + left. destruct (has_key Ascii.eqb (nth i letters "000"%char) acc) eqn:K.
        * apply has_key_keys in K. now rewrite <- E.
        * apply in_or_app. right. now left.
      + right. exists j. auto. }
  apply G. right. destruct (In_nth _ _ "000"%char Hc) as [i [Hi E]].
  exists i. split; [|assumption]. apply in_seq. lia.
Qed.

Lemma substitute_values_cons (s : string) (kv : ascii * option nat) (m : assignment) :
  substitute_values s (kv :: m)
  = substitute_values (replace_char (fst kv) (separator (snd kv)) s) m.
Proof. unfold substitute_values. simpl. now rewrite replace_all_char. Qed.

(** A character of a substituted text is a digit or a comma, or a
    character of the expression that is not a key. *)
Lemma substitute_values_chars (m : assignment) :
  forall s x,
    In x (chars_of (substitute_values s m)) ->
    (In x (chars_of s) /\ ~ In x (keys m)) \/ is_digit x = true \/ x = ","%char.
Proof.
  induction m as [|[k v] m IH]; intros s x H.
  - left. split; [exact H|intros []].
  - rewrite substitute_values_cons in H. cbn [fst snd] in H.
    apply IH in H. destruct H as [[H1 H2]|H]; [|now right].
    apply replace_char_chars in H1. destruct H1 as [[H1 Hne]|H1].
    + left. split; [assumption|]. simpl. intros [E|E]; [congruence|contradiction].
    + right. destruct v as [d|]; simpl in H1.
      * left. pose proof (to_string_digits d) as F. rewrite Forall_forall in F.
        now apply F.
      * right. destruct H1 as [<-|[]]. reflexivity.
Qed.

Lemma toUpperCase_chars (s : string) (x : ascii) :
  In x (chars_of (toUpperCase s)) ->
  exists c, In c (chars_of s) /\ x = char_toUpperCase c.
Proof.
  induction s as [|c s IH]; simpl; [contradiction|].
  intros [<-|H].
  - exists c. split; [now left|reflexivity].
  - destruct (IH H) as [c' [H1 H2]]. exists c'. split; [now right|assumption].
Qed.

Lemma equation_char_upper (c : ascii) :
  equation_char c = true ->
  is_letter (char_toUpperCase c) = true \/ text_char (char_toUpperCase c) = true.
Proof.
  destruct c as [[] [] [] [] [] [] [] []]; vm_compute; intros H;
    try discriminate; auto.
Qed.

(** C8, as the code has it, for an equation made of letters and of the
    characters [+], [*] and [=]: [solve_general] tries the assignments in
    the order of its permutations and stops at the first whose text the
    evaluator does not find false.  When the text evaluates to a true
    value it reports that assignment and nothing else; when the evaluator
    throws it ends with the exception and reports nothing.  So it reports
    at most one assignment, and the one it reports satisfies the
    expression.  The texts it evaluates are made of digits, commas and the
    characters [+], [*] and [=]. *)
Theorem general_reports_one (eval : string -> option bool) (expression : string) :
  Forall (fun c => equation_char c = true) (chars_of expression) ->
  solve_general eval expression
  = first_report
      (general_stops (fun values => eval (general_text expression values)))
      (general_event_of (fun values => eval (general_text expression values))
                        (general_report expression))
      (tried (List.length (make_letters (toUpperCase expression))))
  /\ List.length (solve_general eval expression) <= 1
  /\ Forall (fun event =>
               match event with
               | Good m text =>
                   text = substitute_values (toUpperCase expression) m
                   /\ eval text = Some true
               | Threw => True
               end)
            (solve_general eval expression)
  /\ forall values,
       Forall (fun c => text_char c = true) (chars_of (general_text expression values)).
Proof.
  intros Hchars. rewrite solve_general_first_event.
  set (P := general_stops (fun values => eval (general_text expression values))).
  set (rep := general_event_of (fun values => eval (general_text expression values))
                               (general_report expression)).
  split; [reflexivity|].
  unfold first_report. split; [|split].
  - destruct (find P (tried (List.length (make_letters (toUpperCase expression)))));
      simpl; lia.
  - destruct (find P (tried (List.length (make_letters (toUpperCase expression)))))
      as [values|]; [|constructor].
    constructor; [|constructor].
    unfold rep, general_event_of, general_report.
    destruct (eval (general_text expression values)) as [[|]|] eqn:E; [|exact I|exact I].
    split; [reflexivity|exact E].
  - intros values. apply Forall_forall. intros x Hx.
    unfold general_text in Hx. apply substitute_values_chars in Hx.
    destruct Hx as [[H1 H2]|[H| ->]].
    + destruct (toUpperCase_chars _ _ H1) as [c [Hc ->]].
      rewrite Forall_forall in Hchars.
      destruct (equation_char_upper _ (Hchars c Hc)) as [L|T]; [exfalso|exact T].
      apply H2, make_mapping_keys. unfold make_letters.
      destruct (@make_letters_fold (chars_of (toUpperCase expression)) [] (NoDup_nil _))
        as [_ I].
      apply I. right. split; assumption.
    + unfold text_char. now rewrite H.
    + reflexivity.
Qed.

(** ** SEND + MORE = MONEY *)

(** C5: whatever the callback returns, it is invoked once, with the
    classical solution, which reads 9567 + 1085 = 10652; with a callback
    that returns nothing the count returned is 1. *)
Theorem send_more_money_unique (callback : sink) :
  option_map fst (solve_singleop other power 4 send_more_money "+" callback)
  = Some [send_more_money_call]
  /\ solve_singleop other power 4 send_more_money "+" (fun _ _ _ => JUndefined)
     = Some ([send_more_money_call], Return (JNumber (Finite 1%Z)))
  /\ map (fun letter => get Ascii.eqb letter classical)
         ["O"; "M"; "Y"; "E"; "N"; "D"; "R"; "S"]%char
     = map Some [0; 1; 2; 5; 6; 7; 8; 9]
  /\ map (fun word => decimal (substitute word classical)) send_more_money
     = [Some 9567; Some 1085; Some 10652]%Z
  /\ (9567 + 1085 = 10652)%Z.
Proof.
  split; [vm_compute; reflexivity|].
  split; [vm_compute; reflexivity|].
  repeat split; reflexivity.
Qed.

(** ** A column that cannot be completed *)

Lemma forEach_zero {A} (array : list A) (f : A -> comp jsval) :
  (forall x, In x array -> f x = Some ([], Return (JNumber (Finite 0%Z)))) ->
  forEach array (fun num_hits x => bind (f x) (fun h => ret (add num_hits (ToNumber h))))
          (Finite 0%Z) = Some ([], Return (Finite 0%Z)).
Proof.
  induction array as [|x array IH]; intros Hf; [reflexivity|].
  cbn [forEach]. rewrite (Hf x (or_introl eq_refl)).
  cbn [bind ret ToNumber app]. rewrite add_zero.
  now rewrite (IH (fun y Hy => Hf y (or_intror Hy))).
Qed.

(** When ten distinct letters stand in a column and each of them starts a
    word, the nine digits other than 0 do not suffice: [do_layer] runs out
    of values before it reaches the check, whatever the operation. *)
Lemma do_layer_exhausted (fuel : nat) (words : list string) (operation : string)
      (len : nat) (letters : list ascii) :
  len <> 0 ->
  (forall c, In c (column words len) -> any words (first_is c) = true) ->
  NoDup letters -> incl letters (column words len) -> List.length letters = 10 ->
  forall m callback check_len,
    well_formed words m -> incl (keys m) (column words len) ->
    missing_count words len m < fuel ->
    do_layer other power fuel words operation len m callback check_len
    = Some ([], Return (JNumber (Finite 0%Z))).
Proof.
  intros Hlen Hlead Hnd Hincl Hten.
  revert operation.
  induction fuel as [|fuel IH]; intros operation m callback check_len Hwf Hk Hf; [lia|].
  rewrite do_layer_eq.
  apply Nat.eqb_neq in Hlen. rewrite Hlen.
  destruct (missing_letter words len m) as [char|] eqn:M.
  - destruct (@missing_letter_some words len m char M) as [Hfresh Hc].
    rewrite (@forEach_zero nat (get_possible_values char words m)
               (fun value => do_layer other power fuel words (default_operation operation) len
                               (set Ascii.eqb m char value) callback
                               (default_check_len check_len len))).
    + reflexivity.
    + intros v Hv. apply IH.
      * now apply well_formed_set.
      * rewrite set_fresh by assumption. unfold keys. rewrite map_app.
        apply incl_app; [assumption|]. intros x [<-|[]]. assumption.
      * pose proof (missing_count_set_lt words len m v M). lia.
  - exfalso.
    assert (H10 : 10 <= List.length m).
    { rewrite <- Hten, <- (length_map fst m). apply NoDup_incl_length; [assumption|].
      intros c Hc. apply has_key_keys.
      apply (@missing_letter_none words len m c M). now apply Hincl. }
    destruct Hwf as [_ Hdig Hrange Hzero].
    assert (H9 : incl (map snd m) [1; 2; 3; 4; 5; 6; 7; 8; 9]).
    { intros v Hv. apply in_map_iff in Hv. destruct Hv as [[c v'] [<- Hin]].
      rewrite Forall_forall in Hrange, Hzero.
      pose proof (Hrange _ Hin) as Hr. pose proof (Hzero _ Hin) as Hz.
      cbn [fst snd] in *.
      assert (v' <> 0).
      { apply Hz, Hlead, Hk. unfold keys.
        change c with (fst (c, v')). now apply in_map. }
      simpl. lia. }
    pose proof (NoDup_incl_length Hdig H9) as H. rewrite length_map in H.
    simpl in H. lia.
Qed.

(** ** The outcome of every call *)

(** With more fuel than there are words, [solve_singleop] ends: it throws or
    it returns. *)
Lemma solve_singleop_total
      (fuel : nat) (words : list string) (operation : string) (callback : sink) :
  List.length words < fuel ->
  exists cs r, solve_singleop other power fuel words operation callback = Some (cs, r).
Proof.
  intros Hf. destruct (valid_puzzle words) eqn:V.
  - destruct (String.eqb_spec operation EmptyString) as [E0|N0].
    { destruct (@solve_singleop_counts fuel words operation callback V
                  (or_introl E0) Hf) as [cs [n [H _]]]. eauto. }
    destruct (String.eqb_spec operation "+") as [E1|N1].
    { destruct (@solve_singleop_counts fuel words operation callback V
                  (or_intror (or_introl E1)) Hf) as [cs [n [H _]]]. eauto. }
    destruct (String.eqb_spec operation "*") as [E2|N2].
    { destruct (@solve_singleop_counts fuel words operation callback V
                  (or_intror (or_intror E2)) Hf) as [cs [n [H _]]]. eauto. }
    destruct (@solve_singleop_unsupported fuel words operation callback V
                (conj N0 (conj N1 N2)) Hf) as [[H|H] _]; eauto.
  - destruct (solve_singleop_invalid fuel words operation callback V) as [e [H _]].
    unfold throw in H. eauto.
Qed.


(** C2: [solve_singleop] ends, and every mapping it handed to the callback,
    as every mapping the search builds on its way, gives distinct digits to
    distinct letters. *)
Theorem digits_pairwise_distinct
        (fuel : nat) (words : list string) (operation : string) (callback : sink) :
  List.length words < fuel ->
  exists cs r,
    solve_singleop other power fuel words operation callback = Some (cs, r)
    /\ (forall c, In c cs ->
                  search_state (map toUpperCase words) (call_mapping c)
                  /\ injective (call_mapping c))
    /\ (forall m, search_state (map toUpperCase words) m -> injective m).
Proof.
  intros Hf.
  destruct (@solve_singleop_total fuel words operation callback Hf) as [cs [r H]].
  exists cs, r. split; [exact H|]. exact (@calls_injective fuel words operation callback cs r H).
Qed.

(** C3: [solve_singleop] ends, and in every mapping it handed to the
    callback the first letter of every word, one-letter words included, is
    bound to a digit that is not 0. *)
Theorem no_leading_zero
        (fuel : nat) (words : list string) (operation : string) (callback : sink) :
  List.length words < fuel ->
  exists cs r,
    solve_singleop other power fuel words operation callback = Some (cs, r)
    /\ forall c, In c cs ->
         forall word char rest,
           In word (map toUpperCase words) -> word = String char rest ->
           exists d, get Ascii.eqb char (call_mapping c) = Some d /\ d <> 0.
Proof.
  intros Hf.
  destruct (@solve_singleop_total fuel words operation callback Hf) as [cs [r H]].
  exists cs, r. split; [exact H|]. exact (@calls_no_leading_zero fuel words operation callback cs r H).
Qed.


(** C7, as the code has it: the operation is tested inside [check_equal],
    and an empty operation is read as [+].  On a valid puzzle, an operation
    that is not empty and is neither [+] nor [*] never lets the callback be
    invoked: [solve_singleop] throws the invalid-operation error at the
    first check, or returns 0 when no check is reached; it throws whenever
    the units column has at most nine distinct letters. *)
Theorem unsupported_operator
        (fuel : nat) (words : list string) (operation : string) (callback : sink) :
  valid_puzzle words = true ->
  unsupported operation ->
  List.length words < fuel ->
  (solve_singleop other power fuel words operation callback
   = Some ([], Throw (InvalidOperation operation))
   \/ solve_singleop other power fuel words operation callback
      = Some ([], Return (JNumber (Finite 0%Z))))
  /\ ((forall l, NoDup l -> incl l (column (map toUpperCase words) 1) ->
                 List.length l <= 9) ->
      solve_singleop other power fuel words operation callback
      = Some ([], Throw (InvalidOperation operation))).
Proof. apply solve_singleop_unsupported. Qed.

End Properties.

(** * Further properties *)

(** ** Substitution, character by character *)

Lemma append_assoc (a b c : string) : ((a ++ b) ++ c = a ++ (b ++ c))%string.
Proof. induction a as [|x a IH]; simpl; [reflexivity|now rewrite IH]. Qed.

Lemma append_nil_r (a : string) : (a ++ EmptyString)%string = a.
Proof. induction a as [|x a IH]; simpl; [reflexivity|now rewrite IH]. Qed.

Lemma replace_char_app (old : ascii) (new a b : string) :
  replace_char old new (a ++ b)
  = (replace_char old new a ++ replace_char old new b)%string.
Proof.
  induction a as [|x a IH]; simpl; [reflexivity|].
  rewrite IH. destruct (Ascii.eqb x old); [now rewrite append_assoc|reflexivity].
Qed.

Lemma substitute_app (a b : string) (m : mapping) :
  substitute (a ++ b) m = (substitute a m ++ substitute b m)%string.
Proof.
  revert a b. induction m as [|kv m IH]; intros a b; [reflexivity|].
  now rewrite !substitute_cons, replace_char_app, IH.
Qed.

Lemma expand_app (f : ascii -> string) (a b : string) :
  expand f (a ++ b) = (expand f a ++ expand f b)%string.
Proof.
  induction a as [|x a IH]; simpl; [reflexivity|now rewrite IH, append_assoc].
Qed.

Lemma expand_unchanged (f : ascii -> string) (s : string) :
  (forall c, In c (chars_of s) -> f c = String c EmptyString) -> expand f s = s.
Proof.
  induction s as [|x s IH]; intros H; simpl; [reflexivity|].
  rewrite (H x) by now left. simpl. rewrite IH; [reflexivity|].
  intros c Hc. apply H. now right.
Qed.

Lemma get_not_key (m : mapping) (c : ascii) :
  ~ In c (keys m) -> get Ascii.eqb c m = None.
Proof.
  induction m as [|[k v] m IH]; intros H; simpl; [reflexivity|].
  destruct (Ascii.eqb_spec k c) as [->|Hne].
  - exfalso. apply H. now left.
  - apply IH. intros Hin. apply H. now right.
Qed.

Lemma render_digit (m : mapping) (c : ascii) :
  (forall k, In k (keys m) -> is_digit k = false) ->
  is_digit c = true -> render m c = String c EmptyString.
Proof.
  intros Hk Hc. unfold render. rewrite get_not_key; [reflexivity|].
  intros Hin. apply Hk in Hin. congruence.
Qed.

Lemma expand_replace_char (k : ascii) (v : nat) (m : mapping) (s : string) :
  (forall k', In k' (keys m) -> is_digit k' = false) ->
  expand (render m) (replace_char k (to_string v) s) = expand (render ((k, v) :: m)) s.
Proof.
  intros Hk. induction s as [|x s IH]; [reflexivity|].
  cbn [replace_char expand].
  assert (R : render ((k, v) :: m) x = if Ascii.eqb x k then to_string v else render m x).
  { unfold render. cbn [get]. rewrite Ascii.eqb_sym. destruct (Ascii.eqb x k); reflexivity. }
  rewrite R. destruct (Ascii.eqb x k).
  - rewrite expand_app, IH. f_equal.
    apply expand_unchanged. intros c Hc. apply render_digit; [assumption|].
    pose proof (to_string_digits v) as F. rewrite Forall_forall in F. now apply F.
  - cbn [expand]. now rewrite IH.
Qed.

Lemma substitute_expand (s : string) (m : mapping) :
  (forall k, In k (keys m) -> is_digit k = false) ->
  substitute s m = expand (render m) s.
Proof.
  revert s. induction m as [|[k v] m IH]; intros s Hk.
  - symmetry. apply expand_unchanged. reflexivity.
  - rewrite substitute_cons. simpl fst; simpl snd.
    rewrite IH by (intros k' Hin; apply Hk; now right).
    apply expand_replace_char. intros k' Hin. apply Hk. now right.
Qed.

Section Windows.
(** The engine's reading of the strings that are not all digits and its
    powers of ten above [10 ^ 22]: any. *)
Variable other : string -> number.
Variable power : powers.

(** ** The last columns of an exact equation *)

Lemma parse_digits_app (a b : string) :
  forall acc,
    parse_digits acc (a ++ b)
    = match parse_digits acc a with
      | Some v => parse_digits v b
      | None => None
      end.
Proof.
  induction a as [|c a IH]; intros acc; simpl; [reflexivity|].
  destruct (digit_of c); [apply IH|reflexivity].
Qed.

Lemma parse_digits_shift (b : string) :
  forall acc,
    parse_digits acc b
    = option_map (fun x => acc * 10 ^ Z.of_nat (String.length b) + x)%Z (decimal b).
Proof.
  unfold decimal.
  induction b as [|c b IH]; intros acc.
  - simpl. f_equal. lia.
  - cbn [parse_digits String.length]. destruct (digit_of c) as [d|]; [|reflexivity].
    rewrite (IH (10 * acc + d)%Z), (IH (10 * 0 + d)%Z).
    destruct (parse_digits 0 b) as [x|]; [|reflexivity].
    cbn [option_map]. f_equal. rewrite Nat2Z.inj_succ, Z.pow_succ_r by lia. ring.
Qed.

Lemma decimal_suffix (a b : string) (v : Z) :
  decimal (a ++ b) = Some v ->
  decimal b = Some (v mod 10 ^ Z.of_nat (String.length b))%Z.
Proof.
  unfold decimal. rewrite parse_digits_app.
  destruct (parse_digits 0 a) as [x|] eqn:A; [|discriminate].
  rewrite parse_digits_shift. fold (decimal b).
  destruct (decimal b) as [y|] eqn:B; [|discriminate].
  cbn [option_map]. intros H. injection H as <-.
  apply decimal_bounds in B. f_equal.
  rewrite Z.add_comm, Z_mod_plus_full. symmetry. now apply Z.mod_small.
Qed.

Lemma substring_split (s : string) :
  forall n, n <= String.length s ->
            s = (substring 0 n s ++ substring n (String.length s - n) s)%string.
Proof.
  induction s as [|c s IH]; intros n Hn.
  - destruct n; reflexivity.
  - destruct n as [|n].
    + cbn [substring append Nat.sub String.length]. now rewrite substring_all.
    + cbn [substring append Nat.sub String.length]. f_equal. apply IH.
      simpl in Hn. lia.
Qed.

Lemma length_substring (s : string) :
  forall n m, n + m <= String.length s -> String.length (substring n m s) = m.
Proof.
  induction s as [|c s IH]; intros n m H.
  - simpl in H. destruct n, m; try reflexivity; lia.
  - destruct n as [|n].
    + destruct m as [|m]; [reflexivity|]. cbn [substring String.length].
      f_equal. apply IH. simpl in H. lia.
    + cbn [substring]. apply IH. simpl in H. lia.
Qed.

(** The value of the last [len] characters of a word is the word's value
    modulo [10 ^ len]. *)
Lemma truncated_value (s : mapping) (word : string) (len : nat) (v : Z) :
  Forall (fun kv => snd kv <= 9) s ->
  decimal (substitute word s) = Some v ->
  decimal (substitute (substring_from (String.length word - len) word) s)
  = Some (v mod 10 ^ Z.of_nat len)%Z.
Proof.
  intros Hs Hv.
  destruct (Nat.le_gt_cases (String.length word) len) as [Hle|Hgt].
  - rewrite substring_from_whole by assumption. rewrite Hv. f_equal.
    apply decimal_bounds in Hv. rewrite substitute_length in Hv by assumption.
    assert (10 ^ Z.of_nat (String.length word) <= 10 ^ Z.of_nat len)%Z
      by (apply Z.pow_le_mono_r; lia).
    symmetry. apply Z.mod_small. lia.
  - unfold substring_from.
    replace (String.length word - (String.length word - len)) with len by lia.
    rewrite (@substring_split word (String.length word - len)) in Hv by lia.
    replace (String.length word - (String.length word - len)) with len in Hv by lia.
    rewrite substitute_app in Hv. apply decimal_suffix in Hv.
    rewrite substitute_length in Hv by assumption.
    rewrite length_substring in Hv by lia. exact Hv.
Qed.

Lemma expand_ext (f g : ascii -> string) (s : string) :
  (forall c, In c (chars_of s) -> f c = g c) -> expand f s = expand g s.
Proof.
  induction s as [|x s IH]; intros H; simpl; [reflexivity|].
  rewrite (H x) by now left. f_equal. apply IH. intros c Hc. apply H. now right.
Qed.

Lemma substitute_agree (m1 m2 : mapping) (s : string) :
  (forall k, In k (keys m1) -> is_digit k = false) ->
  (forall k, In k (keys m2) -> is_digit k = false) ->
  (forall c, In c (chars_of s) -> get Ascii.eqb c m1 = get Ascii.eqb c m2) ->
  substitute s m1 = substitute s m2.
Proof.
  intros H1 H2 H. rewrite !substitute_expand by assumption.
  apply expand_ext. intros c Hc. unfold render. now rewrite H.
Qed.

Lemma suffix_columns (words : list string) (word : string) (len : nat) (c : ascii) :
  In word words ->
  In c (chars_of (substring_from (String.length word - len) word)) ->
  exists k, 1 <= k <= len /\ In c (column words k).
Proof.
  intros Hw Hc. apply In_chars_get in Hc. destruct Hc as [i [Hi Hg]].
  unfold substring_from in *.
  set (n := String.length word - len) in *.
  assert (Hlen : String.length (substring n (String.length word - n) word)
                 = String.length word - n) by (apply length_substring; lia).
  rewrite Hlen in Hi.
  rewrite substring_correct1 in Hg by assumption.
  exists (String.length word - (i + n)). split; [lia|].
  apply column_In with (word := word); [assumption|lia|].
  replace (String.length word - (String.length word - (i + n))) with (i + n) by lia.
  exact Hg.
Qed.

Lemma within_keys (s m : mapping) (k : ascii) :
  letter_keys s -> within s m -> In k (keys m) -> is_digit k = false.
Proof.
  intros Hs Hw Hk. unfold keys in Hk. apply in_map_iff in Hk.
  destruct Hk as [[c v] [<- Hin]]. apply Hw in Hin. apply get_In in Hin.
  unfold letter_keys in Hs. rewrite Forall_forall in Hs.
  apply letter_not_digit. exact (Hs _ Hin).
Qed.

Lemma letter_keys_digit (s : mapping) (k : ascii) :
  letter_keys s -> In k (keys s) -> is_digit k = false.
Proof.
  intros Hs Hk. unfold keys in Hk. apply in_map_iff in Hk.
  destruct Hk as [kv [<- Hin]].
  unfold letter_keys in Hs. rewrite Forall_forall in Hs.
  apply letter_not_digit. exact (Hs _ Hin).
Qed.

Lemma within_get (s m : mapping) (c : ascii) :
  within s m -> has_key Ascii.eqb c m = true -> get Ascii.eqb c m = get Ascii.eqb c s.
Proof.
  intros Hw Hk. apply has_key_keys, keys_get in Hk. destruct Hk as [d Hd].
  rewrite Hd. symmetry. apply Hw. now apply get_In.
Qed.

Lemma sum_mod (p : Z) (vs : list Z) :
  (sum (map (fun v => v mod p) vs) mod p = sum vs mod p)%Z.
Proof.
  unfold sum. induction vs as [|v vs IH]; [reflexivity|].
  cbn [map fold_right].
  rewrite Zplus_mod, Zmod_mod, IH, <- Zplus_mod. reflexivity.
Qed.

Lemma product_mod (p : Z) (vs : list Z) :
  (product (map (fun v => v mod p) vs) mod p = product vs mod p)%Z.
Proof.
  unfold product. induction vs as [|v vs IH]; [reflexivity|].
  cbn [map fold_right].
  rewrite Zmult_mod, Zmod_mod, IH, <- Zmult_mod. reflexivity.
Qed.

Lemma last_In {A} (l : list A) (d : A) : l <> [] -> In (last l d) l.
Proof.
  intros Hne. destruct (@exists_last _ l Hne) as [l' [x E]].
  rewrite E, last_last. apply in_or_app. right. now left.
Qed.

(** The words cut to their last [len] characters read, under a mapping that
    agrees with a solution on the letters of those columns, as the words'
    values modulo [10 ^ len]. *)
Lemma truncated_values (words : list string) (s m : mapping) (len : nat) :
  letter_keys s -> Forall (fun kv => snd kv <= 9) s -> total_on words s ->
  within s m -> bound_upto words len m ->
  forall l vs,
    incl l words ->
    map (fun word => decimal (substitute word s)) l = map Some vs ->
    map (fun word => Number other (substitute word m))
        (map (fun elt => substring_from (String.length elt - len) elt) l)
    = map of_integer (map (fun v => v mod 10 ^ Z.of_nat len)%Z vs).
Proof.
  intros Hk Hs Ht Hw Hb.
  induction l as [|w l IH]; intros vs Hincl Hv.
  - destruct vs; [reflexivity|discriminate].
  - destruct vs as [|v vs]; [discriminate|]. cbn [map] in *.
    injection Hv as Hv Hvs.
    rewrite (IH vs) by (try assumption; intros x Hx; apply Hincl; now right).
    f_equal.
    assert (Hin : In w words) by (apply Hincl; now left).
    assert (E : substitute (substring_from (String.length w - len) w) m
                = substitute (substring_from (String.length w - len) w) s).
    { apply substitute_agree.
      - intros k Hin'. exact (@within_keys s m k Hk Hw Hin').
      - intros k Hin'. now apply letter_keys_digit with (s := s).
      - intros c Hc. apply within_get; [assumption|].
        destruct (@suffix_columns words w len c Hin Hc) as [k [Hk1 Hk2]].
        exact (Hb k c Hk1 Hk2). }
    rewrite E.
    pose proof (@truncated_value s w len v Hs Hv) as Hd.
    destruct (@Number_digits other (substitute (substring_from (String.length w - len) w) s))
      as [x [Hx1 Hx2]].
    { apply substitute_digits. intros c Hc. left.
      destruct (@suffix_columns words w len c Hin Hc) as [k [_ Hk2]].
      unfold column in Hk2. apply in_flat_map in Hk2.
      destruct Hk2 as [w' [Hw' Hc']].
      destruct (k <=? String.length w'); [|contradiction].
      destruct (String.get (String.length w' - k) w') as [c'|] eqn:G; [|contradiction].
      destruct Hc' as [->|[]].
      apply (Ht w' c Hw'). clear - G.
      revert G. generalize (String.length w' - k). induction w' as [|y w' IH]; intros n G.
      - discriminate.
      - destruct n as [|n]; simpl in G.
        + injection G as ->. now left.
        + right. exact (IH n G). }
    congruence.
Qed.

(** The values of words under a mapping of digits are below
    [10 ^ maxlen]. *)
Lemma values_bounds (words : list string) (s : mapping) :
  Forall (fun kv => snd kv <= 9) s ->
  forall l vs,
    incl l words ->
    map (fun word => decimal (substitute word s)) l = map Some vs ->
    Forall (fun v => 0 <= v < 10 ^ Z.of_nat (maxlen words))%Z vs.
Proof.
  intros Hs. induction l as [|w l IH]; intros vs Hincl Hv.
  - destruct vs; [constructor|discriminate].
  - destruct vs as [|v vs]; [discriminate|]. cbn [map] in Hv.
    injection Hv as Hv Hvs. constructor.
    + apply decimal_bounds in Hv. rewrite substitute_length in Hv by assumption.
      pose proof (@maxlen_ge words w (Hincl w (or_introl eq_refl))).
      assert (10 ^ Z.of_nat (String.length w) <= 10 ^ Z.of_nat (maxlen words))%Z
        by (apply Z.pow_le_mono_r; lia).
      lia.
    + apply IH; [|assumption]. intros x Hx. apply Hincl. now right.
Qed.

(** In the exact range, a mapping that agrees with a solution on the
    letters of the last [len] columns passes the check of that window. *)
Lemma check_equal_window_sound
        (words : list string) (operation : string) (s m : mapping) (len : nat) :
  2 <= List.length words ->
  large_powers power ->
  exact_range words operation ->
  solution words operation s ->
  within s m ->
  bound_upto words len m ->
  len <> 0 ->
  check_equal other power words operation len m = Return true.
Proof.
  intros Hn Hp Hr [Hk [Hwf [Ht [vs [r [Hvs [Hr' Hop]]]]]]] Hw Hb Hlen.
  assert (Hne : words <> []) by (destruct words; [simpl in Hn; lia|discriminate]).
  pose proof (wf_range Hwf) as Hs.
  assert (P : (0 < 10 ^ Z.of_nat len)%Z) by (apply Z.pow_pos_nonneg; lia).
  assert (Hmod : forall l, Forall (fun v => 0 <= v < 10 ^ Z.of_nat (maxlen words))%Z l ->
                           Forall (fun v => 0 <= v < 10 ^ Z.of_nat (maxlen words))%Z
                                  (map (fun v => v mod 10 ^ Z.of_nat len)%Z l)).
  { intros l F. rewrite Forall_forall in *. intros x Hx.
    apply in_map_iff in Hx. destruct Hx as [v [<- Hv]]. specialize (F v Hv).
    pose proof (Z.mod_pos_bound v _ P). pose proof (Z.mod_le v _ ltac:(lia) P). lia. }
  pose proof (@values_bounds words s Hs (removelast words) vs
                ltac:(intros x Hx; now apply In_removelast) Hvs) as Bvs.
  pose proof (@values_bounds words s Hs [last words EmptyString] [r]
                ltac:(intros x [<-|[]]; now apply last_In)
                ltac:(cbn [map]; now rewrite Hr')) as Br.
  rewrite (@check_equal_values other power words operation len m
             (map (fun v => v mod 10 ^ Z.of_nat len)%Z vs) (r mod 10 ^ Z.of_nat len)%Z);
    try assumption.
  - destruct Hop as [[-> <-]|[-> <-]]; cbn [String.eqb Ascii.eqb Bool.eqb].
    + now rewrite sum_mod, Z.eqb_refl.
    + now rewrite product_mod, Z.eqb_refl.
  - apply (@truncated_values words s m len Hk Hs Ht Hw Hb (removelast words) vs);
      [intros x Hx; now apply In_removelast|assumption].
  - pose proof (@truncated_values words s m len Hk Hs Ht Hw Hb [last words EmptyString] [r])
      as Hd.
    cbn [map] in Hd. rewrite Hr' in Hd.
    specialize (Hd ltac:(intros x [<-|[]]; now apply last_In) eq_refl).
    now injection Hd.
  - change (Forall (fun v => 0 <= v < 10 ^ Z.of_nat (maxlen words))%Z
              (map (fun v => v mod 10 ^ Z.of_nat len)%Z (r :: vs))).
    apply Hmod. inversion Br; subst. now constructor.
Qed.

(** ** Every solution is reported *)

Lemma column_beyond (words : list string) (k : nat) :
  maxlen words < k -> column words k = [].
Proof.
  intros H. unfold column.
  assert (F : forall w, In w words -> String.length w < k).
  { intros w Hw. pose proof (@maxlen_ge words w Hw). lia. }
  clear H. induction words as [|w ws IH]; [reflexivity|].
  cbn [flat_map]. rewrite IH by (intros; apply F; now right).
  specialize (F w (or_introl eq_refl)).
  apply Nat.leb_gt in F. now rewrite F.
Qed.

Lemma bound_upto_beyond (words : list string) (len : nat) (m : mapping) :
  maxlen words <= len -> bound_upto words (maxlen words) m -> bound_upto words len m.
Proof.
  intros Hle Hb k c Hk Hin.
  destruct (Nat.le_gt_cases k (maxlen words)) as [H|H].
  - apply (Hb k c); [lia|assumption].
  - rewrite column_beyond in Hin by assumption. contradiction.
Qed.

Lemma bind_lift_return {A B} (a : A) (f : A -> comp B) : bind (lift (Return a)) f = f a.
Proof. unfold bind, lift. destruct (f a) as [[cs r]|]; reflexivity. Qed.

Lemma finds_bind_ret {A B} (P : call -> Prop) (c : comp A) (g : A -> B) :
  finds P c -> finds P (bind c (fun a => ret (g a))).
Proof.
  intros [cs [v [call [-> [Hin HP]]]]]. exists cs, (g v), call.
  cbn [bind ret]. rewrite app_nil_r. auto.
Qed.

Lemma forEach_returns {A} (array : list A) (f : A -> comp jsval) :
  (forall x, In x array -> exists cs v, f x = Some (cs, Return v)) ->
  forall a, exists cs a',
      forEach array (fun num_hits x => bind (f x) (fun h => ret (add num_hits (ToNumber h)))) a
      = Some (cs, Return a').
Proof.
  induction array as [|x array IH]; intros Hf a.
  - exists [], a. reflexivity.
  - destruct (Hf x (or_introl eq_refl)) as [cs1 [v1 H1]].
    destruct (IH (fun y Hy => Hf y (or_intror Hy)) (add a (ToNumber v1))) as [cs2 [a' H2]].
    exists (cs1 ++ cs2), a'. cbn [forEach]. rewrite H1. cbn [bind ret].
    rewrite H2, app_nil_r. reflexivity.
Qed.

Lemma forEach_finds {A} (P : call -> Prop) (array : list A) (f : A -> comp jsval) (d : A) :
  (forall x, In x array -> exists cs v, f x = Some (cs, Return v)) ->
  In d array -> finds P (f d) ->
  forall a,
    finds P (forEach array
               (fun num_hits x => bind (f x) (fun h => ret (add num_hits (ToNumber h)))) a).
Proof.
  induction array as [|x array IH]; intros Hf Hd HP a; [contradiction|].
  destruct (Hf x (or_introl eq_refl)) as [cs1 [v1 H1]].
  cbn [forEach]. rewrite H1. cbn [bind ret]. rewrite app_nil_r.
  destruct Hd as [->|Hd].
  - destruct HP as [cs [v [call [H [Hin Hc]]]]].
    rewrite H1 in H. injection H as <- <-.
    destruct (@forEach_returns A array f (fun y Hy => Hf y (or_intror Hy))
                (add a (ToNumber v1))) as [cs2 [a' H2]].
    rewrite H2. exists (cs1 ++ cs2), a', call.
    split; [reflexivity|]. split; [apply in_or_app; now left|assumption].
  - destruct (IH (fun y Hy => Hf y (or_intror Hy)) Hd HP (add a (ToNumber v1)))
      as [cs2 [a' [call [H2 [Hin Hc]]]]].
    rewrite H2. exists (cs1 ++ cs2), a', call.
    split; [reflexivity|]. split; [apply in_or_app; now right|assumption].
Qed.

Section Finds.
Variable words : list string.
Variable callback : sink.
Variable s : mapping.
Variable P : call -> Prop.
Hypothesis words_not_nil : words <> [].
Hypothesis s_well_formed : well_formed words s.
Hypothesis s_total : total_on words s.

(** The digit the solution has for a letter of a column is among the values
    [do_layer] tries for it. *)
Lemma solution_value_tried (len : nat) (m : mapping) (char : ascii) :
  within s m ->
  missing_letter words len m = Some char ->
  exists d, get Ascii.eqb char s = Some d
            /\ In d (get_possible_values char words m)
            /\ within s (set Ascii.eqb m char d).
Proof.
  intros Hw Hm.
  destruct (@missing_letter_some words len m char Hm) as [Hfresh Hcol].
  destruct (@column_chars words len char Hcol) as [w [Hin Hc]].
  destruct (@keys_get s char (s_total w char Hin Hc)) as [d Hd].
  pose proof (@get_In s char d Hd) as Hs.
  exists d. split; [assumption|]. split.
  - apply get_possible_values_spec. split; [|split].
    + pose proof (wf_range s_well_formed) as F. rewrite Forall_forall in F.
      exact (F _ Hs).
    + intros Hv. apply in_map_iff in Hv. destruct Hv as [[c' v'] [E Hin']].
      simpl in E. subst v'.
      pose proof (@get_In s c' d (Hw c' d Hin')) as Hs'.
      pose proof (@NoDup_snd_injective s c' char d (wf_digits s_well_formed) Hs' Hs).
      subst c'.
      apply has_key_false_keys in Hfresh. apply Hfresh.
      unfold keys. apply in_map_iff. exists (char, d). auto.
    + pose proof (wf_leading s_well_formed) as F. rewrite Forall_forall in F.
      exact (F _ Hs).
  - rewrite set_fresh by assumption. intros c v Hin'.
    apply in_app_or in Hin'. destruct Hin' as [Hin'|[E|[]]]; [now apply Hw|].
    injection E as <- <-. assumption.
Qed.

Lemma do_layer_finds (fuel : nat) :
  forall operation len m k check_len,
    default_operation operation = "+" \/ default_operation operation = "*" ->
    counting callback k ->
    missing_count words len m < fuel ->
    within s m ->
    (forall m',
        within s m' ->
        (forall c, has_key Ascii.eqb c m = true -> has_key Ascii.eqb c m' = true) ->
        (len <> 0 -> missing_letter words len m' = None) ->
        check_equal other power words (default_operation operation)
                    (default_check_len check_len len) m' = Return true
        /\ forall e p, finds P (k m' e p)) ->
    finds P (do_layer other power fuel words operation len m k check_len).
Proof.
  induction fuel as [|fuel IH]; intros operation len m k check_len Hop Hk Hf Hw Hcb; [lia|].
  rewrite do_layer_eq.
  destruct (if len =? 0 then None else missing_letter words len m) as [char|] eqn:M.
  - assert (Hm : missing_letter words len m = Some char)
      by (destruct (len =? 0); [discriminate|assumption]).
    destruct (@solution_value_tried len m char Hw Hm) as [d [Hd [Hin Hw']]].
    apply finds_bind_ret.
    apply (@forEach_finds nat P (get_possible_values char words m)
             (fun value => do_layer other power fuel words (default_operation operation) len
                             (set Ascii.eqb m char value) k
                             (default_check_len check_len len)) d).
    + intros v _.
      destruct (@do_layer_counts other power words callback words_not_nil fuel
                  (default_operation operation) len (set Ascii.eqb m char v) k
                  (default_check_len check_len len)) as [cs [r [H _]]]; eauto.
      * now rewrite default_operation_idem.
      * pose proof (missing_count_set_lt words len m v Hm). lia.
    + assumption.
    + apply IH; auto.
      * now rewrite default_operation_idem.
      * pose proof (missing_count_set_lt words len m d Hm). lia.
      * rewrite default_operation_idem, default_check_len_idem.
        intros m' Hw2 Hext Hnone. apply Hcb; auto.
        intros c Hc. apply Hext. now apply has_key_set_other.
  - destruct (Hcb m Hw (fun c H => H)) as [Hc Hfin].
    { intros Hlen. apply Nat.eqb_neq in Hlen. now rewrite Hlen in M. }
    rewrite Hc, bind_lift_return. apply finds_bind_ret. apply Hfin.
Qed.

Lemma solve_columns_finds (fuel : nat) :
  forall len operation k check_len,
    1 <= len <= maxlen words ->
    default_operation operation = "+" \/ default_operation operation = "*" ->
    counting callback k ->
    List.length words < fuel ->
    (forall m',
        within s m' -> bound_upto words len m' ->
        check_equal other power words (default_operation operation)
                    (default_check_len check_len len) m' = Return true
        /\ forall e p, finds P (k m' e p)) ->
    (forall len' m', len' <> 0 -> within s m' -> bound_upto words len' m' ->
                     check_equal other power words (default_operation operation) len' m'
                     = Return true) ->
    finds P (solve_columns other power fuel words operation k len [] check_len).
Proof.
  assert (L : forall len m, List.length words < fuel -> missing_count words len m < fuel).
  { intros len m H. pose proof (missing_count_le words len m). lia. }
  induction len as [|len IH]; intros operation k check_len Hlen Hop Hk Hf Hcb Hwin; [lia|].
  rewrite solve_columns_eq.
  destruct len as [|len].
  - rewrite pending_small by lia.
    apply do_layer_finds; auto.
    + now rewrite default_operation_idem.
    + intros c v [].
    + rewrite default_operation_idem, default_check_len_idem.
      intros m' Hw _ Hnone. apply Hcb; [assumption|].
      intros j c Hj Hin. replace j with 1 in Hin by lia.
      apply (@missing_letter_none words 1 m' c); auto.
  - rewrite pending_start by lia.
    apply IH; auto.
    + lia.
    + now rewrite default_operation_idem.
    + intros m' e p.
      destruct (@do_layer_counts other power words callback words_not_nil fuel
                  (default_operation operation) (S (S len)) m' k
                  (default_check_len check_len (S (S len))))
        as [cs [v [H1 H2]]]; auto.
      { now rewrite default_operation_idem. }
      exists cs, v. split; [assumption|]. intros Hex. unfold counted, isNaN.
      now rewrite (H2 Hex).
    + rewrite default_operation_idem. intros m' Hw Hb. split.
      * unfold default_check_len. cbn [Nat.eqb]. apply Hwin; auto.
      * intros _ _. apply do_layer_finds; auto.
        -- now rewrite default_operation_idem.
        -- rewrite default_operation_idem, default_check_len_idem.
           intros m'' Hw' Hext Hnone. apply Hcb; [assumption|].
           intros j c Hj Hin.
           destruct (Nat.eq_dec j (S (S len))) as [->|Hne].
           ++ apply (@missing_letter_none words (S (S len)) m'' c); auto.
           ++ apply Hext, (Hb j c); [lia|assumption].
    + rewrite default_operation_idem. exact Hwin.
Qed.
End Finds.

Lemma solve_singleop_complete
      (fuel : nat) (words : list string) (operation : string) (callback : sink)
      (s : mapping) :
  valid_puzzle words = true ->
  operation = EmptyString \/ operation = "+" \/ operation = "*" ->
  List.length words < fuel ->
  large_powers power ->
  exact_range (map toUpperCase words) (default_operation operation) ->
  solution (map toUpperCase words) (default_operation operation) s ->
  exists cs r call,
    solve_singleop other power fuel words operation callback = Some (cs, r)
    /\ In call cs
    /\ forall c, letter_of (map toUpperCase words) c ->
                 get Ascii.eqb c (call_mapping call) = get Ascii.eqb c s.
Proof.
  intros Hv Hop Hf Hp Hr Hs.
  pose proof (@valid_puzzle_not_nil words Hv) as Hne.
  pose proof (@valid_puzzle_maxlen words Hv) as Hmax.
  pose proof (@valid_puzzle_length words Hv) as Hn.
  pose proof Hs as [_ [Hwf [Ht _]]].
  rewrite solve_singleop_valid by assumption.
  set (W := map toUpperCase words) in *.
  destruct (@solve_columns_finds W callback s
              (fun call => within s (call_mapping call)
                           /\ bound_upto W (maxlen W) (call_mapping call))
              Hne Hwf Ht fuel (maxlen W) operation (invoke callback)
              (maxlen W * List.length W))
    as [cs [v [call [H [Hin [Hw Hb]]]]]].
  - lia.
  - now apply default_operation_supported.
  - apply counting_invoke.
  - unfold W. now rewrite length_map.
  - intros m' Hw Hb. split.
    + rewrite default_check_len_product by assumption.
      apply check_equal_window_sound with (s := s); auto.
      * lia.
      * apply bound_upto_beyond; [nia|assumption].
      * nia.
    + intros e p. exists [(m', e, p)], (callback m' e p), (m', e, p).
      split; [reflexivity|]. split; [now left|]. split; assumption.
  - intros len' m' Hlen' Hw Hb. apply check_equal_window_sound with (s := s); auto. lia.
  - exists cs, (Return v), call. split; [assumption|]. split; [assumption|].
    intros c [w [Hw' Hc]]. apply within_get; [assumption|].
    apply has_key_keys. exact (bound_upto_total Hb w c Hw' Hc).
Qed.

End Windows.

Section Helpers.
(** The engine's reading of the strings that are not all digits and its
    powers of ten above [10 ^ 22]: any. *)
Variable other : string -> number.
Variable power : powers.

(** ** Replacing and substituting *)

(** X1: [replace_all] leaves no occurrence of the character it replaces
    when the replacement does not hold it, so that replacing it again
    changes nothing; and replacing a character by itself changes nothing. *)
Theorem replace_all_removes (s : string) (old : ascii) (new : string) :
  ~ In old (chars_of new) ->
  ~ In old (chars_of (replace_all s old new))
  /\ (forall new', replace_all (replace_all s old new) old new' = replace_all s old new)
  /\ replace_all s old (String old EmptyString) = s.
Proof.
  intros Hn.
  assert (H : ~ In old (chars_of (replace_all s old new))).
  { rewrite replace_all_char. intros Hin. apply replace_char_chars in Hin.
    destruct Hin as [[_ H]|H]; [now apply H|now apply Hn]. }
  split; [assumption|]. split.
  - intros new'. rewrite (replace_all_char (replace_all s old new)).
    now apply replace_char_absent.
  - rewrite replace_all_char. clear.
    induction s as [|c s IH]; simpl; [reflexivity|].
    destruct (Ascii.eqb_spec c old) as [->|Hne]; simpl; now rewrite IH.
Qed.

Lemma substitute_concat (sep : string) (l : list string) (m : mapping) :
  substitute (String.concat sep l) m
  = String.concat (substitute sep m) (map (fun word => substitute word m) l).
Proof.
  induction l as [|x l IH]; simpl.
  - unfold substitute. induction m as [|kv m IHm]; [reflexivity|]. simpl.
    now rewrite replace_all_char.
  - destruct l as [|y l]; [reflexivity|].
    rewrite !substitute_app, IH. reflexivity.
Qed.

(** X2: substitution goes through concatenation and through joining, with
    any mapping. *)
Theorem substitute_distributes (a b sep : string) (l : list string) (m : mapping) :
  substitute (a ++ b) m = (substitute a m ++ substitute b m)%string
  /\ substitute (String.concat sep l) m
     = String.concat (substitute sep m) (map (fun word => substitute word m) l).
Proof. split; [apply substitute_app|apply substitute_concat]. Qed.

(** X3: a mapping whose keys are not digits is applied character by
    character: a character that is a key becomes the numeral of its first
    binding and every other character stays; with digits as values the
    length of the string is kept. *)
Theorem substitute_charwise (s : string) (m : mapping) :
  (forall k, In k (keys m) -> is_digit k = false) ->
  substitute s m = expand (render m) s
  /\ (Forall (fun kv => snd kv <= 9) m ->
      String.length (substitute s m) = String.length s).
Proof.
  intros Hk. split; [now apply substitute_expand|apply substitute_length].
Qed.

Lemma last_word_some (words : list string) :
  words <> [] -> last_word words = Some (last words EmptyString).
Proof. destruct words; [congruence|reflexivity]. Qed.

Lemma substitute_no_letter (s : string) (m : mapping) :
  letter_keys m -> (forall c, In c (chars_of s) -> is_letter c = false) ->
  substitute s m = s.
Proof.
  intros Hm Hs. apply substitute_absent. intros k Hk Hin.
  apply Hs in Hin. unfold keys in Hk. apply in_map_iff in Hk.
  destruct Hk as [kv [<- Hkv]].
  unfold letter_keys in Hm. rewrite Forall_forall in Hm.
  apply Hm in Hkv. congruence.
Qed.

(** X4: the expression given to the callback is the operands' numerals
    joined by the operation, then [=], then the numeral of the result. *)
Theorem expression_numerals (words : list string) (operation : string) (m : mapping) :
  words <> [] ->
  letter_keys m ->
  (forall c, In c (chars_of operation) -> is_letter c = false) ->
  substitute (flat_expression words operation) m
  = (String.concat operation (map (fun word => substitute word m) (removelast words))
     ++ "=" ++ substitute (last words EmptyString) m)%string.
Proof.
  intros Hne Hm Hop. unfold flat_expression.
  rewrite last_word_some by assumption.
  rewrite !substitute_app, substitute_concat.
  rewrite (@substitute_no_letter operation m Hm Hop).
  rewrite (@substitute_no_letter "=" m Hm); [reflexivity|].
  intros c [<-|[]]. reflexivity.
Qed.

(** ** The helpers on arrays *)

(** X5: [any] is true exactly when some element satisfies the predicate,
    [all] exactly when every element does, and each is the negation of the
    other on the negated predicate. *)
Theorem any_all_meaning (A : Type) (array : list A) (predicate : A -> bool) :
  (any array predicate = true <-> exists x, In x array /\ predicate x = true)
  /\ (all array predicate = true <-> forall x, In x array -> predicate x = true)
  /\ all array predicate = negb (any array (fun x => negb (predicate x)))
  /\ any array predicate = negb (all array (fun x => negb (predicate x))).
Proof.
  repeat split.
  - induction array as [|x l IH]; simpl; [discriminate|].
    destruct (predicate x) eqn:E; [eauto|].
    intros H. destruct (IH H) as [y [Hy Hp]]. eauto.
  - intros [y [Hy Hp]]. induction array as [|x l IH]; [contradiction|]. simpl.
    destruct (predicate x) eqn:E; [reflexivity|].
    destruct Hy as [->|Hy]; [congruence|auto].
  - induction array as [|x l IH]; simpl; [contradiction|].
    destruct (predicate x) eqn:E; [|discriminate].
    intros H y [<-|Hy]; auto.
  - induction array as [|x l IH]; simpl; [reflexivity|]. intros H.
    rewrite (H x) by now left. apply IH. intros y Hy. apply H. now right.
  - induction array as [|x l IH]; simpl; [reflexivity|].
    destruct (predicate x); simpl; [assumption|reflexivity].
  - induction array as [|x l IH]; simpl; [reflexivity|].
    destruct (predicate x); simpl; [reflexivity|assumption].
Qed.

(** X6: [maxlen] is 0 for no word, no word is longer than it, and some word
    has that length when there is a word. *)
Theorem maxlen_is_maximum (array : list string) :
  maxlen [] = 0
  /\ (forall word, In word array -> String.length word <= maxlen array)
  /\ (array <> [] -> exists word, In word array /\ String.length word = maxlen array).
Proof.
  split; [reflexivity|]. split; [intros word; apply maxlen_ge|].
  intros Hne. destruct (maxlen array) as [|n] eqn:E.
  - destruct array as [|w l]; [congruence|]. exists w. split; [now left|].
    pose proof (@maxlen_ge (w :: l) w (or_introl eq_refl)). lia.
  - rewrite <- E. apply maxlen_attained. lia.
Qed.

(** ** Candidate digits *)

Lemma StronglySorted_filter {A} (R : A -> A -> Prop) (f : A -> bool) (l : list A) :
  StronglySorted R l -> StronglySorted R (filter f l).
Proof.
  induction 1 as [|a l Hs IH Hf]; simpl; [constructor|].
  destruct (f a); [|assumption]. constructor; [assumption|].
  rewrite Forall_forall in *. intros x Hx. apply filter_In in Hx. apply Hf, Hx.
Qed.

Lemma get_possible_values_sorted (char : ascii) (words : list string) (m : mapping) :
  StronglySorted lt (get_possible_values char words m).
Proof.
  unfold get_possible_values. apply StronglySorted_filter.
  assert (H : StronglySorted lt [0; 1; 2; 3; 4; 5; 6; 7; 8; 9]).
  { repeat (constructor; [|repeat constructor; lia]). constructor. }
  destruct (any words (first_is char)); [now apply StronglySorted_filter|assumption].
Qed.

(** X7: the candidates for a letter are exactly the digits 0 to 9 that no
    letter of the mapping has, without 0 when the letter starts a word, in
    increasing order. *)
Theorem possible_values_exact (char : ascii) (words : list string) (m : mapping) :
  (forall v, In v (get_possible_values char words m) <->
             v <= 9 /\ ~ In v (map snd m)
             /\ (any words (first_is char) = true -> v <> 0))
  /\ StronglySorted lt (get_possible_values char words m).
Proof.
  split; [intros v; apply get_possible_values_spec|apply get_possible_values_sorted].
Qed.

Lemma get_nat_set (h : hash nat ascii) (k k' : nat) (c : ascii) :
  get Nat.eqb k' (set Nat.eqb h k c) = if k =? k' then Some c else get Nat.eqb k' h.
Proof.
  induction h as [|[k0 c0] h IH]; simpl.
  - reflexivity.
  - destruct (Nat.eqb_spec k0 k) as [->|Hne]; simpl.
    + destruct (k =? k'); reflexivity.
    + rewrite IH. destruct (Nat.eqb_spec k0 k') as [->|Hne'].
      * apply Nat.eqb_neq in Hne. rewrite Nat.eqb_sym in Hne. now rewrite Hne.
      * reflexivity.
Qed.

Lemma rev_hash_get_gen (m : mapping) (v : nat) :
  forall h,
    get Nat.eqb v (fold_left (fun reverse kv => set Nat.eqb reverse (snd kv) (fst kv)) m h)
    = match last_binding v m with
      | Some c => Some c
      | None => get Nat.eqb v h
      end.
Proof.
  unfold last_binding.
  induction m as [|[c d] m IH]; intros h; [reflexivity|].
  cbn [fold_left rev]. rewrite IH. cbn [fst snd].
  destruct (find (fun kv => snd kv =? v) (rev m)) as [kv|] eqn:F.
  - rewrite (@find_app_some _ _ (rev m) [(c, d)] kv F). reflexivity.
  - rewrite (@find_app_none _ _ (rev m) [(c, d)] F). cbn [find snd option_map].
    rewrite get_nat_set. destruct (d =? v); reflexivity.
Qed.

(** X8: the reversed hash gives for a digit the last letter bound to it,
    and nothing for a digit no letter has. *)
Theorem rev_hash_last_binding (m : mapping) (v : nat) :
  get Nat.eqb v (rev_hash m) = last_binding v m
  /\ (has_key Nat.eqb v (rev_hash m) = true <-> In v (map snd m)).
Proof.
  split; [|apply rev_hash_has_key].
  unfold rev_hash. rewrite rev_hash_get_gen. now destruct (last_binding v m).
Qed.

(** ** The order of the operands *)

Lemma sum_permutation (l l' : list Z) : Permutation l l' -> sum l = sum l'.
Proof.
  unfold sum. induction 1 as [|x l l' H IH|x y l|l l' l'' H1 IH1 H2 IH2]; simpl; lia.
Qed.

Lemma product_permutation (l l' : list Z) : Permutation l l' -> product l = product l'.
Proof.
  unfold product. induction 1 as [|x l l' H IH|x y l|l l' l'' H1 IH1 H2 IH2]; simpl.
  - reflexivity.
  - now rewrite IH.
  - ring.
  - now rewrite IH1.
Qed.

Lemma maxlen_incl (l l' : list string) : incl l l' -> maxlen l <= maxlen l'.
Proof.
  intros H. destruct (Nat.eq_dec (maxlen l) 0) as [E|E]; [lia|].
  destruct (@maxlen_attained l E) as [w [Hw <-]].
  apply maxlen_ge. now apply H.
Qed.

Lemma maxlen_permutation (l l' : list string) :
  Permutation l l' -> maxlen l = maxlen l'.
Proof.
  intros H. apply Nat.le_antisymm; apply maxlen_incl; intros w Hw.
  - now apply (Permutation_in _ H).
  - now apply (Permutation_in _ (Permutation_sym H)).
Qed.

(** Under a mapping of digits that binds every letter, the last [len]
    characters of a word read as a number below [10 ^ maxlen]. *)
Lemma cut_value (words : list string) (m : mapping) (len : nat) (w : string) :
  total_on words m -> Forall (fun kv => snd kv <= 9) m -> In w words ->
  exists t,
    Number other (substitute (substring_from (String.length w - len) w) m) = of_integer t
    /\ decimal (substitute (substring_from (String.length w - len) w) m) = Some t
    /\ (0 <= t < 10 ^ Z.of_nat (maxlen words))%Z.
Proof.
  intros Ht Hm Hw.
  destruct (@Number_digits other (substitute (substring_from (String.length w - len) w) m))
    as [t [H1 H2]].
  { apply substitute_digits. intros c Hc. left.
    destruct (@suffix_columns words w len c Hw Hc) as [k [_ Hk]].
    destruct (@column_chars words k c Hk) as [w' [Hw' Hc']].
    exact (Ht w' c Hw' Hc'). }
  exists t. split; [assumption|]. split; [assumption|].
  apply decimal_bounds in H2. rewrite substitute_length in H2 by assumption.
  unfold substring_from in H2. rewrite length_substring in H2 by lia.
  pose proof (@maxlen_ge words w Hw).
  assert (10 ^ Z.of_nat (String.length w - (String.length w - len))
          <= 10 ^ Z.of_nat (maxlen words))%Z by (apply Z.pow_le_mono_r; lia).
  lia.
Qed.

(** X9: in the range in which binary64 arithmetic is exact, the check of a
    window does not depend on the order of the operands, under a mapping
    that gives a digit to every letter. *)
Theorem check_equal_operand_order
        (operands operands' : list string) (result operation : string) (len : nat)
        (m : mapping) :
  Permutation operands operands' ->
  operands <> [] -> len <> 0 ->
  large_powers power ->
  exact_range (operands ++ [result]) operation ->
  total_on (operands ++ [result]) m ->
  Forall (fun kv => snd kv <= 9) m ->
  check_equal other power (operands ++ [result]) operation len m
  = check_equal other power (operands' ++ [result]) operation len m.
Proof.
  intros HP Hne Hlen Hp Hr Ht Hm.
  pose proof (Permutation_app_tail [result] HP) as HW.
  pose proof (maxlen_permutation HW) as HL.
  pose proof (Permutation_length HW) as Hn.
  set (f := fun w => match decimal (substitute (substring_from (String.length w - len) w) m)
                     with Some v => v | None => 0%Z end).
  assert (G : forall l,
             Permutation (operands ++ [result]) (l ++ [result]) ->
             check_equal other power (l ++ [result]) operation len m
             = if String.eqb operation "+"
               then Return (sum (map f l) mod 10 ^ Z.of_nat len =? f result)%Z
               else if String.eqb operation "*"
                    then Return (product (map f l) mod 10 ^ Z.of_nat len =? f result)%Z
                    else Throw (InvalidOperation operation)).
  { intros l Hl.
    assert (Ht' : total_on (l ++ [result]) m).
    { intros w c Hw Hc. apply (Ht w c); [|assumption].
      now apply (Permutation_in _ (Permutation_sym Hl)). }
    assert (V : forall w, In w (l ++ [result]) ->
                  Number other (substitute (substring_from (String.length w - len) w) m)
                  = of_integer (f w)
                  /\ (0 <= f w < 10 ^ Z.of_nat (maxlen (l ++ [result])))%Z).
    { intros w Hw. destruct (@cut_value (l ++ [result]) m len w Ht' Hm Hw) as [t [H1 [H2 H3]]].
      unfold f. rewrite H2. auto. }
    apply check_equal_values; try assumption.
    - rewrite <- (Permutation_length Hl), length_app. simpl.
      destruct operands; [congruence|simpl; lia].
    - unfold exact_range, largest in *.
      now rewrite <- (maxlen_permutation Hl), <- (Permutation_length Hl).
    - rewrite removelast_last, !map_map. apply map_ext_in. intros w Hw.
      apply V. apply in_or_app. now left.
    - rewrite last_last. apply V. apply in_or_app. right. now left.
    - constructor.
      + apply V. apply in_or_app. right. now left.
      + apply Forall_forall. intros v Hv. apply in_map_iff in Hv.
        destruct Hv as [w [<- Hw]]. apply V. apply in_or_app. now left. }
  rewrite (G operands (Permutation_refl _)), (G operands' HW).
  now rewrite (sum_permutation (Permutation_map f HP)),
    (product_permutation (Permutation_map f HP)).
Qed.

End Helpers.

Section Reports.
(** The engine's reading of the strings that are not all digits and its
    powers of ten above [10 ^ 22]: any. *)
Variable other : string -> number.
Variable power : powers.

(** ** The formatted expression *)






(** ** What the callback is given *)

Lemma search_keys_letters (words : list string) (m : mapping) :
  search_state words m -> forall c, In c (keys m) -> letter_of words c.
Proof.
  induction 1 as [|m len char value Hs IH Hm Hv]; intros c Hc; [contradiction|].
  destruct (@missing_letter_some words len m char Hm) as [Hfresh Hcol].
  rewrite set_fresh in Hc by assumption.
  unfold keys in Hc. rewrite map_app in Hc. apply in_app_or in Hc.
  destruct Hc as [Hc|[<-|[]]]; [now apply IH|].
  now apply column_chars with (len := len).
Qed.

Section Arguments.
Variable words : list string.
Variable Q : call -> Prop.

Lemma do_layer_args (fuel : nat) :
  forall operation len m callback check_len,
    (forall m',
        calls_satisfy Q
          (callback m' (substitute (flat_expression words (default_operation operation)) m')
                    (pretty_expression words (default_operation operation) m'))) ->
    calls_satisfy Q (do_layer other power fuel words operation len m callback check_len).
Proof.
  induction fuel as [|fuel IH]; intros operation len m callback check_len Hcb.
  - intros cs r H. discriminate.
  - rewrite do_layer_eq.
    destruct (if len =? 0 then None else missing_letter words len m) as [char|] eqn:M.
    + apply calls_bind; [|intros; apply calls_ret].
      apply calls_forEach. intros s v Hv.
      apply calls_bind; [|intros; apply calls_ret].
      apply IH. now rewrite default_operation_idem.
    + apply calls_bind; [apply calls_lift|].
      intros [|] cs Hc; [|apply calls_ret].
      apply calls_bind; [|intros; apply calls_ret].
      apply Hcb.
Qed.

Lemma solve_columns_args (fuel : nat) :
  forall len operation callback m check_len,
    (forall m',
        calls_satisfy Q
          (callback m' (substitute (flat_expression words (default_operation operation)) m')
                    (pretty_expression words (default_operation operation) m'))) ->
    calls_satisfy Q (solve_columns other power fuel words operation callback len m check_len).
Proof.
  induction len as [|len IH]; intros operation callback m check_len Hcb;
    rewrite solve_columns_eq.
  - destruct (pending words 0 m); apply do_layer_args;
      now rewrite default_operation_idem.
  - destruct (pending words (S len) m);
      [|apply do_layer_args; now rewrite default_operation_idem].
    apply IH. intros m'. apply do_layer_args. now rewrite default_operation_idem.
Qed.
End Arguments.

Lemma accepted_solution (words : list string) (operation : string) (c : call) :
  valid_puzzle words = true ->
  large_powers power ->
  exact_range (map toUpperCase words) (default_operation operation) ->
  accepted other power (map toUpperCase words) operation c ->
  solution (map toUpperCase words) (default_operation operation) (call_mapping c).
Proof.
  intros Hv Hp Hr Ha.
  pose proof (@valid_puzzle_length words Hv) as Hn.
  pose proof (@valid_puzzle_maxlen words Hv) as HL.
  destruct (@accepted_total other power (map toUpperCase words) operation c Ha)
    as [Hwf Ht].
  assert (He : equation_holds (map toUpperCase words) (default_operation operation)
                              (call_mapping c))
    by (apply (@accepted_exact other power); try assumption; lia).
  destruct Ha as [Hs _].
  split; [|split; [exact Hwf|split; [exact Ht|exact He]]].
  unfold letter_keys. rewrite Forall_forall. intros [k v] Hin.
  destruct (@search_keys_letters (map toUpperCase words) (call_mapping c) Hs k)
    as [w [Hw Hc]].
  { unfold keys. apply in_map_iff. exists (k, v). auto. }
  exact (@valid_puzzle_letters words Hv w k Hw Hc).
Qed.

(** X11: each invocation of the callback is on a mapping whose keys are
    the letters of the words, each once, with the expression and the
    formatted expression of that mapping. *)
Theorem callback_arguments
        (fuel : nat) (words : list string) (operation : string) (callback : sink) :
  List.length words < fuel ->
  exists cs r,
    solve_singleop other power fuel words operation callback = Some (cs, r)
    /\ forall call, In call cs ->
         call = call_of (map toUpperCase words) (default_operation operation)
                        (call_mapping call)
         /\ NoDup (keys (call_mapping call))
         /\ forall c, In c (keys (call_mapping call))
                      <-> letter_of (map toUpperCase words) c.
Proof.
  intros Hf.
  destruct (@solve_singleop_total other power fuel words operation callback Hf) as [cs [r H]].
  exists cs, r. split; [assumption|]. intros call Hin.
  destruct (@solve_singleop_accepts other power fuel words operation callback cs r H)
    as [Hacc Hvalid].
  rewrite Forall_forall in Hacc. specialize (Hacc call Hin).
  assert (Hv : valid_puzzle words = true)
    by (apply Hvalid; intros ->; contradiction).
  split; [|split].
  - rewrite solve_singleop_valid in H by assumption.
    pose proof (@solve_columns_args (map toUpperCase words)
                  (fun call => call = call_of (map toUpperCase words)
                                              (default_operation operation)
                                              (call_mapping call))
                  fuel (maxlen (map toUpperCase words)) operation (invoke callback) []
                  (maxlen (map toUpperCase words) * List.length (map toUpperCase words)))
      as Hargs.
    assert (F : Forall (fun call => call = call_of (map toUpperCase words)
                                                   (default_operation operation)
                                                   (call_mapping call)) cs).
    { apply (Hargs) with (r := r); [|assumption].
      intros m' cs' r' H'. injection H' as <- _.
      constructor; [reflexivity|constructor]. }
    rewrite Forall_forall in F. now apply F.
  - destruct Hacc as [Hs _]. apply search_state_well_formed in Hs. apply Hs.
  - destruct Hacc as [Hs [Hb _]]. intros c. split.
    + now apply search_keys_letters.
    + intros [w [Hw Hc]]. exact (bound_upto_total Hb w c Hw Hc).
Qed.

(** X12: in the range in which binary64 arithmetic is exact, the search
    is sound and complete.  On a valid puzzle with a supported operation,
    the mappings the callback is invoked on are the solutions of the puzzle
    (letters bound to distinct digits, no leading 0, every letter bound,
    the equation exact): they are all different, each is a solution, and
    each solution gives every letter of the words the digit one of them
    gives it. *)
Theorem invocations_are_the_solutions
        (fuel : nat) (words : list string) (operation : string) (callback : sink) :
  valid_puzzle words = true ->
  operation = EmptyString \/ operation = "+" \/ operation = "*" ->
  List.length words < fuel ->
  large_powers power ->
  exact_range (map toUpperCase words) (default_operation operation) ->
  exists cs r,
    solve_singleop other power fuel words operation callback = Some (cs, r)
    /\ NoDup (map call_mapping cs)
    /\ (forall call, In call cs ->
          solution (map toUpperCase words) (default_operation operation)
                   (call_mapping call))
    /\ (forall s,
          solution (map toUpperCase words) (default_operation operation) s ->
          exists call,
            In call cs
            /\ forall c, letter_of (map toUpperCase words) c ->
                         get Ascii.eqb c (call_mapping call) = get Ascii.eqb c s).
Proof.
  intros Hv Hop Hf Hp Hr.
  destruct (@solve_singleop_counts other power fuel words operation callback Hv Hop Hf)
    as [cs [n [H [Hnd _]]]].
  exists cs, (Return (JNumber n)).
  split; [assumption|]. split; [assumption|]. split.
  - intros call Hin.
    destruct (@solve_singleop_accepts other power fuel words operation callback _ _ H)
      as [Hacc _].
    rewrite Forall_forall in Hacc.
    exact (@accepted_solution words operation call Hv Hp Hr (Hacc call Hin)).
  - intros s Hs.
    destruct (@solve_singleop_complete other power fuel words operation callback s
                Hv Hop Hf Hp Hr Hs)
      as [cs' [r' [call [H' [Hin Hg]]]]].
    rewrite H in H'. injection H' as <- _. eauto.
Qed.

(** X13: in the range in which binary64 arithmetic is exact, the check of
    the last columns never rejects a solution: a mapping that agrees with a
    solution on the letters of the last [len] columns passes the check of
    those columns, which is why the search may drop a mapping as soon as a
    column fails. *)
Theorem pruning_keeps_solutions
        (words : list string) (operation : string) (s m : mapping) (len : nat) :
  2 <= List.length words ->
  large_powers power ->
  exact_range words operation ->
  solution words operation s ->
  within s m ->
  bound_upto words len m ->
  len <> 0 ->
  check_equal other power words operation len m = Return true.
Proof. apply check_equal_window_sound. Qed.

(** X14: in the range in which binary64 arithmetic is exact, on a valid
    puzzle with a supported operation, the callback is never invoked
    exactly when the puzzle has no solution. *)
Theorem no_invocation_iff_no_solution
        (fuel : nat) (words : list string) (operation : string) (callback : sink) :
  valid_puzzle words = true ->
  operation = EmptyString \/ operation = "+" \/ operation = "*" ->
  List.length words < fuel ->
  large_powers power ->
  exact_range (map toUpperCase words) (default_operation operation) ->
  exists cs r,
    solve_singleop other power fuel words operation callback = Some (cs, r)
    /\ (cs = [] <->
        forall s, ~ solution (map toUpperCase words) (default_operation operation) s).
Proof.
  intros Hv Hop Hf Hp Hr.
  destruct (@solve_singleop_counts other power fuel words operation callback Hv Hop Hf)
    as [cs [n [H _]]].
  exists cs, (Return (JNumber n)). split; [assumption|]. split.
  - intros -> s Hs.
    destruct (@solve_singleop_complete other power fuel words operation callback s
                Hv Hop Hf Hp Hr Hs)
      as [cs' [r [call [H' [Hin _]]]]].
    rewrite H in H'. injection H' as <- _. contradiction.
  - intros Hno. destruct cs as [|c cs]; [reflexivity|exfalso].
    destruct (@solve_singleop_accepts other power fuel words operation callback _ _ H)
      as [Hacc _].
    inversion Hacc as [|x l Hc _]; subst.
    exact (Hno _ (@accepted_solution words operation c Hv Hp Hr Hc)).
Qed.


End Reports.

(** X27: beyond the range in which binary64 arithmetic is exact the search
    can miss a solution.  The assignment A=1, ..., I=9 is a solution of
    AAAAAAAAA * AAAAAAAAA = ABCDEFGHIHGFEDCBA, the square of 111111111
    being 12345678987654321; the product is rounded to 12345678987654320,
    the check of the last nine columns fails, and the callback is never
    invoked. *)
Theorem rounding_loses_a_solution :
  valid_puzzle ones_squared = true
  /\ solution (map toUpperCase ones_squared) "*" one_to_nine
  /\ mul (Finite 111111111) (Finite 111111111) = Finite 12345678987654320
  /\ check_equal no_other nearest_power ones_squared "*" 9 one_to_nine = Return false
  /\ solve_singleop no_other nearest_power 4 ones_squared "*" (fun _ _ _ => JUndefined)
     = Some ([], Return (JNumber (Finite 0%Z))).
Proof.
  split; [reflexivity|]. split; [|repeat split; vm_compute; reflexivity].
  split; [repeat constructor|]. split; [|split].
  - constructor.
    + repeat constructor; simpl; intuition discriminate.
    + repeat constructor; simpl; intuition discriminate.
    + repeat constructor.
    + repeat constructor; simpl; intros; discriminate.
  - intros word char Hw Hc. simpl in Hw.
    destruct Hw as [<-|[<-|[<-|[]]]]; simpl in Hc;
      repeat (destruct Hc as [<-|Hc]; [simpl; tauto|]); destruct Hc.
  - exists [111111111; 111111111]%Z, 12345678987654321%Z.
    split; [reflexivity|]. split; [reflexivity|]. right. split; reflexivity.
Qed.

(** ** The engine's reading of other strings is never used *)

Section Engines.
Variables other1 other2 : string -> number.
Variable power : powers.
Variable words : list string.

Lemma Number_other (s : string) :
  Forall (fun c => is_digit c = true) (chars_of s) ->
  Number other1 s = Number other2 s.
Proof.
  intros H.
  destruct (@Number_digits other1 s H) as [v1 [H1 D1]].
  destruct (@Number_digits other2 s H) as [v2 [H2 D2]].
  congruence.
Qed.

Lemma check_equal_other (operation : string) (check_len len : nat) (m : mapping) :
  check_len <> 0 ->
  window_within words check_len len ->
  bound_upto words len m ->
  check_equal other1 power words operation check_len m
  = check_equal other2 power words operation check_len m.
Proof.
  intros Hcl Hw Hb. unfold check_equal.
  apply Nat.eqb_neq in Hcl. rewrite Hcl.
  assert (E : forall t,
             In t (map (fun elt => substring_from (String.length elt - check_len) elt) words) ->
             Number other1 (substitute t m) = Number other2 (substitute t m)).
  { intros t Ht. apply in_map_iff in Ht. destruct Ht as [w [<- Hin]].
    apply Number_other, substitute_digits. intros c Hc. left.
    destruct (Hw w c Hin Hc) as [k [Hk Hcol]].
    apply has_key_keys. exact (Hb k c Hk Hcol). }
  set (ws := map (fun elt => substring_from (String.length elt - check_len) elt) words) in *.
  assert (Eo : map (fun word => Number other1 (substitute word m)) (removelast ws)
               = map (fun word => Number other2 (substitute word m)) (removelast ws)).
  { apply map_ext_in. intros t Ht. apply E. now apply In_removelast. }
  rewrite Eo.
  destruct ws as [|w0 ws0] eqn:Ews; [reflexivity|].
  assert (El : last_word (w0 :: ws0) = Some (last (w0 :: ws0) EmptyString)) by reflexivity.
  rewrite El.
  rewrite (E (last (w0 :: ws0) EmptyString)) by (apply last_In; discriminate).
  reflexivity.
Qed.

Lemma forEach_ext {A S} (array : list A) (f g : S -> A -> comp S) :
  (forall s x, In x array -> f s x = g s x) ->
  forall s, forEach array f s = forEach array g s.
Proof.
  induction array as [|x array IH]; intros H s; [reflexivity|].
  cbn [forEach]. rewrite (H s x) by now left.
  destruct (g s x) as [[cs [s'|e]]|]; cbn [bind]; try reflexivity.
  now rewrite IH by (intros; apply H; now right).
Qed.

Lemma do_layer_other (fuel : nat) :
  forall operation len m k1 k2 check_len,
    len <> 0 ->
    window_within words (default_check_len check_len len) len ->
    (forall j c, 1 <= j < len -> In c (column words j) -> has_key Ascii.eqb c m = true) ->
    (forall m' e p, bound_upto words len m' -> k1 m' e p = k2 m' e p) ->
    do_layer other1 power fuel words operation len m k1 check_len
    = do_layer other2 power fuel words operation len m k2 check_len.
Proof.
  induction fuel as [|fuel IH]; intros operation len m k1 k2 check_len Hlen Hw Hb Hk;
    [reflexivity|].
  rewrite !do_layer_eq.
  destruct (if len =? 0 then None else missing_letter words len m) as [char|] eqn:M.
  - f_equal. apply forEach_ext. intros s v Hv. f_equal.
    apply IH; auto.
    + now rewrite default_check_len_idem.
    + intros j c Hj Hin. apply has_key_set_other. now apply (Hb j c).
  - assert (Hnone : missing_letter words len m = None).
    { apply Nat.eqb_neq in Hlen. now rewrite Hlen in M. }
    assert (Hbound : bound_upto words len m).
    { intros j c Hj Hin. destruct (Nat.eq_dec j len) as [->|Hne].
      - now apply (@missing_letter_none words len m c).
      - apply (Hb j c); [lia|assumption]. }
    rewrite (@check_equal_other (default_operation operation)
               (default_check_len check_len len) len m); auto.
    + destruct (check_equal other2 power words (default_operation operation)
                            (default_check_len check_len len) m) as [[|]|e];
        cbn [lift bind]; try reflexivity.
      now rewrite Hk.
    + unfold default_check_len. destruct (check_len =? 0) eqn:E; [assumption|].
      now apply Nat.eqb_neq.
Qed.

Lemma window_within_column (len : nat) : window_within words len len.
Proof. intros w c Hw Hc. now apply suffix_columns with (word := w). Qed.

Lemma window_within_all (check_len : nat) :
  maxlen words <= check_len -> window_within words check_len (maxlen words).
Proof.
  intros H w c Hw Hc.
  destruct (@suffix_columns words w check_len c Hw Hc) as [k [Hk Hcol]].
  exists k. split; [|assumption]. split; [lia|].
  destruct (Nat.le_gt_cases k (maxlen words)) as [L|L]; [assumption|].
  rewrite column_beyond in Hcol by assumption. contradiction.
Qed.

Lemma solve_columns_other (fuel : nat) :
  forall len operation k1 k2 check_len,
    1 <= len <= maxlen words ->
    window_within words (default_check_len check_len len) len ->
    (forall m' e p, bound_upto words len m' -> k1 m' e p = k2 m' e p) ->
    solve_columns other1 power fuel words operation k1 len [] check_len
    = solve_columns other2 power fuel words operation k2 len [] check_len.
Proof.
  induction len as [|len IH]; intros operation k1 k2 check_len Hlen Hw Hk; [lia|].
  rewrite !solve_columns_eq.
  destruct len as [|len].
  - rewrite pending_small by lia.
    apply do_layer_other; auto.
    + now rewrite default_check_len_idem.
    + intros j c Hj. lia.
  - rewrite pending_start by lia.
    apply IH; [lia| |].
    + unfold default_check_len. cbn [Nat.eqb]. apply window_within_column.
    + intros m' e p Hb. apply do_layer_other; auto.
      * now rewrite default_check_len_idem.
      * intros j c Hj Hin. apply (Hb j c); [lia|assumption].
Qed.
End Engines.

(** X16: [solve_singleop] does not depend on what the engine's [Number]
    makes of a string that is not all digits: when a word is converted,
    every letter of it has been replaced by a digit. *)
Theorem engine_independent
        (other1 other2 : string -> number) (power : powers)
        (fuel : nat) (words : list string) (operation : string) (callback : sink) :
  solve_singleop other1 power fuel words operation callback
  = solve_singleop other2 power fuel words operation callback.
Proof.
  destruct (valid_puzzle words) eqn:V.
  - rewrite !solve_singleop_valid by assumption.
    pose proof (@valid_puzzle_maxlen words V) as Hmax.
    pose proof (@valid_puzzle_length words V) as Hn.
    apply solve_columns_other; [lia| |reflexivity].
    rewrite default_check_len_product by assumption.
    apply window_within_all. nia.
  - unfold solve_singleop. unfold valid_puzzle in V.
    destruct (List.length words <? 3); [reflexivity|].
    destruct (String.length (last words EmptyString) <? 1); [reflexivity|].
    destruct (0 <? List.length (filter has_invalid_chars (map toUpperCase words)));
      [reflexivity|].
    destruct (10 <? List.length (distinct_chars (map toUpperCase words)));
      [reflexivity|discriminate].
Qed.

Lemma solve_columns_default (other : string -> number) (power : powers)
      (fuel : nat) (words : list string)
      (operation : string) (callback : mapping -> string -> string -> comp jsval)
      (len : nat) (m : mapping) (check_len : nat) :
  solve_columns other power fuel words operation callback len m check_len
  = solve_columns other power fuel words (default_operation operation) callback len m check_len.
Proof.
  rewrite solve_columns_eq.
  rewrite (@solve_columns_eq other power fuel words (default_operation operation)).
  now rewrite default_operation_idem.
Qed.

(** X17: an operation that is not given (the empty string) is read as
    [+]. *)
Theorem default_operation_is_plus
        (other : string -> number) (power : powers)
        (fuel : nat) (words : list string) (callback : sink) :
  solve_singleop other power fuel words EmptyString callback
  = solve_singleop other power fuel words "+" callback.
Proof.
  unfold solve_singleop.
  destruct (List.length words <? 3); [reflexivity|].
  destruct (String.length (last words EmptyString) <? 1); [reflexivity|].
  destruct (0 <? List.length (filter has_invalid_chars (map toUpperCase words)));
    [reflexivity|].
  destruct (10 <? List.length (distinct_chars (map toUpperCase words))); [reflexivity|].
  apply solve_columns_default.
Qed.

Section Order.
(** The engine's reading of the strings that are not all digits and its
    powers of ten above [10 ^ 22]: any. *)
Variable other : string -> number.
Variable power : powers.

(** ** The order of the invocations *)

Lemma ForallOrdPairs_app {A} (R : A -> A -> Prop) (l1 l2 : list A) :
  ForallOrdPairs R l1 -> ForallOrdPairs R l2 ->
  (forall x y, In x l1 -> In y l2 -> R x y) ->
  ForallOrdPairs R (l1 ++ l2).
Proof.
  intros H1 H2 H. induction H1 as [|a l Ha Hl IH]; [exact H2|].
  cbn [app]. constructor.
  - apply Forall_app. split; [assumption|].
    rewrite Forall_forall. intros y Hy. apply H; [now left|assumption].
  - apply IH. intros x y Hx Hy. apply H; [now right|assumption].
Qed.

Lemma ordered_calls_forEach {S} (m : mapping) (c : ascii) (values : list nat)
      (body : S -> nat -> comp S) :
  StronglySorted lt values ->
  (forall s v, In v values -> ordered_calls (m ++ [(c, v)]) (body s v)) ->
  forall s cs r,
    forEach values body s = Some (cs, r) ->
    ForallOrdPairs before (map call_mapping cs)
    /\ Forall (fun call => exists v, In v values
                                    /\ extends (m ++ [(c, v)]) (call_mapping call)) cs.
Proof.
  induction values as [|v values IH]; intros Hs Hb s cs r; cbn [forEach].
  - intros H. injection H as <- <-. split; constructor.
  - inversion Hs as [|x l Hs' Hv]; subst.
    assert (Hfirst : forall cs1 r1, body s v = Some (cs1, r1) ->
                ForallOrdPairs before (map call_mapping cs1)
                /\ Forall (fun call => exists v', In v' (v :: values)
                                /\ extends (m ++ [(c, v')]) (call_mapping call)) cs1).
    { intros cs1 r1 H1. destruct (Hb s v (or_introl eq_refl) cs1 r1 H1) as [N F].
      split; [assumption|]. rewrite Forall_forall in *. intros call Hc.
      exists v. split; [now left|auto]. }
    intros H. apply bind_inv in H.
    destruct H as [[e [H1 _]]|[s' [cs1 [cs2 [H1 [H2 ->]]]]]].
    + eapply Hfirst; eauto.
    + destruct (Hb s v (or_introl eq_refl) cs1 _ H1) as [N1 F1].
      destruct (IH Hs' (fun s0 v0 Hin => Hb s0 v0 (or_intror Hin)) s' cs2 r H2)
        as [N2 F2].
      rewrite Forall_forall in F1, F2, Hv. split.
      * rewrite map_app. apply ForallOrdPairs_app; [assumption|assumption|].
        intros x y Hx Hy. apply in_map_iff in Hx, Hy.
        destruct Hx as [c1 [<- Hc1]]. destruct Hy as [c2 [<- Hc2]].
        destruct (F2 c2 Hc2) as [v' [Hv' Hext]].
        exists m, c, v, v'. split; [now apply Hv|]. split; [now apply F1|assumption].
      * apply Forall_app. split; rewrite Forall_forall; intros call Hc.
        -- exists v. split; [now left|auto].
        -- destruct (F2 call Hc) as [v' [Hv' Hext]]. exists v'. split; [now right|auto].
Qed.

Lemma do_layer_ordered (words : list string) (fuel : nat) :
  forall operation len m callback check_len,
    (forall m' e p, ordered_calls m' (callback m' e p)) ->
    ordered_calls m (do_layer other power fuel words operation len m callback check_len).
Proof.
  induction fuel as [|fuel IH]; intros operation len m callback check_len Hcb cs r.
  - discriminate.
  - rewrite do_layer_eq.
    destruct (if len =? 0 then None else missing_letter words len m) as [char|] eqn:M.
    + assert (Hm : missing_letter words len m = Some char)
        by (destruct (len =? 0); [discriminate|assumption]).
      destruct (@missing_letter_some words len m char Hm) as [Hk _].
      intros H. apply bind_ret_calls in H. destruct H as [r' H].
      apply (@ordered_calls_forEach number m char) in H.
      * destruct H as [N F]. split; [assumption|].
        rewrite Forall_forall in *. intros call Hc.
        destruct (F call Hc) as [v [_ Hext]]. now apply extends_snoc in Hext.
      * apply get_possible_values_sorted.
      * intros s v Hv cs' r'' H'. apply bind_ret_calls in H'. destruct H' as [r3 H'].
        rewrite set_fresh in H' by assumption.
        exact (IH (default_operation operation) len (m ++ [(char, v)]) callback
                  (default_check_len check_len len) Hcb cs' r3 H').
    + intros H. apply bind_inv in H.
      destruct H as [[e [H _]]|[b [cs1 [cs2 [H1 [H2 ->]]]]]].
      * injection H as <- _. split; constructor.
      * injection H1 as <- _. cbn [app]. destruct b.
        -- apply bind_ret_calls in H2. destruct H2 as [r' H2].
           exact (Hcb _ _ _ cs2 r' H2).
        -- injection H2 as <- _. split; constructor.
Qed.

Lemma solve_columns_ordered (words : list string) (fuel : nat) :
  forall len operation callback m check_len,
    (forall m' e p, ordered_calls m' (callback m' e p)) ->
    ordered_calls m (solve_columns other power fuel words operation callback len m check_len).
Proof.
  induction len as [|len IH]; intros operation callback m check_len Hcb;
    rewrite solve_columns_eq.
  - destruct (pending words 0 m); now apply do_layer_ordered.
  - destruct (pending words (S len) m); [|now apply do_layer_ordered].
    apply IH. intros m' e p. now apply do_layer_ordered.
Qed.

Lemma invoke_ordered (callback : sink) (m : mapping) (e p : string) :
  ordered_calls m (invoke callback m e p).
Proof.
  intros cs r H. injection H as <- _. split.
  - repeat constructor.
  - repeat constructor. apply extends_refl.
Qed.

(** X18: the callback is invoked in the order of the search: of two
    invocations, the mappings start with the same bindings and then bind
    the same letter, the earlier invocation to the smaller digit. *)
Theorem invocations_in_order
        (fuel : nat) (words : list string) (operation : string) (callback : sink) :
  List.length words < fuel ->
  exists cs r,
    solve_singleop other power fuel words operation callback = Some (cs, r)
    /\ ForallOrdPairs before (map call_mapping cs).
Proof.
  intros Hf.
  destruct (@solve_singleop_total other power fuel words operation callback Hf) as [cs [r H]].
  exists cs, r. split; [assumption|].
  destruct (valid_puzzle words) eqn:V.
  - rewrite solve_singleop_valid in H by assumption.
    eapply solve_columns_ordered; [|exact H]. apply invoke_ordered.
  - destruct (@solve_singleop_invalid other power fuel words operation callback V) as [e [He _]].
    rewrite He in H. injection H as <- _. constructor.
Qed.

End Order.

(** ** Swapping and permuting *)

Lemma nth_swap (array : list nat) (ii jj k : nat) :
  ii < List.length array -> jj < List.length array ->
  nth k (swap array ii jj) 0
  = if k =? jj then nth ii array 0 else if k =? ii then nth jj array 0 else nth k array 0.
Proof.
  intros Hi Hj. unfold swap.
  now repeat (rewrite nth_assign by (rewrite ?assign_length; assumption)).
Qed.

Lemma swap_Permutation (array : list nat) (ii jj : nat) :
  ii < List.length array -> jj < List.length array ->
  Permutation array (swap array ii jj).
Proof.
  intros Hi Hj. apply Permutation_nth_error.
  split; [now rewrite swap_length|].
  exists (fun k => if k =? jj then ii else if k =? ii then jj else k).
  split.
  - intros x y.
    destruct (Nat.eqb_spec x jj); destruct (Nat.eqb_spec x ii);
      destruct (Nat.eqb_spec y jj); destruct (Nat.eqb_spec y ii); lia.
  - intros n. destruct (Nat.lt_ge_cases n (List.length array)) as [Hn|Hn].
    + rewrite (nth_error_nth' _ 0) by (rewrite swap_length; assumption).
      rewrite nth_swap by assumption.
      destruct (Nat.eqb_spec n jj); [now rewrite (nth_error_nth' _ 0)|].
      destruct (Nat.eqb_spec n ii); now rewrite (nth_error_nth' _ 0).
    + replace (n =? jj) with false by (symmetry; apply Nat.eqb_neq; lia).
      replace (n =? ii) with false by (symmetry; apply Nat.eqb_neq; lia).
      rewrite (proj2 (nth_error_None array n)) by assumption.
      apply nth_error_None. now rewrite swap_length.
Qed.

(** X19: [swap] exchanges the entries at two indices inside the array and
    touches nothing else: the other entries and the length stay, the
    entries are the same up to order, and swapping again restores the
    array. *)
Theorem swap_exchanges (array : list nat) (ii jj : nat) :
  ii < List.length array -> jj < List.length array ->
  nth ii (swap array ii jj) 0 = nth jj array 0
  /\ nth jj (swap array ii jj) 0 = nth ii array 0
  /\ (forall k, k <> ii -> k <> jj -> nth k (swap array ii jj) 0 = nth k array 0)
  /\ List.length (swap array ii jj) = List.length array
  /\ Permutation array (swap array ii jj)
  /\ swap (swap array ii jj) ii jj = array.
Proof.
  intros Hi Hj. repeat split.
  - rewrite nth_swap by assumption. rewrite Nat.eqb_refl.
    destruct (Nat.eqb_spec ii jj) as [->|]; reflexivity.
  - rewrite nth_swap by assumption. now rewrite Nat.eqb_refl.
  - intros k Hki Hkj. rewrite nth_swap by assumption.
    apply Nat.eqb_neq in Hki, Hkj. now rewrite Hki, Hkj.
  - apply swap_length.
  - now apply swap_Permutation.
  - now apply swap_swap.
Qed.

Lemma permutations_from_eq {R} (func : list nat -> list R * bool) (remaining : nat)
      (array : list nat) (ii kk : nat) :
  permutations_from func (S remaining) array ii kk
  = if ii =? kk then let '(log, stop) := func array in (array, log, stop)
    else
      let '(array, log, should_stop) :=
        permutations_from func remaining array (ii + 1) kk in
      if should_stop then (array, log, should_stop)
      else permutations_loop func remaining ii kk
             (seq (ii + 1) (List.length array - (ii + 1))) array log.
Proof. reflexivity. Qed.

Lemma visit_restores (remaining : nat) (array : list nat) (ii kk : nat) :
  ii + remaining = List.length array ->
  permutations_from visit remaining array ii kk
  = (array, visited_from remaining array ii kk, false).
Proof.
  intros H.
  destruct (@permutations_from_first nat (fun _ => false) (fun _ => 0)
              remaining array ii kk H) as [_ [A [S _]]].
  unfold visited_from.
  destruct (permutations_from visit remaining array ii kk) as [[a l] s].
  cbn [fst snd] in *. now subst.
Qed.

Lemma visit_loop (remaining ii kk : nat) (array : list nat) (jjs : list nat) :
  ii + 1 + remaining = List.length array ->
  Forall (fun jj => jj < List.length array) jjs ->
  forall log,
    permutations_loop visit remaining ii kk jjs array log
    = (array,
       log ++ flat_map (fun jj => visited_from remaining (swap array ii jj) (ii + 1) kk) jjs,
       false).
Proof.
  intros Hlen. induction jjs as [|jj jjs IH]; intros Hjjs log.
  - cbn [permutations_loop flat_map]. now rewrite app_nil_r.
  - inversion Hjjs as [|x l Hjj Hrest]; subst.
    cbn [permutations_loop flat_map].
    rewrite visit_restores by (rewrite swap_length; lia).
    rewrite swap_swap by (assumption || lia).
    rewrite IH by assumption. now rewrite app_assoc.
Qed.

Lemma seq_below (array : list nat) (ii : nat) :
  Forall (fun jj => jj < List.length array) (seq (ii + 1) (List.length array - (ii + 1))).
Proof. apply Forall_forall. intros jj Hjj. apply in_seq in Hjj. lia. Qed.

Lemma visited_from_0 (array : list nat) (ii kk : nat) :
  visited_from 0 array ii kk = [array].
Proof. reflexivity. Qed.

Lemma visited_from_S (remaining : nat) (array : list nat) (ii kk : nat) :
  ii + S remaining = List.length array ->
  visited_from (S remaining) array ii kk
  = if ii =? kk then [array]
    else visited_from remaining array (ii + 1) kk
         ++ flat_map (fun jj => visited_from remaining (swap array ii jj) (ii + 1) kk)
                     (seq (ii + 1) (List.length array - (ii + 1))).
Proof.
  intros H. unfold visited_from at 1. rewrite permutations_from_eq.
  destruct (ii =? kk); [reflexivity|].
  rewrite visit_restores by lia.
  rewrite visit_loop by (try lia; apply seq_below). reflexivity.
Qed.

Lemma until_stop_app {R} (func : list nat -> list R * bool) (l1 l2 : list (list nat)) :
  until_stop func (l1 ++ l2)
  = if snd (until_stop func l1) then (fst (until_stop func l1), true)
    else (fst (until_stop func l1) ++ fst (until_stop func l2),
          snd (until_stop func l2)).
Proof.
  induction l1 as [|a l1 IH]; cbn [app until_stop fst snd].
  - now destruct (until_stop func l2).
  - destruct (func a) as [log [|]]; [reflexivity|].
    rewrite IH. destruct (until_stop func l1) as [log1 [|]]; cbn [fst snd].
    + reflexivity.
    + destruct (until_stop func l2) as [log2 stop2]. cbn [fst snd].
      now rewrite app_assoc.
Qed.

Section Any.
Variable R : Type.
Variable func : list nat -> list R * bool.

Lemma func_loop (remaining ii kk : nat) (array : list nat) (jjs : list nat) :
  ii + 1 + remaining = List.length array ->
  (forall array', List.length array' = List.length array ->
                  permutations_from func remaining array' (ii + 1) kk
                  = (array',
                     fst (until_stop func (visited_from remaining array' (ii + 1) kk)),
                     snd (until_stop func (visited_from remaining array' (ii + 1) kk)))) ->
  Forall (fun jj => jj < List.length array) jjs ->
  forall log,
    permutations_loop func remaining ii kk jjs array log
    = (array,
       log ++ fst (until_stop func
                     (flat_map (fun jj => visited_from remaining (swap array ii jj)
                                                       (ii + 1) kk) jjs)),
       snd (until_stop func
              (flat_map (fun jj => visited_from remaining (swap array ii jj)
                                                (ii + 1) kk) jjs))).
Proof.
  intros Hlen Hrec. induction jjs as [|jj jjs IH]; intros Hjjs log.
  - cbn [permutations_loop flat_map until_stop fst snd]. now rewrite app_nil_r.
  - inversion Hjjs as [|x l Hjj Hrest]; subst.
    cbn [permutations_loop flat_map].
    rewrite Hrec by apply swap_length.
    rewrite swap_swap by (assumption || lia).
    rewrite until_stop_app.
    destruct (until_stop func (visited_from remaining (swap array ii jj) (ii + 1) kk))
      as [log1 [|]]; cbn [fst snd].
    + reflexivity.
    + rewrite IH by assumption. now rewrite app_assoc.
Qed.

(** What [permutations] does with any callback: the arrays the callback
    is given are those a callback that never stops is given, in the same
    order, up to the first on which it asks to stop; and the array is left
    as it was. *)
Lemma permutations_from_until (remaining : nat) :
  forall array ii kk,
    ii + remaining = List.length array ->
    permutations_from func remaining array ii kk
    = (array,
       fst (until_stop func (visited_from remaining array ii kk)),
       snd (until_stop func (visited_from remaining array ii kk))).
Proof.
  induction remaining as [|remaining IH]; intros array ii kk H.
  - rewrite visited_from_0. cbn [permutations_from until_stop].
    destruct (func array) as [log [|]]; cbn [fst snd]; [reflexivity|].
    now rewrite app_nil_r.
  - rewrite permutations_from_eq, visited_from_S by assumption.
    destruct (ii =? kk).
    + cbn [until_stop]. destruct (func array) as [log [|]]; cbn [fst snd]; [reflexivity|].
      now rewrite app_nil_r.
    + rewrite IH by lia. rewrite until_stop_app.
      destruct (until_stop func (visited_from remaining array (ii + 1) kk))
        as [log1 [|]]; cbn [fst snd]; [reflexivity|].
      rewrite func_loop; try (lia || apply seq_below).
      * reflexivity.
      * intros array' Hl. apply IH. lia.
Qed.
End Any.

(** ** The arrays [permutations] visits *)

Lemma firstn_assign {A} (array : list A) (n i : nat) (v : A) :
  n <= i -> firstn n (assign array i v) = firstn n array.
Proof.
  revert n i. induction array as [|x array IH]; intros n i H.
  - now destruct i.
  - destruct i as [|i]; [replace n with 0 by lia; reflexivity|].
    destruct n as [|n]; [reflexivity|]. cbn [assign firstn]. f_equal. apply IH. lia.
Qed.

Lemma firstn_swap (array : list nat) (n ii jj : nat) :
  n <= ii -> n <= jj -> firstn n (swap array ii jj) = firstn n array.
Proof. intros Hi Hj. unfold swap. now rewrite !firstn_assign. Qed.

Lemma firstn_snoc {A} (l : list A) (n : nat) (d : A) :
  n < List.length l -> firstn (S n) l = firstn n l ++ [nth n l d].
Proof.
  revert n. induction l as [|x l IH]; intros n H; simpl in H; [lia|].
  destruct n as [|n]; [reflexivity|]. cbn [firstn nth app]. f_equal. apply IH. lia.
Qed.

Lemma firstn_shorter {A} (l l' : list A) (n k : nat) :
  n <= k -> firstn k l = firstn k l' -> firstn n l = firstn n l'.
Proof.
  intros H E. rewrite <- (Nat.min_l n k H), <- !firstn_firstn. now rewrite E.
Qed.

Lemma visited_from_keeps (remaining : nat) :
  forall array ii kk a,
    ii + remaining = List.length array ->
    In a (visited_from remaining array ii kk) ->
    Permutation array a /\ firstn ii a = firstn ii array.
Proof.
  induction remaining as [|remaining IH]; intros array ii kk a H Hin.
  - destruct Hin as [<-|[]]. split; reflexivity.
  - rewrite visited_from_S in Hin by assumption.
    destruct (ii =? kk); [destruct Hin as [<-|[]]; split; reflexivity|].
    apply in_app_or in Hin. destruct Hin as [Hin|Hin].
    + destruct (IH array (ii + 1) kk a) as [P F]; [lia|assumption|].
      split; [assumption|]. apply firstn_shorter with (k := ii + 1); [lia|assumption].
    + apply in_flat_map in Hin. destruct Hin as [jj [Hjj Hin]]. apply in_seq in Hjj.
      destruct (IH (swap array ii jj) (ii + 1) kk a) as [P F];
        [rewrite swap_length; lia|assumption|].
      split.
      * apply perm_trans with (l' := swap array ii jj); [|assumption].
        apply swap_Permutation; lia.
      * rewrite <- (@firstn_swap array ii ii jj) by lia.
        apply firstn_shorter with (k := ii + 1); [lia|assumption].
Qed.

Lemma visited_from_length (remaining : nat) :
  forall array ii kk,
    ii + remaining = List.length array -> ii <= kk ->
    List.length (visited_from remaining array ii kk) = arrangements remaining (kk - ii).
Proof.
  induction remaining as [|remaining IH]; intros array ii kk H Hk.
  - reflexivity.
  - rewrite visited_from_S by assumption.
    destruct (Nat.eqb_spec ii kk) as [->|Hne].
    + rewrite Nat.sub_diag. reflexivity.
    + replace (kk - ii) with (S (kk - (ii + 1))) by lia.
      cbn [arrangements]. rewrite length_app, IH by lia.
      rewrite (@flat_map_constant_length _ _ (arrangements remaining (kk - (ii + 1)))).
      * rewrite length_seq. replace (List.length array - (ii + 1)) with remaining by lia.
        lia.
      * intros jj Hjj. apply in_seq in Hjj. apply IH; [rewrite swap_length|]; lia.
Qed.

Lemma skipn_Permutation {A} (l l' : list A) (n : nat) :
  Permutation l l' -> firstn n l = firstn n l' -> Permutation (skipn n l) (skipn n l').
Proof.
  intros P F. rewrite <- (firstn_skipn n l), <- (firstn_skipn n l') in P.
  rewrite F in P. now apply Permutation_app_inv_l in P.
Qed.

Lemma visited_from_complete (remaining : nat) :
  forall array ii kk target,
    ii + remaining = List.length array -> ii <= kk ->
    Permutation array target ->
    firstn ii target = firstn ii array ->
    exists a, In a (visited_from remaining array ii kk)
              /\ firstn kk a = firstn kk target.
Proof.
  induction remaining as [|remaining IH]; intros array ii kk target H Hk P F.
  - exists array. split; [now left|].
    pose proof (Permutation_length P) as L.
    rewrite !firstn_all2 by lia.
    rewrite <- (firstn_all2 (n := ii) array), <- (firstn_all2 (n := ii) target) by lia.
    now symmetry.
  - rewrite visited_from_S by assumption.
    destruct (Nat.eqb_spec ii kk) as [->|Hne].
    + exists array. split; [now left|now symmetry].
    + pose proof (Permutation_length P) as L.
      assert (Hx : In (nth ii target 0) (skipn ii array)).
      { apply Permutation_in with (l := skipn ii target).
        - apply Permutation_sym, skipn_Permutation; [assumption|now symmetry].
        - rewrite <- (Nat.add_0_r ii) at 1. rewrite <- nth_skipn.
          apply nth_In. rewrite length_skipn. lia. }
      apply (In_nth _ _ 0) in Hx. destruct Hx as [j [Hj Hn]].
      rewrite length_skipn in Hj. rewrite nth_skipn in Hn.
      assert (Hstep : forall array',
                 List.length array' = List.length array ->
                 Permutation array array' ->
                 firstn ii array' = firstn ii array ->
                 nth ii array' 0 = nth ii target 0 ->
                 exists a, In a (visited_from remaining array' (ii + 1) kk)
                           /\ firstn kk a = firstn kk target).
      { intros array' L' P' F' N'. apply IH; try lia.
        - apply perm_trans with (l' := array); [now apply Permutation_sym|assumption].
        - rewrite Nat.add_1_r.
          rewrite (@firstn_snoc _ target ii 0), (@firstn_snoc _ array' ii 0) by lia.
          now rewrite F, F', N'. }
      destruct j as [|j].
      * rewrite Nat.add_0_r in Hn.
        destruct (Hstep array eq_refl (Permutation_refl _) eq_refl Hn) as [a [Ha Fa]].
        exists a. split; [apply in_or_app; now left|assumption].
      * destruct (Hstep (swap array ii (ii + S j))) as [a [Ha Fa]].
        -- apply swap_length.
        -- apply swap_Permutation; lia.
        -- apply firstn_swap; lia.
        -- rewrite nth_swap by lia.
           replace (ii =? ii + S j) with false by (symmetry; apply Nat.eqb_neq; lia).
           now rewrite Nat.eqb_refl.
        -- exists a. split; [|assumption].
           apply in_or_app. right. apply in_flat_map.
           exists (ii + S j). split; [apply in_seq; lia|assumption].
Qed.

(** X20: [permutations] with any callback leaves the array as it was and
    calls the callback on the arrays of [visited], in that order, up to the
    first on which the callback asks to stop. *)
Theorem permutations_until_stop
        (R : Type) (func : list nat -> list R * bool) (array : list nat) (ii kk : nat) :
  ii <= List.length array ->
  permutations func array ii kk
  = (array, fst (until_stop func (visited array ii kk)),
     snd (until_stop func (visited array ii kk))).
Proof.
  intros H. unfold permutations, visited. apply permutations_from_until. lia.
Qed.

(** X21: the arrays [permutations] visits are rearrangements of the array
    it was given that keep its first [ii] entries; there are
    [arrangements] of them; and every way to fill the places [ii] to [kk]
    from the entries after [ii] is visited. *)
Theorem permutations_exhaustive (array : list nat) (ii kk : nat) :
  ii <= kk -> ii <= List.length array ->
  (forall a, In a (visited array ii kk) ->
             Permutation array a /\ firstn ii a = firstn ii array)
  /\ List.length (visited array ii kk) = arrangements (List.length array - ii) (kk - ii)
  /\ (forall target,
         Permutation array target -> firstn ii target = firstn ii array ->
         exists a, In a (visited array ii kk) /\ firstn kk a = firstn kk target).
Proof.
  intros Hk Hi. unfold visited. split; [|split].
  - intros a Ha. apply (@visited_from_keeps (List.length array - ii) array ii kk a); [lia|assumption].
  - apply visited_from_length; lia.
  - intros target P F. apply visited_from_complete; auto. lia.
Qed.

(** ** Letters and mappings of the exhaustive solver *)

(** X22: [make_letters] lists the capital letters of the string, each
    once. *)
Theorem make_letters_exact (s : string) :
  NoDup (make_letters s)
  /\ forall c, In c (make_letters s) <-> In c (chars_of s) /\ is_letter c = true.
Proof.
  unfold make_letters.
  destruct (@make_letters_fold (chars_of s) [] (NoDup_nil _)) as [N I].
  split; [assumption|]. intros c. rewrite I. simpl. tauto.
Qed.

Lemma make_letters_NoDup (s : string) : NoDup (make_letters s).
Proof.
  unfold make_letters.
  now destruct (@make_letters_fold (chars_of s) [] (NoDup_nil _)) as [N _].
Qed.

Lemma make_mapping_ext (letters : list ascii) (values values' : list nat) :
  (forall i, i < List.length letters -> nth_error values i = nth_error values' i) ->
  make_mapping letters values = make_mapping letters values'.
Proof.
  intros H. unfold make_mapping.
  assert (G : forall l acc,
             (forall i, In i l -> i < List.length letters) ->
             fold_left (fun m ii => set Ascii.eqb m (nth ii letters "000"%char)
                                        (nth_error values ii)) l acc
             = fold_left (fun m ii => set Ascii.eqb m (nth ii letters "000"%char)
                                          (nth_error values' ii)) l acc).
  { induction l as [|i l IH]; intros acc Hl; [reflexivity|].
    cbn [fold_left]. rewrite (H i) by (apply Hl; now left).
    apply IH. intros j Hj. apply Hl. now right. }
  apply G. intros i Hi. apply in_seq in Hi. lia.
Qed.

Lemma combine_snoc {A B} (l : list A) (l' : list B) (x : A) (y : B) :
  List.length l = List.length l' ->
  combine (l ++ [x]) (l' ++ [y]) = combine l l' ++ [(x, y)].
Proof.
  revert l'. induction l as [|a l IH]; intros [|b l'] H; simpl in H; try lia.
  - reflexivity.
  - cbn [app combine]. f_equal. apply IH. lia.
Qed.

Lemma combine_firstn_r {A B} (l : list A) (l' : list B) :
  combine l (firstn (List.length l) l') = combine l l'.
Proof.
  revert l'. induction l as [|a l IH]; intros [|b l']; try reflexivity.
  cbn [List.length firstn combine]. now rewrite IH.
Qed.

Lemma NoDup_firstn {A} (l : list A) (n : nat) : NoDup l -> NoDup (firstn n l).
Proof.
  intros H. rewrite <- (firstn_skipn n l) in H. now apply NoDup_app_remove_r in H.
Qed.

Lemma make_mapping_prefix (letters : list ascii) (values : list nat) :
  NoDup letters ->
  forall k, k <= List.length letters ->
    fold_left (fun m ii => set Ascii.eqb m (nth ii letters "000"%char)
                               (nth_error values ii))
              (seq 0 k) []
    = combine (firstn k letters) (map (nth_error values) (seq 0 k)).
Proof.
  intros N. induction k as [|k IH]; intros Hk; [reflexivity|].
  rewrite seq_S, fold_left_app, IH by lia. cbn [fold_left Nat.add].
  rewrite (@firstn_snoc _ letters k "000"%char) by lia.
  rewrite map_app. cbn [map].
  rewrite combine_snoc by (rewrite length_firstn, length_map, length_seq; lia).
  apply set_fresh. apply has_key_false_keys.
  unfold keys. intros Hin. apply in_map_iff in Hin. destruct Hin as [[c v] [E Hin]].
  simpl in E. subst c. apply in_combine_l in Hin.
  assert (D : letters
              = firstn k letters ++ nth k letters "000"%char :: skipn (S k) letters).
  { rewrite <- (firstn_skipn (S k) letters) at 1.
    rewrite (@firstn_snoc _ letters k "000"%char) by lia. now rewrite <- app_assoc. }
  rewrite D in N. apply NoDup_remove_2 in N. apply N. apply in_or_app. now left.
Qed.

(** For letters that are all different, [make_mapping] pairs each letter
    with the value at its index, which is [undefined] from the end of the
    values on. *)
Lemma make_mapping_entries (letters : list ascii) (values : list nat) :
  NoDup letters ->
  make_mapping letters values
  = combine letters (map (nth_error values) (seq 0 (List.length letters))).
Proof.
  intros N. unfold make_mapping.
  rewrite (@make_mapping_prefix letters values N (List.length letters)) by lia.
  now rewrite firstn_all.
Qed.

Lemma nth_error_seq (values : list nat) :
  forall n, n <= List.length values ->
            map (nth_error values) (seq 0 n) = map Some (firstn n values).
Proof.
  induction values as [|v values IH]; intros n Hn.
  - simpl in Hn. replace n with 0 by lia. reflexivity.
  - destruct n as [|n]; [reflexivity|].
    cbn [seq map firstn nth_error]. f_equal.
    rewrite <- seq_shift, map_map. cbn [nth_error].
    apply IH. simpl in Hn. lia.
Qed.

Lemma make_mapping_combine (letters : list ascii) (values : list nat) :
  NoDup letters -> List.length letters <= List.length values ->
  make_mapping letters values = combine letters (map Some values).
Proof.
  intros N L. rewrite make_mapping_entries by assumption.
  rewrite nth_error_seq by assumption.
  rewrite <- (combine_firstn_r letters (map Some values)).
  now rewrite firstn_map.
Qed.

Lemma map_fst_combine {A B} (l : list A) (l' : list B) :
  List.length l <= List.length l' -> map fst (combine l l') = l.
Proof.
  revert l'. induction l as [|a l IH]; intros [|b l'] H; simpl in H; try lia.
  - reflexivity.
  - reflexivity.
  - cbn [combine map fst]. f_equal. apply IH. lia.
Qed.

Lemma map_snd_combine {A B} (l : list A) (l' : list B) :
  map snd (combine l l') = firstn (List.length l) l'.
Proof.
  revert l'. induction l as [|a l IH]; intros [|b l']; try reflexivity.
  cbn [combine map snd List.length firstn]. f_equal. apply IH.
Qed.

(** X23: for letters that are all different and at least as many values,
    [make_mapping] pairs each letter with the value at its index: its keys
    are the letters in order and its values the first values. *)
Theorem make_mapping_pairs (letters : list ascii) (values : list nat) :
  NoDup letters -> List.length letters <= List.length values ->
  make_mapping letters values = combine letters (map Some values)
  /\ keys (make_mapping letters values) = letters
  /\ map snd (make_mapping letters values)
     = map Some (firstn (List.length letters) values).
Proof.
  intros N L. rewrite make_mapping_combine by assumption.
  split; [reflexivity|]. split.
  - apply map_fst_combine. now rewrite length_map.
  - rewrite map_snd_combine. apply firstn_map.
Qed.

(** X24: for an equation made of letters and of the characters [+], [*]
    and [=], with at most ten letters, and an evaluator that throws on none
    of the texts of the assignments of different digits to the letters,
    [solve_general] reports a mapping exactly when one of these
    assignments makes the expression true; what it reports is a mapping
    that gives the letters of the expression different digits. *)
Theorem solve_general_exhaustive (eval : string -> option bool) (expression : string) :
  Forall (fun c => equation_char c = true) (chars_of expression) ->
  List.length (make_letters (toUpperCase expression)) <= 10 ->
  (forall values, Permutation digits values ->
                  eval (general_text expression values) <> None) ->
  (solve_general eval expression <> [] <->
   exists values,
     Permutation digits values
     /\ eval (general_text expression values) = Some true)
  /\ Forall (fun event =>
               exists m text ds,
                 event = Good m text
                 /\ keys m = make_letters (toUpperCase expression)
                 /\ map snd m = map Some ds
                 /\ NoDup ds
                 /\ Forall (fun d => d <= 9) ds)
            (solve_general eval expression).
Proof.
  intros _ Hlen Hev. rewrite solve_general_first_event.
  set (letters := make_letters (toUpperCase expression)) in *.
  set (out := fun values => eval (general_text expression values)).
  change (tried (List.length letters)) with (visited digits 0 (List.length letters)).
  assert (Hv : forall a, In a (visited digits 0 (List.length letters)) ->
                         Permutation digits a).
  { intros a Ha.
    now destruct (@visited_from_keeps (List.length digits - 0) digits 0
                    (List.length letters) a eq_refl Ha). }
  assert (Hstop : forall a, Permutation digits a ->
                            general_stops out a = true <-> out a = Some true).
  { intros a Ha. unfold general_stops. pose proof (Hev a Ha) as Hn. fold (out a) in Hn.
    destruct (out a) as [[|]|]; split; congruence. }
  unfold first_report. split.
  - split.
    + destruct (find (general_stops out) (visited digits 0 (List.length letters)))
        as [a|] eqn:F; [|congruence].
      intros _. apply find_some in F. destruct F as [Ha Hp].
      exists a. split; [now apply Hv|]. apply Hstop; [now apply Hv|assumption].
    + intros [values [Hperm Hp]].
      destruct (@visited_from_complete (List.length digits - 0) digits 0
                  (List.length letters) values eq_refl (Nat.le_0_l _) Hperm eq_refl)
        as [a [Ha Fa]].
      assert (E' : make_mapping letters a = make_mapping letters values).
      { apply make_mapping_ext. intros i Hi.
        assert (N : forall l : list nat,
                   nth_error (firstn (List.length letters) l) i = nth_error l i)
          by (intros l; rewrite nth_error_firstn;
              apply Nat.ltb_lt in Hi; now rewrite Hi).
        now rewrite <- (N a), <- (N values), Fa. }
      destruct (find (general_stops out) (visited digits 0 (List.length letters)))
        as [b|] eqn:F; [discriminate|].
      pose proof (find_none _ _ F a Ha) as Hn.
      assert (Ho : out a = out values).
      { unfold out, general_text. fold letters. now rewrite E'. }
      unfold general_stops in Hn. rewrite Ho in Hn. unfold out in Hn at 1.
      rewrite Hp in Hn. discriminate.
  - destruct (find (general_stops out) (visited digits 0 (List.length letters)))
      as [a|] eqn:F; [|constructor].
    apply find_some in F. destruct F as [Ha Hs]. apply Hv in Ha.
    apply (Hstop a Ha) in Hs.
    pose proof (Permutation_length Ha) as La. simpl in La.
    assert (Na : NoDup a).
    { apply (Permutation_NoDup Ha). unfold digits.
      repeat constructor; simpl; intuition lia. }
    assert (Ec : make_mapping letters a = combine letters (map Some a))
      by (apply make_mapping_combine; [apply make_letters_NoDup|lia]).
    constructor; [|constructor].
    exists (make_mapping letters a), (general_text expression a),
      (firstn (List.length letters) a).
    split; [|split; [|split; [|split]]].
    + unfold general_event_of. fold (out a). rewrite Hs. reflexivity.
    + rewrite Ec. apply map_fst_combine. rewrite length_map. lia.
    + rewrite Ec, map_snd_combine. apply firstn_map.
    + now apply NoDup_firstn.
    + rewrite Forall_forall. intros d Hd.
      assert (Hin : In d digits).
      { apply Permutation_in with (l := a); [now apply Permutation_sym|].
        rewrite <- (firstn_skipn (List.length letters) a). apply in_or_app. now left. }
      unfold digits in Hin. simpl in Hin. lia.
Qed.

Section Page.
(** The engine's reading of the strings that are not all digits and its
    powers of ten above [10 ^ 22]: any. *)
Variable other : string -> number.
Variable power : powers.

(** ** The page *)

Lemma page_words_length (a b c d target : string) :
  List.length (page_words a b c d target) <= 5.
Proof.
  unfold page_words. rewrite length_app. cbn [List.length].
  pose proof (filter_length_le (fun value => negb (String.eqb value EmptyString))
                               [a; b; c; d]) as H.
  cbn [List.length] in H. lia.
Qed.

Lemma column_length (words : list string) (len : nat) :
  List.length (column words len) <= List.length words.
Proof.
  induction words as [|w ws IH]; [reflexivity|].
  rewrite column_cons, length_app. cbn [List.length].
  destruct (len <=? String.length w); [|simpl; lia].
  destruct (String.get (String.length w - len) w); simpl; lia.
Qed.

Lemma js_string_count (n : nat) :
  js_string (JNumber (Finite (Z.of_nat n))) = to_string n
  /\ equals_zero (JNumber (Finite (Z.of_nat n))) = (n =? 0).
Proof.
  cbn [js_string equals_zero]. unfold integer_string. split.
  - replace (Z.of_nat n <? 0)%Z with false by (symmetry; apply Z.ltb_ge; lia).
    now rewrite Nat2Z.id.
  - destruct n; [reflexivity|]. simpl. reflexivity.
Qed.

(** X25: what the page displays on a click.  It clears the display, then
    shows one block per solution, each the mapping and the formatted
    expression, and last one line: the message of the error when the words
    are not a valid puzzle or the operator is not supported (no block is
    shown then), else the number of blocks it showed, or that there are no
    results. *)
Theorem page_displays
        (fuel : nat) (a b c d target operator : string) :
  5 < fuel ->
  exists cs r last_line,
    solve_singleop other power fuel (page_words a b c d target) operator
                   (fun _ _ _ => JUndefined) = Some (cs, r)
    /\ main_click other power fuel a b c d target operator
       = Some (SetDisplay EmptyString :: map page_block cs ++ [Display last_line])
    /\ ((valid_puzzle (page_words a b c d target) = false
         /\ cs = []
         /\ exists e, r = Throw e /\ InvalidPuzzle e = true /\ last_line = message e)
        \/ (valid_puzzle (page_words a b c d target) = true
            /\ unsupported operator
            /\ cs = []
            /\ r = Throw (InvalidOperation operator)
            /\ last_line = message (InvalidOperation operator))
        \/ (valid_puzzle (page_words a b c d target) = true
            /\ (operator = EmptyString \/ operator = "+" \/ operator = "*")
            /\ r = Return (JNumber (Finite (Z.of_nat (List.length cs))))
            /\ last_line = page_summary (List.length cs))).
Proof.
  intros Hf.
  pose proof (page_words_length a b c d target) as Hl.
  set (vals := page_words a b c d target) in *.
  unfold main_click. fold vals.
  destruct (valid_puzzle vals) eqn:V.
  - assert (Hop : (operator = EmptyString \/ operator = "+" \/ operator = "*")
                  \/ unsupported operator).
    { unfold unsupported.
      destruct (String.eqb_spec operator EmptyString); [now left; left|].
      destruct (String.eqb_spec operator "+"); [now left; right; left|].
      destruct (String.eqb_spec operator "*"); [now left; right; right|].
      right. repeat split; assumption. }
    destruct Hop as [Hop|Hop].
    + destruct (@solve_singleop_counts other power fuel vals operator (fun _ _ _ => JUndefined)
                  V Hop) as [cs [n [H [_ [_ [_ Hc]]]]]]; [lia|].
      rewrite Hc in H by (intros; now left).
      rewrite H. destruct (js_string_count (List.length cs)) as [J Z0].
      exists cs, (Return (JNumber (Finite (Z.of_nat (List.length cs))))),
        (page_summary (List.length cs)).
      split; [reflexivity|]. split.
      * rewrite Z0, J. unfold page_summary.
        destruct (List.length cs =? 0); reflexivity.
      * right. right. repeat split; assumption.
    + destruct (@solve_singleop_unsupported other power fuel vals operator
                  (fun _ _ _ => JUndefined) V Hop) as [_ H]; [lia|].
      rewrite H.
      * exists [], (Throw (InvalidOperation operator)), (message (InvalidOperation operator)).
        split; [reflexivity|]. split; [reflexivity|].
        right. left. repeat split; try assumption; apply Hop.
      * intros l N I. pose proof (NoDup_incl_length N I) as L1.
        pose proof (column_length (map toUpperCase vals) 1) as L2.
        rewrite length_map in L2. lia.
  - destruct (@solve_singleop_invalid other power fuel vals operator (fun _ _ _ => JUndefined) V)
      as [e [H He]].
    rewrite H. unfold throw.
    exists [], (Throw e), (message e).
    split; [reflexivity|]. split; [reflexivity|].
    left. repeat split. exists e. repeat split. assumption.
Qed.

End Page.

(** ** What the page writes for a mapping *)

Lemma split_no_sep (sep : ascii) (s : string) :
  ~ In sep (chars_of s) -> split sep s = [s].
Proof.
  induction s as [|c s IH]; intros H; [reflexivity|].
  cbn [split]. destruct (Ascii.eqb_spec c sep) as [->|Hne].
  - exfalso. apply H. now left.
  - rewrite IH; [reflexivity|]. intros Hin. apply H. now right.
Qed.

Lemma split_app_sep (sep : ascii) (s rest : string) :
  ~ In sep (chars_of s) ->
  split sep (s ++ String sep rest) = s :: split sep rest.
Proof.
  induction s as [|c s IH]; intros H.
  - cbn [append split]. now rewrite Ascii.eqb_refl.
  - cbn [append split]. destruct (Ascii.eqb_spec c sep) as [->|Hne].
    + exfalso. apply H. now left.
    + rewrite IH; [reflexivity|]. intros Hin. apply H. now right.
Qed.

Lemma split_concat (sep : ascii) (l : list string) :
  l <> [] ->
  (forall s, In s l -> ~ In sep (chars_of s)) ->
  split sep (String.concat (String sep EmptyString) l) = l.
Proof.
  induction l as [|x l IH]; intros Hne H; [congruence|].
  destruct l as [|y l].
  - cbn [String.concat]. apply split_no_sep. apply H. now left.
  - change (String.concat (String sep EmptyString) (x :: y :: l))
      with (x ++ String sep (String.concat (String sep EmptyString) (y :: l)))%string.
    rewrite split_app_sep by (apply H; now left).
    rewrite IH; [reflexivity|discriminate|]. intros s Hs. apply H. now right.
Qed.

(** X26: [hash_string] writes nothing for an empty mapping; for a mapping
    with letters as keys it writes one entry [key:value] per binding, in
    order, and splitting what it writes at the commas gives the entries
    back. *)
Theorem hash_string_entries (h : mapping) :
  letter_keys h -> h <> [] ->
  hash_string [] = EmptyString
  /\ split "," (hash_string h)
     = map (fun kv => (String (fst kv) EmptyString ++ ":" ++ to_string (snd kv))%string) h.
Proof.
  intros Hk Hne. split; [reflexivity|].
  unfold hash_string. apply split_concat.
  - destruct h; [congruence|discriminate].
  - intros s Hs. apply in_map_iff in Hs. destruct Hs as [[k v] [<- Hin]].
    cbn [fst snd append]. intros [E|[E|Hd]].
    + unfold letter_keys in Hk. rewrite Forall_forall in Hk.
      specialize (Hk _ Hin). cbn [fst] in Hk. rewrite E in Hk. discriminate.
    + discriminate.
    + pose proof (to_string_digits v) as F. rewrite Forall_forall in F.
      specialize (F _ Hd). discriminate.
Qed.

(** * Instances *)

Lemma substitute_idempotent_witness :
  letter_keys classical
  /\ substitute (substitute "SEND+MORE=MONEY" classical) classical
     = substitute "SEND+MORE=MONEY" classical.
Proof.
  assert (H : letter_keys classical) by (repeat constructor).
  split; [exact H|].
  exact (proj1 (substitute_idempotent "SEND+MORE=MONEY" H)).
Defined.

Lemma invalid_puzzle_rejected_witness :
  exists e, solve_singleop no_other nearest_power 4 ["A1"; "BB"; "CC"] "+" (fun _ _ _ => JUndefined)
            = Some ([], Throw e)
            /\ InvalidPuzzle e = true.
Proof.
  apply invalid_puzzle_rejected.
  right; right; left.
  exists "A1", "1"%char. repeat split; simpl; auto.
Defined.

(** C10 as stated fails: with too few words the thrown message quotes the
    words before they are uppercased. *)
Lemma case_insensitive_counterexample :
  solve_singleop no_other nearest_power 4 ["ab"] "+" (fun _ _ _ => JUndefined)
  = throw (NotEnoughWords ["ab"])
  /\ solve_singleop no_other nearest_power 4 (map toUpperCase ["ab"]) "+" (fun _ _ _ => JUndefined)
     = throw (NotEnoughWords ["AB"])
  /\ message (NotEnoughWords ["ab"]) = "Not enough words specified: ab"
  /\ message (NotEnoughWords ["AB"]) = "Not enough words specified: AB"
  /\ solve_singleop no_other nearest_power 4 ["ab"] "+" (fun _ _ _ => JUndefined)
     <> solve_singleop no_other nearest_power 4 (map toUpperCase ["ab"]) "+" (fun _ _ _ => JUndefined).
Proof.
  repeat split; try reflexivity.
  vm_compute. discriminate.
Qed.



Lemma digits_pairwise_distinct_witness :
  exists cs r,
    solve_singleop no_other nearest_power 4 send_more_money "+" (fun _ _ _ => JUndefined) = Some (cs, r)
    /\ (forall c, In c cs ->
                  search_state (map toUpperCase send_more_money) (call_mapping c)
                  /\ injective (call_mapping c))
    /\ (forall m, search_state (map toUpperCase send_more_money) m -> injective m).
Proof.
  apply (@digits_pairwise_distinct no_other nearest_power 4 send_more_money "+"
           (fun _ _ _ => JUndefined)).
  simpl; lia.
Defined.

Lemma no_leading_zero_witness :
  exists cs r,
    solve_singleop no_other nearest_power 4 send_more_money "+" (fun _ _ _ => JUndefined) = Some (cs, r)
    /\ forall c, In c cs ->
         forall word char rest,
           In word (map toUpperCase send_more_money) -> word = String char rest ->
           exists d, get Ascii.eqb char (call_mapping c) = Some d /\ d <> 0.
Proof.
  apply (@no_leading_zero no_other nearest_power 4 send_more_money "+" (fun _ _ _ => JUndefined)).
  simpl; lia.
Defined.



Lemma unsupported_operator_witness :
  (solve_singleop no_other nearest_power 4 send_more_money "-" (fun _ _ _ => JUndefined)
   = Some ([], Throw (InvalidOperation "-"))
   \/ solve_singleop no_other nearest_power 4 send_more_money "-" (fun _ _ _ => JUndefined)
      = Some ([], Return (JNumber (Finite 0%Z))))
  /\ ((forall l, NoDup l -> incl l (column (map toUpperCase send_more_money) 1) ->
                 List.length l <= 9) ->
      solve_singleop no_other nearest_power 4 send_more_money "-" (fun _ _ _ => JUndefined)
      = Some ([], Throw (InvalidOperation "-"))).
Proof.
  apply (@unsupported_operator no_other nearest_power 4 send_more_money "-" (fun _ _ _ => JUndefined)).
  - reflexivity.
  - repeat split; discriminate.
  - simpl; lia.
Defined.

(** C7 as stated fails: ten one-letter words pass the validation, no digit
    is left for the tenth letter, the check that would reject the operation
    is never reached, and 0 is returned for the operation "-". *)
Lemma unsupported_operator_counterexample :
  valid_puzzle ten_words = true
  /\ solve_singleop no_other nearest_power 11 ten_words "-" (fun _ _ _ => JUndefined)
     = Some ([], Return (JNumber (Finite 0%Z))).
Proof.
  split; [reflexivity|].
  rewrite solve_singleop_valid by reflexivity.
  rewrite solve_columns_eq.
  rewrite pending_small by (vm_compute; lia).
  apply do_layer_exhausted
    with (letters := ["A"; "B"; "C"; "D"; "E"; "F"; "G"; "H"; "I"; "J"]%char).
  - vm_compute. discriminate.
  - intros c Hc. vm_compute in Hc.
    repeat (destruct Hc as [<-|Hc]; [reflexivity|]). destruct Hc.
  - repeat constructor; simpl; intuition discriminate.
  - intros c Hc. exact Hc.
  - reflexivity.
  - apply well_formed_nil.
  - intros c [].
  - vm_compute. lia.
Qed.

Lemma general_reports_one_witness :
  Forall (fun c => equation_char c = true) (chars_of "A+B==C")
  /\ solve_general eval_equation "A+B==C"
     = [Good [("A"%char, Some 1); ("B"%char, Some 2); ("C"%char, Some 3)] "1+2==3"].
Proof.
  assert (H : Forall (fun c => equation_char c = true) (chars_of "A+B==C"))
    by (repeat constructor).
  split; [exact H|].
  rewrite (proj1 (@general_reports_one eval_equation "A+B==C" H)).
  vm_compute. reflexivity.
Defined.

(** C8 as stated fails: the column search accepts A=1, B=3, C=4 for
    A + B = C, and the exhaustive solver reports A=1, B=2, C=3 and stops. *)
Lemma general_reports_one_counterexample :
  solve_general eval_equation "A+B==C"
  = [Good [("A"%char, Some 1); ("B"%char, Some 2); ("C"%char, Some 3)] "1+2==3"]
  /\ option_map (fun r => nth 1 (map call_mapping (fst r)) [])
                (solve_singleop no_other nearest_power 4 ["A"; "B"; "C"] "+"
                                (fun _ _ _ => JUndefined))
     = Some [("A"%char, 1); ("B"%char, 3); ("C"%char, 4)]
  /\ ~ In (Good [("A"%char, Some 1); ("B"%char, Some 3); ("C"%char, Some 4)] "1+3==4")
          (solve_general eval_equation "A+B==C").
Proof.
  split; [vm_compute; reflexivity|].
  split; [vm_compute; reflexivity|].
  vm_compute. intros [H|[]]. discriminate.
Qed.

(** ** Instances of the further properties *)

Lemma classical_keys (k : ascii) : In k (keys classical) -> is_digit k = false.
Proof.
  intros H. simpl in H.
  repeat (destruct H as [<-|H]; [reflexivity|]). destruct H.
Qed.

(** The classical assignment is a solution of SEND + MORE = MONEY. *)
Lemma classical_solution : solution send_more_money "+" classical.
Proof.
  split; [repeat constructor|]. split; [|split].
  - constructor.
    + repeat constructor; simpl; intuition discriminate.
    + repeat constructor; simpl; intuition discriminate.
    + repeat constructor.
    + repeat constructor; simpl; intros; discriminate.
  - intros word char Hw Hc. simpl in Hw.
    destruct Hw as [<-|[<-|[<-|[]]]]; simpl in Hc;
      repeat (destruct Hc as [<-|Hc]; [simpl; tauto|]); destruct Hc.
  - exists [9567; 1085]%Z, 10652%Z.
    split; [reflexivity|]. split; [reflexivity|]. left. split; reflexivity.
Qed.

Lemma replace_all_removes_witness :
  ~ In "E"%char (chars_of "5")
  /\ ~ In "E"%char (chars_of (replace_all "SEND" "E" "5"))
  /\ (forall new', replace_all (replace_all "SEND" "E" "5") "E" new'
                   = replace_all "SEND" "E" "5")
  /\ replace_all "SEND" "E" "E" = "SEND".
Proof.
  assert (H : ~ In "E"%char (chars_of "5")) by (intros [H|[]]; discriminate).
  split; [exact H|]. exact (@replace_all_removes "SEND" "E" "5" H).
Defined.

Lemma substitute_charwise_witness :
  substitute "SEND+MORE" classical = expand (render classical) "SEND+MORE"
  /\ (Forall (fun kv => snd kv <= 9) classical ->
      String.length (substitute "SEND+MORE" classical) = String.length "SEND+MORE").
Proof. exact (@substitute_charwise "SEND+MORE" classical classical_keys). Defined.

Lemma expression_numerals_witness :
  substitute (flat_expression send_more_money "+") classical = "9567+1085=10652".
Proof.
  apply (@expression_numerals send_more_money "+" classical).
  - discriminate.
  - repeat constructor.
  - intros c [<-|[]]. reflexivity.
Defined.

Lemma check_equal_operand_order_witness :
  check_equal no_other nearest_power (["SEND"; "MORE"] ++ ["MONEY"]) "+" 5 classical
  = check_equal no_other nearest_power (["MORE"; "SEND"] ++ ["MONEY"]) "+" 5 classical.
Proof.
  apply (@check_equal_operand_order no_other nearest_power
           ["SEND"; "MORE"] ["MORE"; "SEND"] "MONEY" "+" 5 classical).
  - apply perm_swap.
  - discriminate.
  - discriminate.
  - exact nearest_power_large.
  - unfold exact_range. vm_compute. discriminate.
  - exact (proj1 (proj2 (proj2 classical_solution))).
  - repeat constructor.
Defined.


Lemma callback_arguments_witness :
  exists cs r,
    solve_singleop no_other nearest_power 4 send_more_money "+" (fun _ _ _ => JUndefined) = Some (cs, r)
    /\ forall call, In call cs ->
         call = call_of (map toUpperCase send_more_money) (default_operation "+")
                        (call_mapping call)
         /\ NoDup (keys (call_mapping call))
         /\ forall c, In c (keys (call_mapping call))
                      <-> letter_of (map toUpperCase send_more_money) c.
Proof.
  apply (@callback_arguments no_other nearest_power 4 send_more_money "+" (fun _ _ _ => JUndefined)).
  simpl; lia.
Defined.

Lemma invocations_are_the_solutions_witness :
  exists cs r,
    solve_singleop no_other nearest_power 4 send_more_money "+" (fun _ _ _ => JUndefined) = Some (cs, r)
    /\ NoDup (map call_mapping cs)
    /\ (forall call, In call cs ->
          solution (map toUpperCase send_more_money) (default_operation "+")
                   (call_mapping call))
    /\ (forall s,
          solution (map toUpperCase send_more_money) (default_operation "+") s ->
          exists call,
            In call cs
            /\ forall c, letter_of (map toUpperCase send_more_money) c ->
                         get Ascii.eqb c (call_mapping call) = get Ascii.eqb c s).
Proof.
  apply (@invocations_are_the_solutions no_other nearest_power 4 send_more_money "+"
           (fun _ _ _ => JUndefined)).
  - reflexivity.
  - right; left; reflexivity.
  - simpl; lia.
  - exact nearest_power_large.
  - unfold exact_range. vm_compute. discriminate.
Defined.

Lemma pruning_keeps_solutions_witness :
  check_equal no_other nearest_power send_more_money "+" 1 [("D"%char, 7); ("E"%char, 5); ("Y"%char, 2)]
  = Return true.
Proof.
  apply (@pruning_keeps_solutions no_other nearest_power send_more_money "+" classical).
  - simpl; lia.
  - exact nearest_power_large.
  - unfold exact_range. vm_compute. discriminate.
  - exact classical_solution.
  - intros c v H. simpl in H.
    repeat (destruct H as [E|H]; [injection E as <- <-; reflexivity|]). destruct H.
  - intros k c Hk Hin. replace k with 1 in Hin by lia. simpl in Hin.
    repeat (destruct Hin as [<-|Hin]; [reflexivity|]). destruct Hin.
  - discriminate.
Defined.

Lemma no_invocation_iff_no_solution_witness :
  exists cs r,
    solve_singleop no_other nearest_power 4 send_more_money "+" (fun _ _ _ => JUndefined)
    = Some (cs, r)
    /\ (cs = [] <->
        forall s, ~ solution (map toUpperCase send_more_money) (default_operation "+") s).
Proof.
  apply (@no_invocation_iff_no_solution no_other nearest_power 4 send_more_money "+"
           (fun _ _ _ => JUndefined)).
  - reflexivity.
  - right; left; reflexivity.
  - simpl; lia.
  - exact nearest_power_large.
  - unfold exact_range. vm_compute. discriminate.
Defined.


Lemma swap_exchanges_witness :
  nth 0 (swap [5; 6; 7] 0 2) 0 = nth 2 [5; 6; 7] 0
  /\ nth 2 (swap [5; 6; 7] 0 2) 0 = nth 0 [5; 6; 7] 0
  /\ (forall k, k <> 0 -> k <> 2 -> nth k (swap [5; 6; 7] 0 2) 0 = nth k [5; 6; 7] 0)
  /\ List.length (swap [5; 6; 7] 0 2) = List.length [5; 6; 7]
  /\ Permutation [5; 6; 7] (swap [5; 6; 7] 0 2)
  /\ swap (swap [5; 6; 7] 0 2) 0 2 = [5; 6; 7].
Proof. apply (@swap_exchanges [5; 6; 7] 0 2); simpl; lia. Defined.

Lemma permutations_until_stop_witness :
  permutations (stop_at_first (fun values => nth 0 values 0 =? 2) (fun values => values))
               [0; 1; 2] 0 2
  = ([0; 1; 2], [[2; 1; 0]], true).
Proof.
  exact (@permutations_until_stop _
           (stop_at_first (fun values => nth 0 values 0 =? 2) (fun values => values))
           [0; 1; 2] 0 2 ltac:(simpl; lia)).
Defined.

Lemma permutations_exhaustive_witness :
  (forall a, In a (visited digits 0 3) ->
             Permutation digits a /\ firstn 0 a = firstn 0 digits)
  /\ List.length (visited digits 0 3) = 720
  /\ (forall target,
         Permutation digits target -> firstn 0 target = firstn 0 digits ->
         exists a, In a (visited digits 0 3) /\ firstn 3 a = firstn 3 target).
Proof. apply (@permutations_exhaustive digits 0 3); simpl; lia. Defined.

Lemma make_mapping_pairs_witness :
  make_mapping ["A"; "B"]%char [1; 2; 3] = [("A"%char, Some 1); ("B"%char, Some 2)]
  /\ keys (make_mapping ["A"; "B"]%char [1; 2; 3]) = ["A"; "B"]%char
  /\ map snd (make_mapping ["A"; "B"]%char [1; 2; 3]) = [Some 1; Some 2].
Proof.
  apply (@make_mapping_pairs ["A"; "B"]%char [1; 2; 3]).
  - repeat constructor; simpl; intuition discriminate.
  - simpl; lia.
Defined.

(** The evaluator of the instances throws on none of the texts of
    A + B == C. *)
Lemma eval_equation_returns (values : list nat) :
  Permutation digits values ->
  eval_equation (general_text "A+B==C" values) <> None.
Proof.
  intros Hp.
  assert (L : List.length values = 10)
    by (rewrite <- (Permutation_length Hp); reflexivity).
  destruct values as [|a [|b [|c rest]]]; try discriminate.
  assert (Ha : In a digits)
    by (apply (Permutation_in _ (Permutation_sym Hp)); now left).
  assert (Hb : In b digits)
    by (apply (Permutation_in _ (Permutation_sym Hp)); right; now left).
  assert (Hc : In c digits)
    by (apply (Permutation_in _ (Permutation_sym Hp)); right; right; now left).
  clear Hp L. unfold digits in Ha, Hb, Hc. simpl in Ha, Hb, Hc.
  repeat (destruct Ha as [<-|Ha]; [|]); try contradiction;
    (repeat (destruct Hb as [<-|Hb]; [|]); try contradiction;
     (repeat (destruct Hc as [<-|Hc]; [|]); try contradiction;
      vm_compute; discriminate)).
Qed.

Lemma solve_general_exhaustive_witness :
  (solve_general eval_equation "A+B==C" <> [] <->
   exists values,
     Permutation digits values
     /\ eval_equation (general_text "A+B==C" values) = Some true)
  /\ Forall (fun event =>
               exists m text ds,
                 event = Good m text
                 /\ keys m = make_letters (toUpperCase "A+B==C")
                 /\ map snd m = map Some ds
                 /\ NoDup ds
                 /\ Forall (fun d => d <= 9) ds)
            (solve_general eval_equation "A+B==C").
Proof.
  apply (@solve_general_exhaustive eval_equation "A+B==C").
  - repeat constructor.
  - vm_compute. lia.
  - exact eval_equation_returns.
Defined.

Lemma page_displays_witness :
  exists cs r last_line,
    solve_singleop no_other nearest_power 6 (page_words "SEND" "MORE" EmptyString EmptyString "MONEY")
                   "+" (fun _ _ _ => JUndefined) = Some (cs, r)
    /\ main_click no_other nearest_power 6 "SEND" "MORE" EmptyString EmptyString "MONEY" "+"
       = Some (SetDisplay EmptyString :: map page_block cs ++ [Display last_line])
    /\ ((valid_puzzle (page_words "SEND" "MORE" EmptyString EmptyString "MONEY") = false
         /\ cs = []
         /\ exists e, r = Throw e /\ InvalidPuzzle e = true /\ last_line = message e)
        \/ (valid_puzzle (page_words "SEND" "MORE" EmptyString EmptyString "MONEY") = true
            /\ unsupported "+"
            /\ cs = []
            /\ r = Throw (InvalidOperation "+")
            /\ last_line = message (InvalidOperation "+"))
        \/ (valid_puzzle (page_words "SEND" "MORE" EmptyString EmptyString "MONEY") = true
            /\ ("+" = EmptyString \/ "+" = "+" \/ "+" = "*")
            /\ r = Return (JNumber (Finite (Z.of_nat (List.length cs))))
            /\ last_line = page_summary (List.length cs))).
Proof.
  apply (@page_displays no_other nearest_power 6 "SEND" "MORE" EmptyString EmptyString "MONEY" "+").
  simpl; lia.
Defined.

Lemma invocations_in_order_witness :
  exists cs r,
    solve_singleop no_other nearest_power 4 ["A"; "B"; "C"] "+" (fun _ _ _ => JUndefined) = Some (cs, r)
    /\ ForallOrdPairs before (map call_mapping cs).
Proof.
  apply (@invocations_in_order no_other nearest_power 4 ["A"; "B"; "C"] "+" (fun _ _ _ => JUndefined)).
  simpl; lia.
Defined.

Lemma hash_string_entries_witness :
  hash_string [] = EmptyString
  /\ split "," (hash_string classical)
     = ["D:7"; "E:5"; "Y:2"; "N:6"; "R:8"; "O:0"; "S:9"; "M:1"].
Proof.
  apply (@hash_string_entries classical).
  - repeat constructor.
  - discriminate.
Defined.
